(** * The Klaviyo statistics pipeline of wizeldigital/email-server

    A shallow embedding of the synchronisation pipeline (upstream client,
    rate-limited flow-definition fetcher, metadata merger, sync
    orchestrator) and of the access-controlled search, followed by the
    properties the specification states about them.

    Conventions of the embedding:
    - a JS object used as a record of known shape is a Rocq [Record]; a
      field read through [?.] is an [option];
    - a JS object used as a dictionary, spread or written with [$set] is a
      [gmap string value]: an absent key is [None];
    - [async] code is a state-and-outcome monad [M] over a [World] that
      holds the three MongoDB collections, the trace of upstream requests
      and the number of clock reads; a promise that never settles is
      [Pending];
    - [Date.now()] reads an arbitrary clock sequence; [setTimeout] delays
      only influence what the clock returns and are not represented. *)

From Stdlib Require Import ZArith QArith Qround Qminmax String.
From stdpp Require Import base option list gmap strings.

Set Warnings "-register-all".

(** ** JavaScript values, dates, errors and promise outcomes *)

Module Js.

(** JSON-like values as they end up in merged records and stored
    documents.  [VOid] is a MongoDB ObjectId, [VDate] a valid [Date]. *)
Inductive value : Type :=
| VNull
| VBool (b : bool)
| VNum (q : Q)
| VStr (s : string)
| VOid (hex : string)
| VDate (ms : Z)
| VArr (items : list value)
| VObj (fields : gmap string value).

(** A [Date] is its time value in milliseconds; [None] is the Invalid
    Date produced by [new Date(undefined)]. *)
Definition JsDate : Type := option Z.

Inductive error : Type :=
| KlaviyoApiError (status : Z) (body : string)
| FetchTypeError (msg : string)
| RangeErrorInvalidTime
| TypeError (msg : string)
| MongoError (msg : string)
| CastError (value path : string).

Inductive outcome (A : Type) : Type :=
| Fulfilled (a : A)
| Rejected (e : error)
| Pending.
Arguments Fulfilled {A} a.
Arguments Rejected {A} e.
Arguments Pending {A}.

(** Truthiness of a string: only the empty string is falsy. *)
Definition truthy (s : string) : bool := negb (String.eqb s "").

(** [x || null] for an optional string [x]. *)
Definition or_null (x : option string) : value :=
  match x with
  | Some s => if truthy s then VStr s else VNull
  | None => VNull
  end.

(** [x || false] for an optional boolean [x]. *)
Definition or_false (x : option bool) : value := VBool (default false x).

(** [xs.filter(Boolean)] on optional strings. *)
Definition filter_Boolean (xs : list (option string)) : list string :=
  List.filter truthy (omap id xs).

(** [new Date(x)] for a stored date [x] that may be undefined. *)
Definition new_Date (x : option Z) : JsDate := x.

(** [d.toISOString()]: throws a RangeError on the Invalid Date. *)
Definition toISOString (iso : Z → string) (d : JsDate) : outcome string :=
  match d with
  | Some ms => Fulfilled (iso ms)
  | None => Rejected RangeErrorInvalidTime
  end.

(** [xs.slice(from, to)] and [xs.splice(at, 0, ...ins)]. *)
Definition slice {A} (xs : list A) (from to : nat) : list A :=
  take (to - from) (drop from xs).

Definition splice_insert {A} (xs : list A) (at_ : nat) (ins : list A) : list A :=
  take at_ xs ++ ins ++ drop at_ xs.

(** [[...new Set(xs)]]: first occurrences, in order. *)
Fixpoint set_spread_from (seen : list string) (xs : list string) : list string :=
  match xs with
  | [] => []
  | x :: rest =>
      if bool_decide (x ∈ seen) then set_spread_from seen rest
      else x :: set_spread_from (x :: seen) rest
  end.

Definition set_spread (xs : list string) : list string := set_spread_from [] xs.

(** Reading a dotted path in a document. *)
Fixpoint get_path (d : gmap string value) (path : list string) : option value :=
  match path with
  | [] => None
  | [k] => d !! k
  | k :: rest =>
      match d !! k with
      | Some (VObj o) => get_path o rest
      | _ => None
      end
  end.

End Js.
Export Js.

Abbreviation doc := (gmap string value).

(** ** Upstream documents (the shapes the code destructures) *)

Module Upstream.

Record TagRef := { tagref_id : string }.
Record TagsRel := { tags_data : option (list TagRef) }.
Record Relationships := { rel_tags : option TagsRel }.

Record Audiences := {
  aud_included : option (list string);
  aud_excluded : option (list string) }.

Record CampaignAttributes := {
  ca_name : option string;
  ca_audiences : option Audiences;
  ca_send_time : option string;
  ca_created_at : option string;
  ca_scheduled_at : option string;
  ca_updated_at : option string }.

Record Campaign := {
  campaign_id_ : string;
  campaign_attributes : option CampaignAttributes;
  campaign_relationships : option Relationships }.

Record NameAttributes := { na_name : option string }.

(** Tags, segments and lists are read as [x.id] and [x.attributes?.name]. *)
Record Named := { named_id : string; named_attributes : option NameAttributes }.

Record FlowAttributes := {
  fa_name : option string;
  fa_status : option string;
  fa_archived : option bool;
  fa_created : option string;
  fa_updated : option string;
  fa_trigger_type : option string }.

Record Flow := {
  flow_id_ : string;
  flow_attributes : option FlowAttributes;
  flow_relationships : option Relationships }.

Record CampaignGroupings := {
  cg_send_channel : string;
  cg_campaign_id : string;
  cg_campaign_message_id : string }.

(** A row of the campaign-values report; upstream statistics are numbers. *)
Record CampaignRow := {
  cr_groupings : CampaignGroupings;
  cr_statistics : option (gmap string Q) }.

Record FlowGroupings := {
  fg_flow_id : string;
  fg_flow_message_id : string;
  fg_send_channel : string }.

(** A row of the flow-series report; each statistic is a time series. *)
Record FlowRow := {
  fr_groupings : FlowGroupings;
  fr_statistics : gmap string (list Q) }.

(** Flow definitions: actions, A/B tests, variations. *)
Record Message := {
  msg_id : option string;
  msg_name : option string;
  msg_from_email : option string;
  msg_from_label : option string;
  msg_subject_line : option string;
  msg_preview_text : option string;
  msg_template_id : option string;
  msg_transactional : option bool;
  msg_smart_sending_enabled : option bool }.

Record MessageData := { md_message : option Message }.

(** A variation and the [main_action] of an A/B test are read only through
    [x.id] and [x.data?.message]. *)
Record MessageHolder := { mh_id : string; mh_data : option MessageData }.

Record Experiment := {
  exp_id : option string;
  exp_name : option string;
  exp_winner_metric : option string;
  exp_variations : option (list MessageHolder);
  exp_allocations : option (gmap string Q) }.

Record ActionData := {
  ad_message : option Message;
  ad_main_action : option MessageHolder;
  ad_current_experiment : option Experiment;
  ad_experiment_status : option string }.

Record Action := { action_type : string; action_data : option ActionData }.

Record Definition_ := { def_actions : option (list Action) }.
Record FlowDefAttributes := { fda_definition : option Definition_ }.
Record FlowDefData := { fdd_attributes : option FlowDefAttributes }.
Record FlowDefinition := { fd_data : option FlowDefData }.

(** Pages of a collection and of a report. *)
Record Links := { links_next : option string }.

Record Page (A : Type) := {
  pg_data : option (list A);          (* [Some] when [res.data] is an array *)
  pg_included : option (list value);  (* [Some] when [res.included] is an array *)
  pg_links : option Links }.
Arguments pg_data {A}. Arguments pg_included {A}. Arguments pg_links {A}.

Record ReportAttributes (R : Type) := {
  ra_results : option (list R);
  ra_date_times : option (list string) }.
Arguments ra_results {R}. Arguments ra_date_times {R}.

Record ReportData (R : Type) := { rd_attributes : option (ReportAttributes R) }.
Arguments rd_attributes {R}.

Record ReportPage (R : Type) := {
  rpg_data : option (ReportData R);
  rpg_included : option (list value);
  rpg_links : option Links }.
Arguments rpg_data {R}. Arguments rpg_included {R}. Arguments rpg_links {R}.

(** The body of a report request. *)
Inductive Timeframe :=
| TimeframeKey (key : string)
| TimeframeRange (start end_ : string).

Record ReportPayload := {
  rp_type : string;
  rp_statistics : list string;
  rp_timeframe : Timeframe;
  rp_interval : option string;
  rp_conversion_metric_id : option string }.

Inductive method := GET | POST | PATCH | DELETE.

Record Headers := {
  h_revision : string;
  h_accept : string;
  h_content_type : string;
  h_authorization : string }.

Record Request := {
  req_method : method;
  req_url : string;
  req_headers : Headers;
  req_body : option ReportPayload }.

(** What [fetch] gives back: a parsed body when [res.ok], the status and
    text otherwise, or a network failure. *)
Inductive Reply (A : Type) :=
| HttpOk (json : A)
| HttpNotOk (status : Z) (text : string)
| FetchFailed (msg : string).
Arguments HttpOk {A} json.
Arguments HttpNotOk {A} status text.
Arguments FetchFailed {A} msg.

(** The upstream service, one typed view per resource. *)
Record Service := {
  sv_campaigns : Request → Reply (Page Campaign);
  sv_tags : Request → Reply (Page Named);
  sv_flows : Request → Reply (Page Flow);
  sv_segments : Request → Reply (Page Named);
  sv_lists : Request → Reply (Page Named);
  sv_campaign_values : Request → Reply (ReportPage CampaignRow);
  sv_flow_series : Request → Reply (ReportPage FlowRow);
  sv_flow_definition : Request → Reply FlowDefinition }.

End Upstream.
Export Upstream.

(** ** Stored rows *)

Module Models.

Record KlaviyoIntegration := {
  apiKey : option string;
  conversion_metric_id : option string;
  flow_date_times : list JsDate }.

(** models/Store.js *)
Record Store := {
  _id : string;
  public_id : string;
  name : string;
  klaviyo_integration : KlaviyoIntegration;
  last_dashboard_sync : option Z;
  is_updating_dashboard : bool;
  tagNames : list string }.

(** models/User.js *)
Record StoreAccess := {
  store_public_id : string;
  store_id : string;
  permissions : option (list string) }.

Record User := {
  user_id : string;
  email : string;
  user_name : string;
  user_stores : list StoreAccess }.

End Models.
Export Models.

(** ** The world and the monad of asynchronous code *)

Module Runtime.

Record Env := {
  clock : nat → Z;              (* the successive values of [Date.now()] *)
  iso : Z → string;             (* the text [toISOString] renders *)
  parse_date : string → JsDate; (* [new Date(text)] *)
  service : Service;
  page_fuel : nat;              (* pages a loop may follow before it counts as never settling *)
  settle_rank : nat → nat;      (* the order in which the fan-out promises settle *)
  objectid_valid : string → bool;              (* [mongoose.Types.ObjectId.isValid]: the text can be made an ObjectId *)
  regex_i : string → option (string → bool);   (* [$regex] with option i; [None]: not a pattern *)
  sort_docs : list (string * Z) → list doc → list doc  (* [.sort(spec)] *)
}.

Record World := {
  stores : list Store;
  users : list User;
  campaign_stats : list doc;
  flow_stats : list doc;
  calls : list Request;
  ticks : nat }.

Definition set_stores (f : list Store → list Store) (w : World) : World :=
  {| stores := f (stores w); users := users w; campaign_stats := campaign_stats w;
     flow_stats := flow_stats w; calls := calls w; ticks := ticks w |}.

Definition set_campaign_stats (f : list doc → list doc) (w : World) : World :=
  {| stores := stores w; users := users w; campaign_stats := f (campaign_stats w);
     flow_stats := flow_stats w; calls := calls w; ticks := ticks w |}.

Definition set_flow_stats (f : list doc → list doc) (w : World) : World :=
  {| stores := stores w; users := users w; campaign_stats := campaign_stats w;
     flow_stats := f (flow_stats w); calls := calls w; ticks := ticks w |}.

Definition log_call (r : Request) (w : World) : World :=
  {| stores := stores w; users := users w; campaign_stats := campaign_stats w;
     flow_stats := flow_stats w; calls := calls w ++ [r]; ticks := ticks w |}.

Definition tick (w : World) : World :=
  {| stores := stores w; users := users w; campaign_stats := campaign_stats w;
     flow_stats := flow_stats w; calls := calls w; ticks := S (ticks w) |}.

Definition M (A : Type) : Type := Env → World → outcome A * World.

Definition ret {A} (a : A) : M A := λ _ w, (Fulfilled a, w).

Definition bind {A B} (m : M A) (k : A → M B) : M B :=
  λ env w,
    match m env w with
    | (Fulfilled a, w') => k a env w'
    | (Rejected e, w') => (Rejected e, w')
    | (Pending, w') => (Pending, w')
    end.

#[global] Instance M_ret : MRet M := @ret.
#[global] Instance M_bind : MBind M := λ A B k m, bind m k.

Definition throw {A} (e : error) : M A := λ _ w, (Rejected e, w).

Definition never {A} : M A := λ _ w, (Pending, w).

(** [try { m } catch (e) { h e }]. *)
Definition try_catch {A} (m : M A) (h : error → M A) : M A :=
  λ env w,
    match m env w with
    | (Rejected e, w') => h e env w'
    | r => r
    end.

(** Awaiting a value that is already an outcome. *)
Definition await {A} (o : outcome A) : M A := λ _ w, (o, w).

(** Running a promise to the point where it settles, keeping how. *)
Definition settle {A} (m : M A) : M (outcome A) :=
  λ env w, let '(o, w') := m env w in (Fulfilled o, w').

Definition ask : M Env := λ env w, (Fulfilled env, w).

Definition modify (f : World → World) : M unit := λ _ w, (Fulfilled tt, f w).

Definition gets {A} (f : World → A) : M A := λ _ w, (Fulfilled (f w), w).

(** [Date.now()]. *)
Definition Date_now : M Z := λ env w, (Fulfilled (clock env (ticks w)), tick w).

(** [fetch(url, options)] against one view of the service. *)
Definition fetch {A} (view : Service → Request → Reply A) (r : Request) : M (Reply A) :=
  λ env w, (Fulfilled (view (service env) r), log_call r w).

(** [for (const x of xs) await f(x)]. *)
Fixpoint for_each {A} (f : A → M unit) (xs : list A) : M unit :=
  match xs with
  | [] => ret tt
  | x :: rest => bind (f x) (λ _, for_each f rest)
  end.

(** [await Promise.all(xs.map(f))] when no [f x] can reject. *)
Fixpoint map_all {A B} (f : A → M B) (xs : list A) : M (list B) :=
  match xs with
  | [] => ret []
  | x :: rest => bind (f x) (λ y, bind (map_all f rest) (λ ys, ret (y :: ys)))
  end.

End Runtime.
Export Runtime.

(** ** lib/helpers/klaviyo-api.js *)

Module KlaviyoApi.

Definition BASE_URL : string := "https://a.klaviyo.com/api/".
Definition REVISION : string := "2025-04-15".

Record Opts := { opt_apiKey : option string }.

Definition getKlaviyoHeaders (apiKey : option string) : Headers :=
  {| h_revision := REVISION;
     h_accept := "application/vnd.api+json";
     h_content_type := "application/json";
     h_authorization :=
       match apiKey with
       | Some k =>
           if truthy k && String.prefix "pk_" k
           then "Klaviyo-API-Key " +:+ k
           else "Bearer " +:+ k
       | None => "Bearer undefined"
       end |}.

Definition klaviyoRequest {A} (view : Service → Request → Reply A)
    (m : method) (endpoint : string) (opts : Opts)
    (payload : option ReportPayload) : M A :=
  let url := if String.prefix "http" endpoint then endpoint
             else BASE_URL +:+ endpoint in
  let headers := getKlaviyoHeaders (opt_apiKey opts) in
  let body := match m with POST | PATCH => payload | _ => None end in
  res ← fetch view {| req_method := m; req_url := url;
                      req_headers := headers; req_body := body |};
  match res with
  | HttpOk json => ret json
  | HttpNotOk status text => throw (KlaviyoApiError status text)
  | FetchFailed msg => throw (FetchTypeError msg)
  end.

Definition klaviyoGet {A} (view : Service → Request → Reply A)
    (endpoint : string) (opts : Opts) : M A :=
  klaviyoRequest view GET endpoint opts None.

Definition klaviyoPost {A} (view : Service → Request → Reply A)
    (endpoint : string) (payload : ReportPayload) (opts : Opts) : M A :=
  klaviyoRequest view POST endpoint opts (Some payload).

(** [res.links && res.links.next ? res.links.next : null] *)
Definition next_url (links : option Links) : option string :=
  match links with
  | Some l =>
      match links_next l with
      | Some n => if truthy n then Some n else None
      | None => None
      end
  | None => None
  end.

Record Collection (A : Type) := {
  col_data : list A;
  col_included : list value;
  col_links : option Links }.
Arguments col_data {A}. Arguments col_included {A}. Arguments col_links {A}.

Record GetAllState (A : Type) := {
  gs_allData : list A;
  gs_allIncluded : list value;
  gs_firstResponse : option (Page A) }.
Arguments gs_allData {A}. Arguments gs_allIncluded {A}.
Arguments gs_firstResponse {A}.

(** The [while (url)] loop of [klaviyoGetAll]; [fuel] bounds the pages
    followed, and running out of it stands for a loop still running. *)
Fixpoint klaviyoGetAll_loop {A} (view : Service → Request → Reply (Page A))
    (opts : Opts) (fuel : nat) (url : option string)
    (st : GetAllState A) : M (GetAllState A) :=
  match url with
  | None => ret st
  | Some u =>
      match fuel with
      | O => never
      | S fuel' =>
          res ← klaviyoGet view u opts;
          let firstResponse :=
            match gs_firstResponse st with
            | None => Some res
            | Some f => Some f
            end in
          let allData :=
            match pg_data res with
            | Some d => gs_allData st ++ d
            | None => gs_allData st
            end in
          let allIncluded :=
            match pg_included res with
            | Some d => gs_allIncluded st ++ d
            | None => gs_allIncluded st
            end in
          klaviyoGetAll_loop view opts fuel' (next_url (pg_links res))
            {| gs_allData := allData; gs_allIncluded := allIncluded;
               gs_firstResponse := firstResponse |}
      end
  end.

Definition klaviyoGetAll_fuel {A} (view : Service → Request → Reply (Page A))
    (fuel : nat) (endpoint : string) (opts : Opts) : M (Collection A) :=
  st ← klaviyoGetAll_loop view opts fuel
         (if truthy endpoint then Some endpoint else None)
         {| gs_allData := []; gs_allIncluded := []; gs_firstResponse := None |};
  match gs_firstResponse st with
  | None => throw (TypeError "Cannot read properties of null (reading 'links')")
  | Some f =>
      ret {| col_data := gs_allData st; col_included := gs_allIncluded st;
             col_links := pg_links f |}
  end.

Definition klaviyoGetAll {A} (view : Service → Request → Reply (Page A))
    (endpoint : string) (opts : Opts) : M (Collection A) :=
  env ← ask;
  klaviyoGetAll_fuel view (page_fuel env) endpoint opts.

Record Report (R : Type) := {
  rep_data : option (ReportData R);
  rep_included : list value;
  rep_links : option Links }.
Arguments rep_data {R}. Arguments rep_included {R}. Arguments rep_links {R}.

Record ReportState (R : Type) := {
  rs_allIncluded : list value;
  rs_allResults : list R;
  rs_firstResponse : option (ReportPage R) }.
Arguments rs_allIncluded {R}. Arguments rs_allResults {R}.
Arguments rs_firstResponse {R}.

(** [res.data.attributes.results] when it is an array. *)
Definition page_results {R} (res : ReportPage R) : option (list R) :=
  d ← rpg_data res; a ← rd_attributes d; ra_results a.

Fixpoint klaviyoReportPost_loop {R}
    (view : Service → Request → Reply (ReportPage R))
    (payload : ReportPayload) (opts : Opts) (fuel : nat)
    (url : option string) (st : ReportState R) : M (ReportState R) :=
  match url with
  | None => ret st
  | Some u =>
      match fuel with
      | O => never
      | S fuel' =>
          res ← klaviyoPost view u payload opts;
          let firstResponse :=
            match rs_firstResponse st with
            | None => Some res
            | Some f => Some f
            end in
          let allIncluded :=
            match rpg_included res with
            | Some d => rs_allIncluded st ++ d
            | None => rs_allIncluded st
            end in
          let allResults :=
            match page_results res with
            | Some rs => rs_allResults st ++ rs
            | None => rs_allResults st
            end in
          klaviyoReportPost_loop view payload opts fuel'
            (next_url (rpg_links res))
            {| rs_allIncluded := allIncluded; rs_allResults := allResults;
               rs_firstResponse := firstResponse |}
      end
  end.

(** [firstResponse.data.attributes.results = allResults] *)
Definition with_results {R} (d : option (ReportData R)) (allResults : list R)
    : option (ReportData R) :=
  match d with
  | Some {| rd_attributes := Some a |} =>
      Some {| rd_attributes :=
                Some {| ra_results := Some allResults;
                        ra_date_times := ra_date_times a |} |}
  | other => other
  end.

Definition klaviyoReportPost {R}
    (view : Service → Request → Reply (ReportPage R))
    (endpoint : string) (payload : ReportPayload) (opts : Opts)
    : M (Report R) :=
  env ← ask;
  st ← klaviyoReportPost_loop view payload opts (page_fuel env)
         (if truthy endpoint then Some endpoint else None)
         {| rs_allIncluded := []; rs_allResults := [];
            rs_firstResponse := None |};
  match rs_firstResponse st with
  | None => throw (TypeError "Cannot read properties of null (reading 'data')")
  | Some f =>
      ret {| rep_data := with_results (rpg_data f) (rs_allResults st);
             rep_included := rs_allIncluded st;
             rep_links := rpg_links f |}
  end.

End KlaviyoApi.
Export KlaviyoApi.

(** ** lib/helpers/flow-definitions.js *)

Module FlowDefinitions.

Definition getFlowDefinition (flowId : string) (opts : Opts)
    : M (option FlowDefinition) :=
  try_catch
    (response ← klaviyoGet sv_flow_definition
                  ("flows/" +:+ flowId +:+ "?additional-fields[flow]=definition")
                  opts;
     ret (Some response))
    (λ _, ret None).

Definition Qltb (x y : Q) : bool := negb (Qle_bool y x).

Definition Q_of_nat (n : nat) : Q := inject_Z (Z.of_nat n).

Record LoopState := {
  ls_flowIds : list string;     (* the array, spliced in place *)
  ls_i : nat;
  ls_totalRequests : nat;
  ls_results : list FlowDefinition }.

(** What one pass decides from the clock: the size of the batch really
    fetched.  [elapsedSeconds] is the exact quotient; the comparisons and
    the floor agree with their double-precision counterparts because the
    clock counts whole milliseconds. *)
Definition effectiveBatchSize (elapsedMs : Z) (totalRequests batchLength : nat)
    : nat :=
  let elapsedSeconds := (elapsedMs # 1000)%Q in
  let burstLimit := Qmin 30 (3 * Qmax 1 elapsedSeconds) in
  if Qltb burstLimit (Q_of_nat (totalRequests + batchLength))
     && Qltb elapsedSeconds 10
  then Z.to_nat (Z.max 1 (Qfloor (burstLimit - Q_of_nat totalRequests)))
  else if Qle_bool 10 elapsedSeconds then 1
  else batchLength.

(** One pass of the [for] loop of [getFlowDefinitions]. *)
Definition getFlowDefinitions_step (batchSize : nat) (opts : Opts)
    (startTime : Z) (st : LoopState) : M LoopState :=
  let flowIds := ls_flowIds st in
  let i := ls_i st in
  let batch := slice flowIds i (i + batchSize) in
  batchStartTime ← Date_now;
  now ← Date_now;
  let effective :=
    effectiveBatchSize (now - startTime) (ls_totalRequests st) (length batch) in
  let actualBatch := slice batch 0 effective in
  batchResults ←
    map_all (λ flowId,
               try_catch (getFlowDefinition flowId opts) (λ _, ret None))
            actualBatch;
  let results := ls_results st ++ omap id batchResults in
  let totalRequests := ls_totalRequests st + length actualBatch in
  let flowIds :=
    if effective <? length batch
    then splice_insert flowIds (i + effective) (drop effective batch)
    else flowIds in
  batchEnd ← Date_now;
  ret {| ls_flowIds := flowIds; ls_i := i + batchSize;
         ls_totalRequests := totalRequests; ls_results := results |}.

Fixpoint getFlowDefinitions_loop (fuel : nat) (batchSize : nat) (opts : Opts)
    (startTime : Z) (st : LoopState) : M (list FlowDefinition) :=
  if ls_i st <? length (ls_flowIds st) then
    match fuel with
    | O => never
    | S fuel' =>
        st' ← getFlowDefinitions_step batchSize opts startTime st;
        getFlowDefinitions_loop fuel' batchSize opts startTime st'
    end
  else ret (ls_results st).

Record RateLimitOptions := { maxBurst : option nat }.

Definition no_options : RateLimitOptions := {| maxBurst := None |}.

(** The loop makes at most [flowIds.length] passes when the batch size is
    positive (see [getFlowDefinitions_loop_settles]); with a batch size of
    0 it never leaves a non-empty list, which is what running out of fuel
    stands for. *)
Definition getFlowDefinitions (flowIds : list string) (opts : Opts)
    (rateLimitOptions : RateLimitOptions) : M (list FlowDefinition) :=
  let batchSize := default 3 (maxBurst rateLimitOptions) in
  startTime ← Date_now;
  results ← getFlowDefinitions_loop (length flowIds) batchSize opts startTime
              {| ls_flowIds := flowIds; ls_i := 0; ls_totalRequests := 0;
                 ls_results := [] |};
  endTime ← Date_now;
  ret results.

(** [x.data?.message] for an action, a main action, a variation. *)
Definition action_message (a : Action) : option Message :=
  d ← action_data a; ad_message d.

Definition holder_message (h : MessageHolder) : option Message :=
  d ← mh_data h; md_message d.

Definition extractMessageDetails (message : option Message) : doc :=
  match message with
  | None => ∅
  | Some m =>
      list_to_map [
        ("message_name", or_null (msg_name m));
        ("message_from_email", or_null (msg_from_email m));
        ("message_from_label", or_null (msg_from_label m));
        ("message_subject_line", or_null (msg_subject_line m));
        ("message_preview_text", or_null (msg_preview_text m));
        ("message_template_id", or_null (msg_template_id m));
        ("message_transactional", or_false (msg_transactional m));
        ("message_smart_sending_enabled",
          or_false (msg_smart_sending_enabled m)) ]
  end.

(** [experiment.allocations?.[variation.id] || 0] *)
Definition allocation_of (e : Experiment) (variationId : string) : Q :=
  default 0%Q (a ← exp_allocations e; a !! variationId).

Definition variation_details (e : Experiment) (v : MessageHolder) : value :=
  let m := holder_message v in
  VObj (list_to_map [
    ("variation_id", VStr (mh_id v));
    ("variation_name", or_null (m ≫= msg_name));
    ("allocation", VNum (allocation_of e (mh_id v)));
    ("message_name", or_null (m ≫= msg_name));
    ("message_subject_line", or_null (m ≫= msg_subject_line));
    ("message_template_id", or_null (m ≫= msg_template_id)) ]).

Definition no_experiment : doc := {[ "has_experiment" := VBool false ]}.

Definition extractExperimentDetails (action : Action) : doc :=
  if negb (String.eqb (action_type action) "ab-test") then no_experiment
  else
    match action_data action with
    | None => no_experiment
    | Some data =>
        match ad_current_experiment data with
        | None => no_experiment
        | Some experiment =>
            let variations :=
              variation_details experiment
                <$> default [] (exp_variations experiment) in
            list_to_map [
              ("has_experiment", VBool true);
              ("experiment_id", or_null (exp_id experiment));
              ("experiment_name", or_null (exp_name experiment));
              ("experiment_status", or_null (ad_experiment_status data));
              ("experiment_winner_metric",
                or_null (exp_winner_metric experiment));
              ("experiment_variations", VArr variations) ]
        end
    end.

(** [{ ...messageDetails, ...experimentDetails }] *)
Definition details (messageDetails experimentDetails : doc) : doc :=
  experimentDetails ∪ messageDetails.

(** A truthy [x?.message?.id]. *)
Definition truthy_id (m : option Message) : option string :=
  match m ≫= msg_id with
  | Some i => if truthy i then Some i else None
  | None => None
  end.

Definition add_variation (experimentDetails : doc)
    (messageMap : gmap string doc) (variation : MessageHolder)
    : gmap string doc :=
  match truthy_id (holder_message variation) with
  | Some messageId =>
      <[ messageId :=
           details (extractMessageDetails (holder_message variation))
                   experimentDetails ]> messageMap
  | None => messageMap
  end.

(** [action.data?.main_action?.data?.message] *)
Definition main_action_message (a : Action) : option Message :=
  d ← action_data a; h ← ad_main_action d; holder_message h.

(** [action.data?.current_experiment?.variations] *)
Definition action_variations (a : Action) : option (list MessageHolder) :=
  d ← action_data a; e ← ad_current_experiment d; exp_variations e.

Definition is_ab_test (a : Action) : bool :=
  String.eqb (action_type a) "ab-test".

(** The body of the loop over the actions of one definition. *)
Definition add_action (messageMap : gmap string doc) (action : Action)
    : gmap string doc :=
  let m1 :=
    match truthy_id (action_message action) with
    | Some messageId =>
        <[ messageId :=
             details (extractMessageDetails (action_message action))
                     (extractExperimentDetails action) ]> messageMap
    | None => messageMap
    end in
  let m2 :=
    match (if is_ab_test action
           then truthy_id (main_action_message action) else None) with
    | Some messageId =>
        <[ messageId :=
             details (extractMessageDetails (main_action_message action))
                     (extractExperimentDetails action) ]> m1
    | None => m1
    end in
  match (if is_ab_test action then action_variations action else None) with
  | Some variations =>
      foldl (add_variation (extractExperimentDetails action)) m2 variations
  | None => m2
  end.

(** [flowDef?.data?.attributes?.definition?.actions] *)
Definition definition_actions (flowDef : FlowDefinition) : option (list Action) :=
  d ← fd_data flowDef; a ← fdd_attributes d; df ← fda_definition a;
  def_actions df.

Definition buildMessageDetailsMap (flowDefinitions : list FlowDefinition)
    : gmap string doc :=
  foldl (λ messageMap flowDef,
           match definition_actions flowDef with
           | Some actions => foldl add_action messageMap actions
           | None => messageMap
           end)
        ∅ flowDefinitions.

End FlowDefinitions.
Export FlowDefinitions.

(** ** lib/helpers/stats-merger.js *)

Module StatsMerger.

(** The keys of the defaulted statistics object, in source order. *)
Definition STATISTICS_FIELDS : list string := [
  "opens"; "open_rate"; "bounced"; "clicks"; "clicks_unique"; "click_rate";
  "delivered"; "bounced_or_failed"; "bounced_or_failed_rate";
  "delivery_rate"; "failed"; "failed_rate"; "recipients"; "opens_unique";
  "bounce_rate"; "unsubscribe_rate"; "unsubscribe_uniques"; "unsubscribes";
  "spam_complaint_rate"; "spam_complaints"; "click_to_open_rate";
  "conversions"; "conversion_uniques"; "conversion_value";
  "conversion_rate"; "average_order_value"; "revenue_per_recipient" ].

Definition default_statistics : doc :=
  list_to_map ((λ k, (k, VNum 0%Q)) <$> STATISTICS_FIELDS).

(** [x.attributes?.name || null]; [None] stands for [null]. *)
Definition name_or_null (x : Named) : option string :=
  match named_attributes x ≫= na_name with
  | Some s => if truthy s then Some s else None
  | None => None
  end.

(** [for (const x of xs) map[x.id] = x.attributes?.name || null] *)
Definition add_names (m : gmap string (option string)) (xs : list Named)
    : gmap string (option string) :=
  foldl (λ m x, <[ named_id x := name_or_null x ]> m) m xs.

(** [ids.map(id => map[id]).filter(Boolean)] *)
Definition resolve_names (m : gmap string (option string)) (ids : list string)
    : list string :=
  filter_Boolean ((λ i, mjoin (m !! i)) <$> ids).

(** [x?.relationships?.tags?.data?.map(tag => tag.id) || []] *)
Definition tag_ids (rel : option Relationships) : list string :=
  match (r ← rel; t ← rel_tags r; tags_data t) with
  | Some refs => tagref_id <$> refs
  | None => []
  end.

Definition strings (xs : list string) : value := VArr (VStr <$> xs).

Definition campaign_groupings_value (g : CampaignGroupings) : value :=
  VObj (list_to_map [
    ("send_channel", VStr (cg_send_channel g));
    ("campaign_id", VStr (cg_campaign_id g));
    ("campaign_message_id", VStr (cg_campaign_message_id g)) ]).

(** [{ opens: 0, ..., ...r.statistics }] *)
Definition normalized_statistics (r : CampaignRow) : doc :=
  (VNum <$> default ∅ (cr_statistics r)) ∪ default_statistics.

Definition email_or_sms (r : CampaignRow) : bool :=
  String.eqb (cg_send_channel (cr_groupings r)) "email"
  || String.eqb (cg_send_channel (cr_groupings r)) "sms".

(** The function mapped over the filtered rows. *)
Definition merge_campaign_row (campaignMap : gmap string Campaign)
    (tagNameMap audienceNameMap : gmap string (option string))
    (r : CampaignRow) : doc :=
  let campaign := campaignMap !! cg_campaign_id (cr_groupings r) in
  let attributes := campaign ≫= campaign_attributes in
  let audiences := attributes ≫= ca_audiences in
  let tagIds := tag_ids (campaign ≫= campaign_relationships) in
  let includedAudienceIds := default [] (audiences ≫= aud_included) in
  let excludedAudienceIds := default [] (audiences ≫= aud_excluded) in
  list_to_map [
    ("groupings", campaign_groupings_value (cr_groupings r));
    ("statistics", VObj (normalized_statistics r));
    ("campaign_name", or_null (attributes ≫= ca_name));
    ("included_audiences", strings includedAudienceIds);
    ("excluded_audiences", strings excludedAudienceIds);
    ("included_audiences_names",
      strings (resolve_names audienceNameMap includedAudienceIds));
    ("excluded_audiences_names",
      strings (resolve_names audienceNameMap excludedAudienceIds));
    ("tagIds", strings tagIds);
    ("tagNames", strings (resolve_names tagNameMap tagIds));
    ("send_time", or_null (attributes ≫= ca_send_time));
    ("created_at", or_null (attributes ≫= ca_created_at));
    ("scheduled_at", or_null (attributes ≫= ca_scheduled_at));
    ("updated_at", or_null (attributes ≫= ca_updated_at)) ].

Definition mergeCampaignStatsWithMeta (results : list CampaignRow)
    (campaigns smsCampaigns : list Campaign)
    (segments lists tags : list Named) : list doc :=
  let campaignMap :=
    foldl (λ m c, <[ campaign_id_ c := c ]> m)
          (foldl (λ m c, <[ campaign_id_ c := c ]> m) ∅ campaigns)
          smsCampaigns in
  let tagNameMap := add_names ∅ tags in
  let audienceNameMap := add_names (add_names ∅ segments) lists in
  merge_campaign_row campaignMap tagNameMap audienceNameMap
    <$> List.filter email_or_sms results.

Definition series (xs : list Q) : value := VArr (VNum <$> xs).

(** The keys every merged flow record carries before the message details
    are spread over it. *)
Definition flow_base_record (flowMap : gmap string Flow)
    (tagNameMap : gmap string (option string)) (stat : FlowRow) : doc :=
  let flow := flowMap !! fg_flow_id (fr_groupings stat) in
  let attributes := flow ≫= flow_attributes in
  let tagIds := tag_ids (flow ≫= flow_relationships) in
  list_to_map [
    ("flow_id", VStr (fg_flow_id (fr_groupings stat)));
    ("flow_message_id", VStr (fg_flow_message_id (fr_groupings stat)));
    ("send_channel", VStr (fg_send_channel (fr_groupings stat)));
    ("flow_name", or_null (attributes ≫= fa_name));
    ("flow_status", or_null (attributes ≫= fa_status));
    ("flow_archived", or_false (attributes ≫= fa_archived));
    ("flow_created", or_null (attributes ≫= fa_created));
    ("flow_updated", or_null (attributes ≫= fa_updated));
    ("flow_trigger_type", or_null (attributes ≫= fa_trigger_type));
    ("tagIds", strings tagIds);
    ("tagNames", strings (resolve_names tagNameMap tagIds));
    ("statistics", VObj (series <$> fr_statistics stat)) ].

Definition merge_flow_row (flowMap : gmap string Flow)
    (tagNameMap : gmap string (option string))
    (messageDetailsMap : gmap string doc) (stat : FlowRow) : doc :=
  let messageDetails :=
    default ∅ (messageDetailsMap !! fg_flow_message_id (fr_groupings stat)) in
  messageDetails ∪ flow_base_record flowMap tagNameMap stat.

Definition mergeFlowStatsWithMeta (results : list FlowRow)
    (flows : list Flow) (tags : list Named)
    (messageDetailsMap : gmap string doc) : list doc :=
  let flowMap := foldl (λ m f, <[ flow_id_ f := f ]> m) ∅ flows in
  let tagNameMap := add_names ∅ tags in
  merge_flow_row flowMap tagNameMap messageDetailsMap <$> results.

End StatsMerger.
Export StatsMerger.

(** ** lib/permissions.js *)

Module Permissions.

Definition VIEW_ANALYTICS : string := "VIEW_ANALYTICS".
Definition MANAGE_CAMPAIGNS : string := "MANAGE_CAMPAIGNS".
Definition ADMIN : string := "ADMIN".

Definition hasPermission (storeAccess : option StoreAccess)
    (requiredPermission : string) : bool :=
  match storeAccess with
  | None => false
  | Some sa =>
      match permissions sa with
      | None => false
      | Some ps =>
          if bool_decide (ADMIN ∈ ps) then true
          else bool_decide (requiredPermission ∈ ps)
      end
  end.

End Permissions.
Export Permissions.

(** ** The document store, as the code drives it through mongoose *)

Module Mongo.

(** Values a filter compares with: strings and ObjectIds. *)
Inductive scalar := SStr (s : string) | SOid (hex : string).

Definition scalar_value (s : scalar) : value :=
  match s with SStr x => VStr x | SOid x => VOid x end.

Definition to_scalar (v : option value) : option scalar :=
  match v with
  | Some (VStr s) => Some (SStr s)
  | Some (VOid s) => Some (SOid s)
  | _ => None
  end.

Definition scalar_eqb (a b : scalar) : bool :=
  match a, b with
  | SStr x, SStr y => String.eqb x y
  | SOid x, SOid y => String.eqb x y
  | _, _ => false
  end.

(** An equality filter [{ path: v, ... }].  A condition whose value is
    [undefined] ([None]) is satisfied by no document. *)
Definition Filter : Type := list (list string * option scalar).

Definition holds (d : doc) (c : list string * option scalar) : bool :=
  match c.2, to_scalar (get_path d c.1) with
  | Some a, Some b => scalar_eqb a b
  | _, _ => false
  end.

Definition matches (f : Filter) (d : doc) : bool := forallb (holds d) f.

Fixpoint set_path (d : doc) (path : list string) (v : value) : doc :=
  match path with
  | [] => d
  | [k] => <[ k := v ]> d
  | k :: rest =>
      let inner := match d !! k with Some (VObj o) => o | _ => ∅ end in
      <[ k := VObj (set_path inner rest v) ]> d
  end.

(** The document an upsert starts from: the equality fields of the filter. *)
Definition filter_doc (f : Filter) : doc :=
  foldl (λ d c, match c.2 with
                | Some s => set_path d c.1 (scalar_value s)
                | None => d
                end) ∅ f.

(** [{ $set: set }] on a document: the listed fields are written, every
    other field is kept. *)
Definition apply_set (set : doc) (d : doc) : doc := set ∪ d.

Fixpoint update_first (p : doc → bool) (g : doc → doc) (coll : list doc)
    : option (list doc) :=
  match coll with
  | [] => None
  | d :: rest =>
      if p d then Some (g d :: rest)
      else (d ::.) <$> update_first p g rest
  end.

(** [Model.updateOne(filter, { $set: set }, { upsert: true })] *)
Definition updateOne_set_upsert (f : Filter) (set : doc) (coll : list doc)
    : list doc :=
  match update_first (matches f) (apply_set set) coll with
  | Some coll' => coll'
  | None => coll ++ [apply_set set (filter_doc f)]
  end.

(** The update documents the code passes for a store row. *)
Record StoreUpdate := {
  upd_last_dashboard_sync : option Z;
  upd_tagNames : option (list string);
  upd_is_updating_dashboard : option bool;
  upd_flow_date_times : option (list JsDate) }.

Definition apply_store_update (u : StoreUpdate) (s : Store) : Store :=
  {| _id := _id s;
     public_id := public_id s;
     name := name s;
     klaviyo_integration :=
       {| apiKey := apiKey (klaviyo_integration s);
          conversion_metric_id := conversion_metric_id (klaviyo_integration s);
          flow_date_times :=
            default (flow_date_times (klaviyo_integration s))
                    (upd_flow_date_times u) |};
     last_dashboard_sync :=
       match upd_last_dashboard_sync u with
       | Some t => Some t
       | None => last_dashboard_sync s
       end;
     is_updating_dashboard :=
       default (is_updating_dashboard s) (upd_is_updating_dashboard u);
     tagNames := default (tagNames s) (upd_tagNames u) |}.

(** The first row satisfying [p] is updated; the result is the row before
    and after, and the collection afterwards. *)
Fixpoint find_one_and_update (p : Store → bool) (u : StoreUpdate)
    (coll : list Store) : option (Store * Store * list Store) :=
  match coll with
  | [] => None
  | s :: rest =>
      if p s then Some (s, apply_store_update u s, apply_store_update u s :: rest)
      else
        match find_one_and_update p u rest with
        | Some (old, new, rest') => Some (old, new, s :: rest')
        | None => None
        end
  end.

(** [findByIdAndUpdate] / [findOneAndUpdate]; [new_] is the option
    [{ new: true }]. *)
Definition findOneAndUpdate (p : Store → bool) (u : StoreUpdate) (new_ : bool)
    : M (option Store) :=
  λ _ w,
    match find_one_and_update p u (stores w) with
    | Some (old, new, coll') =>
        (Fulfilled (Some (if new_ then new else old)),
         set_stores (λ _, coll') w)
    | None => (Fulfilled None, w)
    end.

End Mongo.
Export Mongo.

(** ** models/Store.js *)

Module StoreModel.

Definition findByIdOrPublicIdAndUpdate (idOrPublicId : string)
    (update : StoreUpdate) (new_ : bool) : M (option Store) :=
  env ← ask;
  result ←
    (if objectid_valid env idOrPublicId
     then findOneAndUpdate (λ s, String.eqb (_id s) idOrPublicId) update new_
     else ret None);
  match result with
  | Some r => ret (Some r)
  | None =>
      findOneAndUpdate (λ s, String.eqb (public_id s) idOrPublicId) update new_
  end.

End StoreModel.
Export StoreModel.

(** ** models/CampaignStats.js *)

Module CampaignStats.

Record DateRange := { range_from : Z; range_to : Z }.

Record SearchOptions := {
  so_limit : option nat;
  so_skip : option nat;
  so_sort : option (list (string * Z));
  so_dateRange : option DateRange;
  so_requiredPermission : option string }.

Record SearchResult := { results : list doc; total : nat }.

Definition is_whitespace (c : Ascii.ascii) : bool :=
  let n := Ascii.nat_of_ascii c in
  (n =? 32) || ((9 <=? n) && (n <=? 13)).

(** [query && query.trim()] is truthy. *)
Definition has_text (query : option string) : bool :=
  match query with
  | Some q => negb (forallb is_whitespace (list_ascii_of_string q))
  | None => false
  end.

Definition string_field (d : doc) (k : string) (p : string → bool) : bool :=
  match d !! k with
  | Some (VStr s) => p s
  | _ => false
  end.

Definition in_date_range (r : DateRange) (d : doc) : bool :=
  match d !! "created_at" with
  | Some (VDate t) => (range_from r <=? t)%Z && (t <=? range_to r)%Z
  | _ => false
  end.

(** The predicate of [searchQuery]. *)
Definition satisfies (storePublicIds : list string)
    (text : option (string → bool)) (dateRange : option DateRange)
    (d : doc) : bool :=
  string_field d "store_public_id" (λ s, bool_decide (s ∈ storePublicIds))
  && match text with
     | Some re => string_field d "campaign_name" re
                  || string_field d "store_public_id" re
     | None => true
     end
  && match dateRange with
     | Some r => in_date_range r d
     | None => true
     end.

(** [.limit(n)]: 0 means no limit. *)
Definition limit_to {A} (n : nat) (xs : list A) : list A :=
  if n =? 0 then xs else take n xs.

(** [User.findById(userId)]: mongoose casts the id to an ObjectId before
    it queries, and the query rejects with a CastError when the text is
    not one. *)
Definition User_findById (userId : string) : M (option User) :=
  env ← ask;
  if objectid_valid env userId
  then gets (λ w, List.find (λ u, String.eqb (user_id u) userId) (users w))
  else throw (CastError userId "_id").

Definition searchWithAccessControl (userId : string) (query : option string)
    (options : SearchOptions) : M SearchResult :=
  let limit := default 50 (so_limit options) in
  let skip := default 0 (so_skip options) in
  let sort := default [("created_at", (-1)%Z)] (so_sort options) in
  let requiredPermission :=
    default VIEW_ANALYTICS (so_requiredPermission options) in
  user ← User_findById userId;
  match user with
  | None => ret {| results := []; total := 0 |}
  | Some user =>
      let accessibleStores :=
        List.filter (λ storeAccess,
                       hasPermission (Some storeAccess) requiredPermission)
                    (user_stores user) in
      if length accessibleStores =? 0
      then ret {| results := []; total := 0 |}
      else
        let storePublicIds := store_public_id <$> accessibleStores in
        env ← ask;
        text ←
          (if has_text query
           then match regex_i env (default "" query) with
                | Some re => ret (Some re)
                | None => throw (MongoError "Regular expression is invalid")
                end
           else ret None);
        found ← gets (λ w,
                   List.filter
                     (satisfies storePublicIds text (so_dateRange options))
                     (campaign_stats w));
        ret {| results := limit_to limit (drop skip (sort_docs env sort found));
               total := length found |}
  end.

End CampaignStats.
Export CampaignStats.

(** ** lib/helpers/stats-sync.js *)

Module StatsSync.

Definition FRESHNESS_THRESHOLD_MS : Z := 1 * 60 * 1000.

(** The statistics both reports ask for. *)
Definition REPORT_STATISTICS : list string := [
  "average_order_value"; "bounce_rate"; "bounced"; "bounced_or_failed";
  "bounced_or_failed_rate"; "click_rate"; "click_to_open_rate"; "clicks";
  "clicks_unique"; "conversion_rate"; "conversion_uniques";
  "conversion_value"; "conversions"; "delivered"; "delivery_rate"; "failed";
  "failed_rate"; "open_rate"; "opens"; "opens_unique"; "recipients";
  "revenue_per_recipient"; "spam_complaint_rate"; "spam_complaints";
  "unsubscribe_rate"; "unsubscribe_uniques"; "unsubscribes" ].

Definition campaigns_endpoint (channel fromDate include : string) : string :=
  "campaigns?filter=equals(messages.channel,'" +:+ channel
  +:+ "'),greater-or-equal(created_at," +:+ fromDate
  +:+ "),equals(status,'Sent')&include=" +:+ include.

Definition campaign_values_payload (store : Store) : ReportPayload :=
  {| rp_type := "campaign-values-report";
     rp_statistics := REPORT_STATISTICS;
     rp_timeframe := TimeframeKey "last_12_months";
     rp_interval := None;
     rp_conversion_metric_id :=
       conversion_metric_id (klaviyo_integration store) |}.

Definition flow_series_payload (store : Store) (start end_ : string)
    : ReportPayload :=
  {| rp_type := "flow-series-report";
     rp_statistics := REPORT_STATISTICS;
     rp_timeframe := TimeframeRange start end_;
     rp_interval := Some "daily";
     rp_conversion_metric_id :=
       conversion_metric_id (klaviyo_integration store) |}.

Definition rejection {A} (o : outcome A) : option error :=
  match o with Rejected e => Some e | _ => None end.

(** [Promise.all] rejects with the reason of the promise that rejects
    first: among the rejected ones, the least settling rank. *)
Fixpoint earliest_rejection (rank : nat → nat) (i : nat)
    (rs : list (option error)) (best : option (nat * error))
    : option (nat * error) :=
  match rs with
  | [] => best
  | r :: rest =>
      let best' :=
        match r, best with
        | Some e, None => Some (rank i, e)
        | Some e, Some (b, e') =>
            if rank i <? b then Some (rank i, e) else Some (b, e')
        | None, _ => best
        end in
      earliest_rejection rank (S i) rest best'
  end.

Definition first_rejection (rank : nat → nat) (rs : list (option error))
    : option error :=
  snd <$> earliest_rejection rank 0 rs None.

Record FanOut := {
  fo_campaigns : Collection Campaign;
  fo_smsCampaigns : Collection Campaign;
  fo_tags : Collection Named;
  fo_flows : Collection Flow;
  fo_segments : Collection Named;
  fo_lists : Collection Named;
  fo_campaignValuesReports : Report CampaignRow;
  fo_flowSeriesReports : Report FlowRow }.

(** How each of the eight promises handed to [Promise.all] settles. *)
Record Settled := {
  st_campaigns : outcome (Collection Campaign);
  st_smsCampaigns : outcome (Collection Campaign);
  st_tags : outcome (Collection Named);
  st_flows : outcome (Collection Flow);
  st_segments : outcome (Collection Named);
  st_lists : outcome (Collection Named);
  st_campaignValuesReports : outcome (Report CampaignRow);
  st_flowSeriesReports : outcome (Report FlowRow) }.

Definition rejections (s : Settled) : list (option error) :=
  [ rejection (st_campaigns s); rejection (st_smsCampaigns s);
    rejection (st_tags s); rejection (st_flows s);
    rejection (st_segments s); rejection (st_lists s);
    rejection (st_campaignValuesReports s);
    rejection (st_flowSeriesReports s) ].

(** The eight calls of the array literal, each followed to where it
    settles.  They only read the upstream service, so the order in which
    the model runs them does not matter. *)
Definition fan_out_settle (store : Store) (fromDate : string) : M Settled :=
  let opts := {| opt_apiKey := apiKey (klaviyo_integration store) |} in
  env ← ask;
  p1 ← settle (klaviyoGetAll sv_campaigns
                 (campaigns_endpoint "email" fromDate "campaign-messages,tags")
                 opts);
  p2 ← settle (klaviyoGetAll sv_campaigns
                 (campaigns_endpoint "sms" fromDate "tags") opts);
  p3 ← settle (klaviyoGetAll sv_tags "tags" opts);
  p4 ← settle (klaviyoGetAll sv_flows "flows" opts);
  p5 ← settle (klaviyoGetAll sv_segments "segments" opts);
  p6 ← settle (klaviyoGetAll sv_lists "lists" opts);
  p7 ← settle (klaviyoReportPost sv_campaign_values "campaign-values-reports"
                 (campaign_values_payload store) opts);
  t1 ← Date_now;
  t2 ← Date_now;
  p8 ← settle (klaviyoReportPost sv_flow_series "flow-series-reports"
                 (flow_series_payload store
                    (iso env (t1 - 60 * 24 * 60 * 60 * 1000)) (iso env t2))
                 opts);
  ret {| st_campaigns := p1; st_smsCampaigns := p2; st_tags := p3;
         st_flows := p4; st_segments := p5; st_lists := p6;
         st_campaignValuesReports := p7; st_flowSeriesReports := p8 |}.

(** [await Promise.all([...])]: the first rejection if there is one, the
    eight values if all are fulfilled, and no continuation otherwise. *)
Definition promise_all (rank : nat → nat) (s : Settled) : M FanOut :=
  match first_rejection rank (rejections s) with
  | Some e => throw e
  | None =>
      match st_campaigns s, st_smsCampaigns s, st_tags s, st_flows s,
            st_segments s, st_lists s, st_campaignValuesReports s,
            st_flowSeriesReports s with
      | Fulfilled a1, Fulfilled a2, Fulfilled a3, Fulfilled a4,
        Fulfilled a5, Fulfilled a6, Fulfilled a7, Fulfilled a8 =>
          ret {| fo_campaigns := a1; fo_smsCampaigns := a2; fo_tags := a3;
                 fo_flows := a4; fo_segments := a5; fo_lists := a6;
                 fo_campaignValuesReports := a7;
                 fo_flowSeriesReports := a8 |}
      | _, _, _, _, _, _, _, _ => never
      end
  end.

Definition fan_out (store : Store) (fromDate : string) : M FanOut :=
  settled ← fan_out_settle store fromDate;
  env ← ask;
  promise_all (settle_rank env) settled.

(** [report.data.attributes], a TypeError when a link is undefined. *)
Definition report_attributes {R} (rep : Report R)
    : outcome (ReportAttributes R) :=
  match rep_data rep with
  | Some {| rd_attributes := Some a |} => Fulfilled a
  | Some {| rd_attributes := None |} =>
      Rejected (TypeError "Cannot read properties of undefined (reading 'results')")
  | None =>
      Rejected (TypeError "Cannot read properties of undefined (reading 'attributes')")
  end.

Definition report_results {R} (rep : Report R) : outcome (list R) :=
  match report_attributes rep with
  | Fulfilled a =>
      match ra_results a with
      | Some rs => Fulfilled rs
      | None =>
          Rejected (TypeError "Cannot read properties of undefined (reading 'length')")
      end
  | Rejected e => Rejected e
  | Pending => Pending
  end.

(** [stat.groupings.campaign_id] *)
Definition stat_campaign_id (stat : doc) : outcome (option scalar) :=
  match stat !! "groupings" with
  | Some (VObj g) => Fulfilled (to_scalar (g !! "campaign_id"))
  | Some _ => Fulfilled None
  | None =>
      Rejected (TypeError "Cannot read properties of undefined (reading 'campaign_id')")
  end.

Definition campaign_filter (storeId : string) (campaign_id : option scalar)
    : Filter :=
  [ (["store_id"], Some (SOid storeId));
    (["groupings"; "campaign_id"], campaign_id) ].

(** [{ ...stat, store_id: storeId, store_public_id: storePublicId }] *)
Definition campaign_set (stat : doc) (storeId storePublicId : string) : doc :=
  <[ "store_public_id" := VStr storePublicId ]>
    (<[ "store_id" := VOid storeId ]> stat).

Definition upsertCampaignStats (merged : list doc)
    (storeId storePublicId : string) : M unit :=
  for_each
    (λ stat,
       campaign_id ← await (stat_campaign_id stat);
       modify (set_campaign_stats
                 (updateOne_set_upsert
                    (campaign_filter storeId campaign_id)
                    (campaign_set stat storeId storePublicId))))
    merged.

Definition flow_filter (storeId : string) (stat : doc) : Filter :=
  [ (["store"], Some (SOid storeId));
    (["flow_id"], to_scalar (stat !! "flow_id"));
    (["flow_message_id"], to_scalar (stat !! "flow_message_id"));
    (["send_channel"], to_scalar (stat !! "send_channel")) ].

(** [{ ...stat, store: storeId, store_public_id, last_updated: new Date() }] *)
Definition flow_set (stat : doc) (storeId storePublicId : string)
    (last_updated : Z) : doc :=
  <[ "last_updated" := VDate last_updated ]>
    (<[ "store_public_id" := VStr storePublicId ]>
       (<[ "store" := VOid storeId ]> stat)).

Definition upsertFlowStats (merged : list doc)
    (storeId storePublicId : string) : M unit :=
  for_each
    (λ stat,
       now ← Date_now;
       modify (set_flow_stats
                 (updateOne_set_upsert
                    (flow_filter storeId stat)
                    (flow_set stat storeId storePublicId now))))
    merged.

Definition set_updating (flag : bool) : StoreUpdate :=
  {| upd_last_dashboard_sync := None; upd_tagNames := None;
     upd_is_updating_dashboard := Some flag;
     upd_flow_date_times := None |}.

(** The body of the [try] block. *)
Definition sync_body (store : Store) (fromDate : string) : M (option Store) :=
  let opts := {| opt_apiKey := apiKey (klaviyo_integration store) |} in
  fetched ← fan_out store fromDate;
  let tags := col_data (fo_tags fetched) in
  campaignResults ← await (report_results (fo_campaignValuesReports fetched));
  let merged :=
    mergeCampaignStatsWithMeta campaignResults
      (col_data (fo_campaigns fetched)) (col_data (fo_smsCampaigns fetched))
      (col_data (fo_segments fetched)) (col_data (fo_lists fetched)) tags in
  flowResults ← await (report_results (fo_flowSeriesReports fetched));
  let uniqueFlowIds :=
    set_spread ((λ result, fg_flow_id (fr_groupings result)) <$> flowResults) in
  flowDefinitions ← getFlowDefinitions uniqueFlowIds opts no_options;
  let messageDetailsMap := buildMessageDetailsMap flowDefinitions in
  let mergedFlows :=
    mergeFlowStatsWithMeta flowResults (col_data (fo_flows fetched)) tags
      messageDetailsMap in
  let tagNames :=
    filter_Boolean ((λ tag, named_attributes tag ≫= na_name) <$> tags) in
  flowAttributes ← await (report_attributes (fo_flowSeriesReports fetched));
  env ← ask;
  let flowDateTimes :=
    match ra_date_times flowAttributes with
    | Some dateStrs => parse_date env <$> dateStrs
    | None => []
    end in
  now ← Date_now;
  updatedStore ←
    findByIdOrPublicIdAndUpdate (_id store)
      {| upd_last_dashboard_sync := Some now;
         upd_tagNames := Some tagNames;
         upd_is_updating_dashboard := Some false;
         upd_flow_date_times := Some flowDateTimes |}
      true;
  _ ← upsertCampaignStats merged (_id store) (public_id store);
  _ ← upsertFlowStats mergedFlows (_id store) (public_id store);
  ret updatedStore.

Definition klaviyoUpdateStats (store : Store) (date : option JsDate)
    : M (option Store) :=
  now ← Date_now;
  let lastSync :=
    match last_dashboard_sync store with
    | Some t => t
    | None => 0%Z
    end in
  if is_updating_dashboard store
     || (now - lastSync <? FRESHNESS_THRESHOLD_MS)%Z
  then ret (Some store)
  else
    env ← ask;
    fromDate ←
      await (match date with
             | Some d => toISOString (iso env) d
             | None =>
                 toISOString (iso env) (new_Date (last_dashboard_sync store))
             end);
    _ ← findByIdOrPublicIdAndUpdate (_id store) (set_updating true) false;
    try_catch
      (sync_body store fromDate)
      (λ error,
         _ ← findByIdOrPublicIdAndUpdate (_id store) (set_updating false) false;
         throw error).

End StatsSync.
Export StatsSync.

(** * More of the code *)

(** ** lib/helpers/klaviyo-api.js: the remaining exports *)

Module KlaviyoFlows.

Definition klaviyoPatch {A} (view : Service → Request → Reply A)
    (endpoint : string) (payload : ReportPayload) (opts : Opts) : M A :=
  klaviyoRequest view PATCH endpoint opts (Some payload).

Definition klaviyoDelete {A} (view : Service → Request → Reply A)
    (endpoint : string) (opts : Opts) : M A :=
  klaviyoRequest view DELETE endpoint opts None.

(** [getFlow]: the parsed body, or [null] when the request throws. *)
Definition getFlow {A} (view : Service → Request → Reply A)
    (flowId : string) (opts : Opts) : M (option A) :=
  try_catch
    (response ← klaviyoGet view ("flows/" +:+ flowId) opts;
     ret (Some response))
    (λ _, ret None).

Record ConcurrencyOptions := { maxConcurrent : option nat }.

(** The [for] loop of [getFlowsWithRateLimit]: [i] advances by
    [maxConcurrent] whatever the batch held. *)
Fixpoint getFlowsWithRateLimit_loop {A} (view : Service → Request → Reply A)
    (fuel : nat) (maxConcurrent : nat) (opts : Opts) (flowIds : list string)
    (i : nat) (results : list A) : M (list A) :=
  if i <? length flowIds then
    match fuel with
    | O => never
    | S fuel' =>
        let batch := slice flowIds i (i + maxConcurrent) in
        batchResults ←
          map_all (λ flowId,
                     try_catch
                       (response ← klaviyoGet view ("flows/" +:+ flowId) opts;
                        ret (Some response))
                       (λ _, ret None))
                  batch;
        getFlowsWithRateLimit_loop view fuel' maxConcurrent opts flowIds
          (i + maxConcurrent) (results ++ omap id batchResults)
    end
  else ret results.

(** With a positive batch size the loop makes at most [flowIds.length]
    passes; with a batch size of 0 it never leaves a non-empty list. *)
Definition getFlowsWithRateLimit {A} (view : Service → Request → Reply A)
    (flowIds : list string) (opts : Opts)
    (rateLimitOptions : ConcurrencyOptions) : M (list A) :=
  let maxConcurrent := default 2 (maxConcurrent rateLimitOptions) in
  getFlowsWithRateLimit_loop view (length flowIds) maxConcurrent opts flowIds 0 [].

End KlaviyoFlows.
Export KlaviyoFlows.

Module FlowLookup.

(** [x?.message?.id === flowMessageId] *)
Definition id_is (m : option Message) (flowMessageId : string) : bool :=
  match m ≫= msg_id with
  | Some i => String.eqb i flowMessageId
  | None => false
  end.

(** The three checks made on one action, in source order; [None] when
    the loop moves on to the next action. *)
Definition find_in_action (flowMessageId : string) (action : Action)
    : option doc :=
  if id_is (action_message action) flowMessageId then
    Some (details (extractMessageDetails (action_message action))
                  (extractExperimentDetails action))
  else if is_ab_test action
          && id_is (main_action_message action) flowMessageId then
    Some (details (extractMessageDetails (main_action_message action))
                  (extractExperimentDetails action))
  else
    match (if is_ab_test action then action_variations action else None) with
    | Some variations =>
        (λ variation,
           details (extractMessageDetails (holder_message variation))
                   (extractExperimentDetails action))
          <$> List.find (λ variation,
                           id_is (holder_message variation) flowMessageId)
                        variations
    | None => None
    end.

Fixpoint find_in_actions (flowMessageId : string) (actions : list Action)
    : doc :=
  match actions with
  | [] => ∅
  | action :: rest =>
      match find_in_action flowMessageId action with
      | Some found => found
      | None => find_in_actions flowMessageId rest
      end
  end.

Definition findMessageInFlowDefinition (flowDefinition : FlowDefinition)
    (flowMessageId : string) : doc :=
  match definition_actions flowDefinition with
  | None => ∅
  | Some actions => find_in_actions flowMessageId actions
  end.

End FlowLookup.
Export FlowLookup.

(** ** middleware/auth.js *)

Module Auth.

(** What a request carries where the middleware looks.  The two headers
    are texts when present; [req.query.privateKey] and
    [req.body.privateKey] are whatever the parsers made of them; and
    [req.body] is undefined when no parser filled it. *)
Record AuthRequest := {
  header_x_private_key : option string;
  header_authorization : option string;
  query_privateKey : option value;
  request_body : option (gmap string value) }.

(** What the middleware does with the request: it hands it on with
    [req.privateKey] set, or answers with a status and a JSON body. *)
Inductive AuthResult :=
| CallsNext (privateKey : value)
| Answers (status : Z) (error : string) (message : option string).

(** Truthiness of a value and of a value that may be undefined. *)
Definition truthy_value (v : value) : bool :=
  match v with
  | VNull => false
  | VBool b => b
  | VNum q => negb (Qeq_bool q 0)
  | VStr s => truthy s
  | VOid _ | VDate _ | VArr _ | VObj _ => true
  end.

Definition is_truthy (x : option value) : bool :=
  match x with
  | Some v => truthy_value v
  | None => false
  end.

(** [text.replace(pattern, replacement)] for a text pattern: the first
    occurrence only. *)
Fixpoint replace_first (pattern replacement text : string) : string :=
  if String.prefix pattern text
  then replacement
       +:+ String.substring (String.length pattern)
             (String.length text - String.length pattern) text
  else match text with
       | EmptyString => text
       | String c rest => String c (replace_first pattern replacement rest)
       end.

(** [req.headers['x-private-key'] ||
     req.headers['authorization']?.replace('Bearer ', '') ||
     req.query.privateKey || req.body.privateKey]; [None] when reading
    [req.body.privateKey] throws. *)
Definition private_key_of (req : AuthRequest) : option (option value) :=
  let fromHeader := VStr <$> header_x_private_key req in
  if is_truthy fromHeader then Some fromHeader
  else
    let fromAuthorization :=
      (λ text, VStr (replace_first "Bearer " "" text))
        <$> header_authorization req in
    if is_truthy fromAuthorization then Some fromAuthorization
    else if is_truthy (query_privateKey req) then Some (query_privateKey req)
    else match request_body req with
         | Some body => Some (body !! "privateKey")
         | None => None
         end.

(** [validPrivateKey] is [process.env.PRIVATE_KEY]. *)
Definition isValidPrivateKey (validPrivateKey : option string)
    (privateKey : value) : bool :=
  match validPrivateKey with
  | Some valid =>
      if truthy valid
      then match privateKey with
           | VStr s => String.eqb s valid
           | _ => false
           end
      else false
  | None => false
  end.

Definition validatePrivateKey (validPrivateKey : option string)
    (req : AuthRequest) : AuthResult :=
  match private_key_of req with
  | Some (Some privateKey) =>
      if negb (truthy_value privateKey) then
        Answers 401 "Private key is required"
          (Some "Please provide a private key in the x-private-key header, Authorization header, or request body")
      else if negb (isValidPrivateKey validPrivateKey privateKey) then
        Answers 401 "Invalid private key format"
          (Some "The provided private key is not in a valid format")
      else CallsNext privateKey
  | Some None =>
      Answers 401 "Private key is required"
        (Some "Please provide a private key in the x-private-key header, Authorization header, or request body")
  | None =>
      Answers 500 "Authentication error"
        (Some "An error occurred during private key validation")
  end.

Definition validatePrivateKeyWithDB (req : AuthRequest) : AuthResult :=
  match private_key_of req with
  | Some (Some privateKey) =>
      if negb (truthy_value privateKey)
      then Answers 401 "Private key is required" None
      else CallsNext privateKey
  | Some None => Answers 401 "Private key is required" None
  | None => Answers 500 "Authentication error" None
  end.

End Auth.
Export Auth.



(** * Vocabulary of the properties *)

(** ** Frame conditions on monadic code *)

Module Frame.

(** The three collections and the users are the same in both worlds. *)
Definition same_db (w w' : World) : Prop :=
  stores w' = stores w ∧ users w' = users w
  ∧ campaign_stats w' = campaign_stats w ∧ flow_stats w' = flow_stats w.

Definition preserves_db {A} (m : M A) : Prop :=
  ∀ env w, same_db w (m env w).2.

Definition always_fulfilled {A} (m : M A) : Prop :=
  ∀ env w, ∃ a, (m env w).1 = Fulfilled a.

End Frame.
Export Frame.

(** ** The sync orchestrator *)

Module SyncSpec.

(** [lastSync] of the freshness gate. *)
Definition lastSync (store : Store) : Z := default 0%Z (last_dashboard_sync store).

(** The date whose ISO text becomes [fromDate]. *)
Definition from_date (store : Store) (date : option JsDate) : JsDate :=
  match date with
  | Some d => d
  | None => new_Date (last_dashboard_sync store)
  end.

Definition by_id (id : string) (s : Store) : bool := String.eqb (_id s) id.

Definition by_public_id (id : string) (s : Store) : bool :=
  String.eqb (public_id s) id.

Fixpoint update_first_store (p : Store → bool) (u : StoreUpdate)
    (coll : list Store) : list Store :=
  match coll with
  | [] => []
  | s :: rest =>
      if p s then apply_store_update u s :: rest
      else s :: update_first_store p u rest
  end.

(** The store collection after [findByIdOrPublicIdAndUpdate id u]. *)
Definition updated_stores (env : Env) (id : string) (u : StoreUpdate)
    (coll : list Store) : list Store :=
  if objectid_valid env id && existsb (by_id id) coll
  then update_first_store (by_id id) u coll
  else update_first_store (by_public_id id) u coll.

End SyncSpec.
Export SyncSpec.

(** ** Page chains of the upstream service *)

Module Pages.

(** The request [klaviyoGet endpoint opts] sends. *)
Definition get_request (endpoint : string) (opts : Opts) : Request :=
  {| req_method := GET;
     req_url := if String.prefix "http" endpoint then endpoint
                else BASE_URL +:+ endpoint;
     req_headers := getKlaviyoHeaders (opt_apiKey opts);
     req_body := None |}.

Definition log_calls (rs : list Request) (w : World) : World :=
  foldl (λ w r, log_call r w) w rs.

(** [Walk reply url urls pages failure]: following the next links from
    [url] requests [urls] in turn and receives [pages]; the chain ends at
    a page without a next link ([failure = None]) or at a request that
    fails. *)
Inductive Walk {A} (reply : string → Reply (Page A))
  : option string → list string → list (Page A) → option error → Prop :=
| walk_end : Walk reply None [] [] None
| walk_page u p urls pages failure :
    reply u = HttpOk p →
    Walk reply (next_url (pg_links p)) urls pages failure →
    Walk reply (Some u) (u :: urls) (p :: pages) failure
| walk_not_ok u status text :
    reply u = HttpNotOk status text →
    Walk reply (Some u) [u] [] (Some (KlaviyoApiError status text))
| walk_failed u msg :
    reply u = FetchFailed msg →
    Walk reply (Some u) [u] [] (Some (FetchTypeError msg)).

Definition page_data {A} (p : Page A) : list A := default [] (pg_data p).

Definition page_included {A} (p : Page A) : list value :=
  default [] (pg_included p).

(** What [klaviyoGetAll] gives back for a chain. *)
Definition collected {A} (pages : list (Page A)) (failure : option error)
    : outcome (Collection A) :=
  match failure, pages with
  | Some e, _ => Rejected e
  | None, [] =>
      Rejected (TypeError "Cannot read properties of null (reading 'links')")
  | None, first :: _ =>
      Fulfilled {| col_data := concat (page_data <$> pages);
                   col_included := concat (page_included <$> pages);
                   col_links := pg_links first |}
  end.

Definition start (endpoint : string) : option string :=
  if truthy endpoint then Some endpoint else None.

Definition extend {A} (st : GetAllState A) (pages : list (Page A))
    : GetAllState A :=
  {| gs_allData := gs_allData st ++ concat (page_data <$> pages);
     gs_allIncluded := gs_allIncluded st ++ concat (page_included <$> pages);
     gs_firstResponse :=
       match gs_firstResponse st with
       | Some f => Some f
       | None => head pages
       end |}.

(** The url requested after [n] pages were served, if the chain gets that
    far. *)
Fixpoint url_after {A} (reply : string → Reply (Page A)) (n : nat)
    (url : option string) : option string :=
  match n with
  | O => url
  | S n' =>
      match url with
      | Some u =>
          match reply u with
          | HttpOk p => url_after reply n' (next_url (pg_links p))
          | _ => None
          end
      | None => None
      end
  end.

(** The next links never terminate: however many pages were served, there
    is a further url to request and its page is served. *)
Definition Endless {A} (reply : string → Reply (Page A)) (url : option string)
    : Prop :=
  ∀ n, ∃ u p, url_after reply n url = Some u ∧ reply u = HttpOk p.

End Pages.
Export Pages.

(** ** Passes of the rate-limited fetcher *)

Module Batches.

Definition definition_endpoint (flowId : string) : string :=
  "flows/" +:+ flowId +:+ "?additional-fields[flow]=definition".

(** The request [getFlowDefinition flowId opts] sends, and what it
    resolves to: the definition upstream serves, [null] on any failure. *)
Definition definition_request (opts : Opts) (flowId : string) : Request :=
  get_request (definition_endpoint flowId) opts.

Definition served (env : Env) (opts : Opts) (flowId : string)
    : option FlowDefinition :=
  match sv_flow_definition (service env) (definition_request opts flowId) with
  | HttpOk d => Some d
  | _ => None
  end.

(** The batch-size decision of one pass on whole milliseconds: the burst
    limit and the requests made so far scaled by 1000. *)
Definition effective_ms (elapsedMs : Z) (totalRequests batchLength : nat)
    : nat :=
  let burstLimitMs := Z.min 30000 (3 * Z.max 1000 elapsedMs) in
  if (burstLimitMs <? 1000 * Z.of_nat (totalRequests + batchLength))%Z
     && (elapsedMs <? 10000)%Z
  then Z.to_nat (Z.max 1 ((burstLimitMs - 1000 * Z.of_nat totalRequests) / 1000))
  else if (10000 <=? elapsedMs)%Z then 1 else batchLength.

(** The world after a run of two passes that request [first] and then
    [second]: one clock reading at the start, three per pass, one at the
    end. *)
Definition after_two_passes (first second : list string) (opts : Opts)
    (w : World) : World :=
  let pass ids w :=
    tick (log_calls (definition_request opts <$> ids) (tick (tick w))) in
  tick (pass second (pass first (tick w))).

End Batches.
Export Batches.

(** ** Merged records *)

Module MergeSpec.

Definition channel_of (r : CampaignRow) : string :=
  cg_send_channel (cr_groupings r).

Definition message_id_of (stat : FlowRow) : string :=
  fg_flow_message_id (fr_groupings stat).

(** The keys [extractMessageDetails] writes. *)
Definition MESSAGE_FIELDS : list string := [
  "message_name"; "message_from_email"; "message_from_label";
  "message_subject_line"; "message_preview_text"; "message_template_id";
  "message_transactional"; "message_smart_sending_enabled" ].

(** The keys [extractExperimentDetails] may write. *)
Definition EXPERIMENT_FIELDS : list string := [
  "has_experiment"; "experiment_id"; "experiment_name"; "experiment_status";
  "experiment_winner_metric"; "experiment_variations" ].

Definition DETAIL_FIELDS : list string := MESSAGE_FIELDS ++ EXPERIMENT_FIELDS.

(** The keys every entry of the message-details lookup carries. *)
Definition ALWAYS_FIELDS : list string := MESSAGE_FIELDS ++ ["has_experiment"].

Definition entry_ok (d : doc) : Prop :=
  (∀ k, k ∈ ALWAYS_FIELDS → is_Some (d !! k))
  ∧ (∀ k, is_Some (d !! k) → k ∈ DETAIL_FIELDS).

Definition entries_ok (m : gmap string doc) : Prop :=
  map_Forall (λ _ d, entry_ok d) m.

End MergeSpec.
Export MergeSpec.

(** ** Access-controlled search *)

Module SearchSpec.

Definition required_of (options : SearchOptions) : string :=
  default VIEW_ANALYTICS (so_requiredPermission options).

Definition find_user (userId : string) (w : World) : option User :=
  List.find (λ u, String.eqb (user_id u) userId) (users w).

End SearchSpec.
Export SearchSpec.

(** ** Sequences of upserts on a keyed collection *)

Module Upserts.

Section Keyed.
Context {K : Type} `{EqDecision K}.
Variable key_of : doc → option K.

(** An upsert: the key its filter selects, the fields it sets, and the
    document its filter contributes when nothing matches. *)
Record upsert := { u_key : K; u_set : doc; u_base : doc }.

Definition has_key (k : K) (d : doc) : bool := bool_decide (key_of d = Some k).

Definition run_upsert (u : upsert) (coll : list doc) : list doc :=
  match update_first (has_key (u_key u)) (apply_set (u_set u)) coll with
  | Some coll' => coll'
  | None => coll ++ [apply_set (u_set u) (u_base u)]
  end.

Definition run_upserts (us : list upsert) (coll : list doc) : list doc :=
  foldl (λ c u, run_upsert u c) coll us.

(** The fields an upsert sets put the document under the upsert's key. *)
Definition carries (u : upsert) : Prop :=
  ∀ d, key_of (apply_set (u_set u) d) = Some (u_key u).

(** Same key, same filter document, and the second sets every field the
    first sets. *)
Definition aligned (u1 u2 : upsert) : Prop :=
  u_key u1 = u_key u2 ∧ u_base u1 = u_base u2
  ∧ dom (u_set u1) ⊆ dom (u_set u2).

Definition sets_for (k : K) (us : list upsert) : list doc :=
  u_set <$> filter (λ u, u_key u = k) us.

Definition others (k : K) (us : list upsert) : list upsert :=
  filter (λ u, u_key u ≠ k) us.

Definition union_of (sets : list doc) : doc :=
  foldl (λ acc s, s ∪ acc) ∅ sets.

Definition apply_sets (sets : list doc) (d : doc) : doc :=
  foldl (λ d s, apply_set s d) d sets.

End Keyed.

#[global] Instance scalar_eq_dec : EqDecision scalar.
Proof. solve_decision. Defined.

(** The key a document has for a list of paths: the scalars found there. *)
Definition key_at (paths : list (list string)) (d : doc)
    : option (list scalar) :=
  mapM (λ p, to_scalar (get_path d p)) paths.

Definition equality_filter (paths : list (list string)) (vals : list scalar)
    : Filter :=
  zip paths (Some <$> vals).

Definition as_upsert (paths : list (list string)) (vals : list scalar)
    (set : doc) : upsert :=
  {| u_key := vals; u_set := set;
     u_base := filter_doc (equality_filter paths vals) |}.

Definition CAMPAIGN_KEY : list (list string) :=
  [["store_id"]; ["groupings"; "campaign_id"]].

Definition FLOW_KEY : list (list string) :=
  [["store"]; ["flow_id"]; ["flow_message_id"]; ["send_channel"]].

Definition scalar_at (stat : doc) (path : list string) : scalar :=
  default (SStr "") (to_scalar (get_path stat path)).

(** The upsert [upsertCampaignStats] performs for one merged record. *)
Definition campaign_upsert (sid pid : string) (stat : doc) : upsert :=
  as_upsert CAMPAIGN_KEY
    [SOid sid; scalar_at stat ["groupings"; "campaign_id"]]
    (campaign_set stat sid pid).

(** The upsert [upsertFlowStats] performs for one merged record at [now]. *)
Definition flow_upsert (sid pid : string) (stat : doc) (now : Z) : upsert :=
  as_upsert FLOW_KEY
    [SOid sid; scalar_at stat ["flow_id"]; scalar_at stat ["flow_message_id"];
     scalar_at stat ["send_channel"]]
    (flow_set stat sid pid now).

Fixpoint flow_upserts (clk : nat → Z) (t : nat) (sid pid : string)
    (merged : list doc) : list upsert :=
  match merged with
  | [] => []
  | stat :: rest =>
      flow_upsert sid pid stat (clk t) :: flow_upserts clk (S t) sid pid rest
  end.

Definition keyed_campaign (stat : doc) : Prop :=
  ∃ g c, stat !! "groupings" = Some (VObj g)
         ∧ to_scalar (g !! "campaign_id") = Some c.

Definition keyed_flow (stat : doc) : Prop :=
  is_Some (to_scalar (stat !! "flow_id"))
  ∧ is_Some (to_scalar (stat !! "flow_message_id"))
  ∧ is_Some (to_scalar (stat !! "send_channel")).

(** A record is stored under a campaign key, or under a flow key: the
    fields the filters of the two [updateOne] calls compare. *)
Definition campaign_key_is (sid : string) (c : scalar) (d : doc) : Prop :=
  to_scalar (get_path d ["store_id"]) = Some (SOid sid)
  ∧ to_scalar (get_path d ["groupings"; "campaign_id"]) = Some c.

Definition flow_key_is (sid : string) (a b c : scalar) (d : doc) : Prop :=
  to_scalar (get_path d ["store"]) = Some (SOid sid)
  ∧ to_scalar (get_path d ["flow_id"]) = Some a
  ∧ to_scalar (get_path d ["flow_message_id"]) = Some b
  ∧ to_scalar (get_path d ["send_channel"]) = Some c.

#[global] Instance campaign_key_is_dec sid c d : Decision (campaign_key_is sid c d).
Proof. unfold campaign_key_is. apply _. Defined.

#[global] Instance flow_key_is_dec sid a b c d : Decision (flow_key_is sid a b c d).
Proof. unfold flow_key_is. apply _. Defined.

(** The [$set] documents of the two upsert loops, in the order of the
    merged records; the j-th flow record is stamped with the j-th reading
    of the clock from [t] on. *)
Definition campaign_sets (sid pid : string) (merged : list doc) : list doc :=
  (λ stat, <[ "store_public_id" := VStr pid ]> (<[ "store_id" := VOid sid ]> stat))
    <$> merged.

Definition flow_sets (clk : nat → Z) (t : nat) (sid pid : string)
    (merged : list doc) : list doc :=
  imap (λ j stat,
          <[ "last_updated" := VDate (clk (t + j)) ]>
            (<[ "store_public_id" := VStr pid ]> (<[ "store" := VOid sid ]> stat)))
       merged.

(** The value a field holds after the [$set] documents [sets] have been
    applied in turn to a record in which it held [old]: that of the last
    document that carries the field, and [old] when none does. *)
Definition written (sets : list doc) (f : string) (old : option value)
    : option value :=
  foldl (λ cur s, match s !! f with Some v => Some v | None => cur end) old sets.

End Upserts.
Export Upserts.

(** * Vocabulary of the further properties *)

(** The ids still to be visited: the array from the loop index on. *)
Definition queue_of (st : LoopState) : list string :=
  drop (ls_i st) (ls_flowIds st).

Module FlowRequests.

Definition flow_request (opts : Opts) (flowId : string) : Request :=
  get_request ("flows/" +:+ flowId) opts.

(** What a request for one flow resolves to once its failure is caught. *)
Definition flow_served {A} (view : Service → Request → Reply A) (env : Env)
    (opts : Opts) (flowId : string) : option A :=
  match view (service env) (flow_request opts flowId) with
  | HttpOk json => Some json
  | _ => None
  end.

End FlowRequests.
Export FlowRequests.

Module ReportPages.

(** The request [klaviyoPost endpoint payload opts] sends. *)
Definition post_request (endpoint : string) (payload : ReportPayload)
    (opts : Opts) : Request :=
  {| req_method := POST;
     req_url := if String.prefix "http" endpoint then endpoint
                else BASE_URL +:+ endpoint;
     req_headers := getKlaviyoHeaders (opt_apiKey opts);
     req_body := Some payload |}.

(** [ReportWalk reply url urls pages failure]: the chain of report pages
    from [url], as [Walk] is for collections. *)
Inductive ReportWalk {R} (reply : string → Reply (ReportPage R))
  : option string → list string → list (ReportPage R) → option error → Prop :=
| report_walk_end : ReportWalk reply None [] [] None
| report_walk_page u p urls pages failure :
    reply u = HttpOk p →
    ReportWalk reply (next_url (rpg_links p)) urls pages failure →
    ReportWalk reply (Some u) (u :: urls) (p :: pages) failure
| report_walk_not_ok u status text :
    reply u = HttpNotOk status text →
    ReportWalk reply (Some u) [u] [] (Some (KlaviyoApiError status text))
| report_walk_failed u msg :
    reply u = FetchFailed msg →
    ReportWalk reply (Some u) [u] [] (Some (FetchTypeError msg)).

Definition results_of {R} (p : ReportPage R) : list R :=
  default [] (page_results p).

Definition included_of {R} (p : ReportPage R) : list value :=
  default [] (rpg_included p).

(** What [klaviyoReportPost] gives back for a chain. *)
Definition reported {R} (pages : list (ReportPage R)) (failure : option error)
    : outcome (Report R) :=
  match failure, pages with
  | Some e, _ => Rejected e
  | None, [] =>
      Rejected (TypeError "Cannot read properties of null (reading 'data')")
  | None, first :: _ =>
      Fulfilled {| rep_data :=
                     with_results (rpg_data first) (concat (results_of <$> pages));
                   rep_included := concat (included_of <$> pages);
                   rep_links := rpg_links first |}
  end.

Definition extend_report {R} (st : ReportState R) (pages : list (ReportPage R))
    : ReportState R :=
  {| rs_allIncluded := rs_allIncluded st ++ concat (included_of <$> pages);
     rs_allResults := rs_allResults st ++ concat (results_of <$> pages);
     rs_firstResponse :=
       match rs_firstResponse st with
       | Some f => Some f
       | None => head pages
       end |}.

End ReportPages.
Export ReportPages.

(** Building the lookup is incremental: each step only inserts. *)
Definition inserts_only (f : gmap string doc → gmap string doc) : Prop :=
  ∀ m1 m2, f (m1 ∪ m2) = f m1 ∪ m2.

Module NameSpec.

(** [names] are non-empty names of items of [xs] whose ids are among
    [ids], at most one per id asked for. *)
Definition named_in (xs : list Named) (ids names : list string) : Prop :=
  length names ≤ length ids
  ∧ ∀ n, n ∈ names →
      n ≠ "" ∧ ∃ x, x ∈ xs ∧ named_id x ∈ ids
                    ∧ named_attributes x ≫= na_name = Some n.

(** The campaign the merge uses for an id: the last one listed under it,
    the sms campaigns coming after the email campaigns. *)
Definition campaign_for (campaigns smsCampaigns : list Campaign) (id : string)
    : option Campaign :=
  last (filter (λ c, campaign_id_ c = id) (campaigns ++ smsCampaigns)).

Definition flow_for (flows : list Flow) (id : string) : option Flow :=
  last (filter (λ f, flow_id_ f = id) flows).

End NameSpec.
Export NameSpec.

Module StoreSpec.

(** Rows [findByIdOrPublicIdAndUpdate id] does not look at under [_id]:
    the id is not an ObjectId, or no row has it. *)
Definition no_row_by_id (env : Env) (id : string) (coll : list Store) : Prop :=
  objectid_valid env id = false ∨ ∀ s, s ∈ coll → _id s ≠ id.

(** Everything but the store collection is the same in both worlds. *)
Definition same_but_stores (w w' : World) : Prop :=
  users w' = users w ∧ campaign_stats w' = campaign_stats w
  ∧ flow_stats w' = flow_stats w ∧ calls w' = calls w ∧ ticks w' = ticks w.

End StoreSpec.
Export StoreSpec.


Module SyncRun.

(** The row [findByIdOrPublicIdAndUpdate id] settles on: the first with
    that [_id] when the id is an ObjectId some row has, else the first
    with that [public_id]. *)
Definition found_row (env : Env) (id : string) (coll : list Store)
    : option Store :=
  if objectid_valid env id
     && bool_decide (is_Some (List.find (by_id id) coll))
  then List.find (by_id id) coll
  else List.find (by_public_id id) coll.

(** The update a sync writes to the account's row when it succeeds: the
    time, the names of the fetched tags, the flag cleared, and the dates of
    the flow report. *)
Definition success_update (now : Z) (tags : list Named)
    (dateTimes : list JsDate) : StoreUpdate :=
  {| upd_last_dashboard_sync := Some now;
     upd_tagNames :=
       Some (filter_Boolean ((λ tag, named_attributes tag ≫= na_name) <$> tags));
     upd_is_updating_dashboard := Some false;
     upd_flow_date_times := Some dateTimes |}.

End SyncRun.
Export SyncRun.

(** * Concrete scenarios *)

Module Scenario.

(** 2023-11-14T22:13:20Z in milliseconds. *)
Definition T0 : Z := 1700000000000.

Definition opts : Opts := {| opt_apiKey := Some "pk_live_key" |}.

Definition down {A} : Request → Reply A :=
  λ _, HttpNotOk 503 "Service Unavailable".

Definition one_page {A} (items : list A) : Page A :=
  {| pg_data := Some items; pg_included := None; pg_links := None |}.

Definition empty_report {R} : ReportPage R :=
  {| rpg_data :=
       Some {| rd_attributes :=
                 Some {| ra_results := Some []; ra_date_times := Some [] |} |};
     rpg_included := None;
     rpg_links := None |}.

(** A flow definition with a single plain message, told apart by [tag]. *)
Definition definition_at (tag : string) : FlowDefinition :=
  {| fd_data :=
       Some {| fdd_attributes :=
         Some {| fda_definition :=
           Some {| def_actions :=
             Some [ {| action_type := "send-email";
                       action_data :=
                         Some {| ad_message :=
                                   Some {| msg_id := Some tag;
                                           msg_name := Some "Welcome";
                                           msg_from_email := None;
                                           msg_from_label := None;
                                           msg_subject_line := Some "Hello";
                                           msg_preview_text := None;
                                           msg_template_id := None;
                                           msg_transactional := None;
                                           msg_smart_sending_enabled := None |};
                                 ad_main_action := None;
                                 ad_current_experiment := None;
                                 ad_experiment_status := None |} |} ] |} |} |} |}.

(** Every flow definition is served; nothing else is. *)
Definition definitions_service : Service :=
  {| sv_campaigns := down; sv_tags := down; sv_flows := down;
     sv_segments := down; sv_lists := down;
     sv_campaign_values := down; sv_flow_series := down;
     sv_flow_definition := λ r, HttpOk (definition_at (req_url r)) |}.

(** Everything is served with one empty page, except the tags. *)
Definition tags_down_service : Service :=
  {| sv_campaigns := λ _, HttpOk (one_page []);
     sv_tags := λ _, HttpNotOk 429 "throttled";
     sv_flows := λ _, HttpOk (one_page []);
     sv_segments := λ _, HttpOk (one_page []);
     sv_lists := λ _, HttpOk (one_page []);
     sv_campaign_values := λ _, HttpOk empty_report;
     sv_flow_series := λ _, HttpOk empty_report;
     sv_flow_definition := down |}.

(** Every page of campaigns links to a next page. *)
Definition endless_page : Page Campaign :=
  {| pg_data := Some [];
     pg_included := None;
     pg_links :=
       Some {| links_next :=
                 Some "https://a.klaviyo.com/api/campaigns?page%5Bcursor%5D=next" |} |}.

Definition endless_service : Service :=
  {| sv_campaigns := λ _, HttpOk endless_page;
     sv_tags := down; sv_flows := down; sv_segments := down; sv_lists := down;
     sv_campaign_values := down; sv_flow_series := down;
     sv_flow_definition := down |}.

Definition vip_tag : Named :=
  {| named_id := "t1"; named_attributes := Some {| na_name := Some "vip" |} |}.

(** The tags come in one page. *)
Definition tags_service : Service :=
  {| sv_campaigns := down; sv_tags := λ _, HttpOk (one_page [vip_tag]);
     sv_flows := down; sv_segments := down; sv_lists := down;
     sv_campaign_values := down; sv_flow_series := down;
     sv_flow_definition := down |}.

Definition gold_tag : Named :=
  {| named_id := "t2"; named_attributes := Some {| na_name := Some "gold" |} |}.

Definition second_tags_url : string :=
  "https://a.klaviyo.com/api/tags?page%5Bcursor%5D=2".

(** The tags come in two pages, the first linking to the second. *)
Definition first_tags_page : Page Named :=
  {| pg_data := Some [vip_tag]; pg_included := None;
     pg_links := Some {| links_next := Some second_tags_url |} |}.

Definition two_page_tags_service : Service :=
  {| sv_campaigns := down;
     sv_tags := λ r,
       if String.eqb (req_url r) "https://a.klaviyo.com/api/tags"
       then HttpOk first_tags_page
       else if String.eqb (req_url r) second_tags_url
            then HttpOk (one_page [gold_tag])
            else HttpNotOk 404 "Not Found";
     sv_flows := down; sv_segments := down; sv_lists := down;
     sv_campaign_values := down; sv_flow_series := down;
     sv_flow_definition := down |}.

Definition runtime (clk : nat → Z) (svc : Service) : Env :=
  {| clock := clk;
     iso := λ _, "2023-11-14T22:13:20.000Z";
     parse_date := λ _, None;
     service := svc;
     page_fuel := 8;
     settle_rank := id;
     objectid_valid := λ s, String.length s =? 24;
     regex_i := λ _, Some (λ _, true);
     sort_docs := λ _ l, l |}.

Definition empty_world : World :=
  {| stores := []; users := []; campaign_stats := []; flow_stats := [];
     calls := []; ticks := 0 |}.

(** Five flows; the first pass lasts 300 ms and the second starts one
    second after the start. *)
Definition five_flows : list string := ["f1"; "f2"; "f3"; "f4"; "f5"].

Definition burst_clock (n : nat) : Z :=
  (T0 + match n with
        | 0%nat | 1%nat | 2%nat => 0
        | 3%nat => 300
        | _ => 1000
        end)%Z.

Definition five_flows_env : Env := runtime burst_clock definitions_service.

(** An account synced at [T0], and the same account never synced. *)
Definition account : Store :=
  {| _id := "64b64c9f2f8fb814c8a3d111";
     public_id := "acme";
     name := "Acme";
     klaviyo_integration :=
       {| apiKey := Some "pk_live_key";
          conversion_metric_id := Some "METRIC";
          flow_date_times := [] |};
     last_dashboard_sync := Some T0;
     is_updating_dashboard := false;
     tagNames := ["vip"] |}.

Definition new_account : Store :=
  {| _id := "64b64c9f2f8fb814c8a3d222";
     public_id := "fresh";
     name := "Fresh";
     klaviyo_integration :=
       {| apiKey := Some "pk_live_key";
          conversion_metric_id := None;
          flow_date_times := [] |};
     last_dashboard_sync := None;
     is_updating_dashboard := false;
     tagNames := [] |}.

Definition viewer : User :=
  {| user_id := "64b64c9f2f8fb814c8a3daaa";
     email := "viewer@example.com";
     user_name := "Viewer";
     user_stores :=
       [ {| store_public_id := "acme"; store_id := "64b64c9f2f8fb814c8a3d111";
            permissions := Some ["VIEW_ANALYTICS"] |};
         {| store_public_id := "fresh"; store_id := "64b64c9f2f8fb814c8a3d222";
            permissions := Some ["MANAGE_CAMPAIGNS"] |} ] |}.

Definition campaign_doc (store_public campaign : string) : doc :=
  list_to_map [
    ("store_public_id", VStr store_public);
    ("campaign_name", VStr campaign);
    ("created_at", VDate T0) ].

(** A flow record stored by an earlier sync that had the message details. *)
Definition stored_flow_doc : doc :=
  list_to_map [
    ("store", VOid "64b64c9f2f8fb814c8a3d111");
    ("store_public_id", VStr "acme");
    ("flow_id", VStr "f2");
    ("flow_message_id", VStr "m2");
    ("send_channel", VStr "email");
    ("flow_name", VStr "Winback");
    ("message_name", VStr "Welcome");
    ("has_experiment", VBool false);
    ("last_updated", VDate T0) ].

Definition world : World :=
  {| stores := [account; new_account];
     users := [viewer];
     campaign_stats := [campaign_doc "acme" "Spring"; campaign_doc "fresh" "Launch"];
     flow_stats := [stored_flow_doc];
     calls := [];
     ticks := 0 |}.

(** Clocks reading thirty seconds and ten minutes after [T0]. *)
Definition soon (n : nat) : Z := (T0 + 30000 + Z.of_nat n)%Z.

Definition later (n : nat) : Z := (T0 + 600000 + 1000 * Z.of_nat n)%Z.

(** The row of the flow-series report for the stored flow record, whose
    definition is not in the lookup this time. *)
Definition flow_row : FlowRow :=
  {| fr_groupings :=
       {| fg_flow_id := "f2"; fg_flow_message_id := "m2";
          fg_send_channel := "email" |};
     fr_statistics := {[ "opens" := [1%Q; 2%Q] ]} |}.

(** A campaign row that carries one statistic only. *)
Definition email_row : CampaignRow :=
  {| cr_groupings :=
       {| cg_send_channel := "email"; cg_campaign_id := "c1";
          cg_campaign_message_id := "cm1" |};
     cr_statistics := Some {[ "opens" := 10%Q ]} |}.

Definition merged_email_row : doc := merge_campaign_row ∅ ∅ ∅ email_row.

(** How the eight fetches settle against [tags_down_service]. *)
Definition empty_collection {A} : Collection A :=
  {| col_data := []; col_included := []; col_links := None |}.

Definition empty_report_result {R} : Report R :=
  {| rep_data :=
       Some {| rd_attributes :=
                 Some {| ra_results := Some []; ra_date_times := Some [] |} |};
     rep_included := [];
     rep_links := None |}.

Definition settled_tags_down : Settled :=
  {| st_campaigns := Fulfilled empty_collection;
     st_smsCampaigns := Fulfilled empty_collection;
     st_tags := Rejected (KlaviyoApiError 429 "throttled");
     st_flows := Fulfilled empty_collection;
     st_segments := Fulfilled empty_collection;
     st_lists := Fulfilled empty_collection;
     st_campaignValuesReports := Fulfilled empty_report_result;
     st_flowSeriesReports := Fulfilled empty_report_result |}.

(** A campaign created between [T0] and the first of two syncs. *)
Definition spring_campaign : Campaign :=
  {| campaign_id_ := "c1";
     campaign_attributes :=
       Some {| ca_name := Some "Spring"; ca_audiences := None;
               ca_send_time := None;
               ca_created_at := Some "2023-11-14T22:20:00.000Z";
               ca_scheduled_at := None; ca_updated_at := None |};
     campaign_relationships := None |}.

Definition spring_report : ReportPage CampaignRow :=
  {| rpg_data :=
       Some {| rd_attributes :=
                 Some {| ra_results := Some [email_row]; ra_date_times := None |} |};
     rpg_included := None;
     rpg_links := None |}.

(** Upstream data that never change: the campaign list honours the
    [created_at] bound of the request, the campaign report has the row of
    the campaign whatever the request. *)
Definition spring_service : Service :=
  {| sv_campaigns := λ r,
       if String.eqb (req_url r)
            "https://a.klaviyo.com/api/campaigns?filter=equals(messages.channel,'email'),greater-or-equal(created_at,2023-11-14T22:13:20.000Z),equals(status,'Sent')&include=campaign-messages,tags"
       then HttpOk (one_page [spring_campaign])
       else HttpOk (one_page []);
     sv_tags := λ _, HttpOk (one_page []);
     sv_flows := λ _, HttpOk (one_page []);
     sv_segments := λ _, HttpOk (one_page []);
     sv_lists := λ _, HttpOk (one_page []);
     sv_campaign_values := λ _, HttpOk spring_report;
     sv_flow_series := λ _, HttpOk empty_report;
     sv_flow_definition := down |}.

(** The first six readings fall ten minutes after [T0], the later ones an
    hour after that. *)
Definition two_syncs_clock (n : nat) : Z :=
  (if (n <? 6)%nat then T0 + 600000 + 100 * Z.of_nat n
   else T0 + 4200000 + 100 * Z.of_nat n)%Z.

(** [toISOString] at the two instants that become a from-date; the text of
    any other instant reaches no reply here. *)
Definition iso_at (ms : Z) : string :=
  if (ms =? T0)%Z then "2023-11-14T22:13:20.000Z"
  else if (ms =? T0 + 600500)%Z then "2023-11-14T22:23:20.500Z"
  else "2023-11-14T23:23:20.000Z".

Definition two_syncs_env : Env :=
  {| clock := two_syncs_clock;
     iso := iso_at;
     parse_date := λ _, None;
     service := spring_service;
     page_fuel := 8;
     settle_rank := id;
     objectid_valid := λ s, String.length s =? 24;
     regex_i := λ _, Some (λ _, true);
     sort_docs := λ _ l, l |}.

Definition one_store_world : World :=
  {| stores := [account]; users := []; campaign_stats := []; flow_stats := [];
     calls := []; ticks := 0 |}.

(** The account as the first sync returns it. *)
Definition account_after_first_sync : Store :=
  {| _id := "64b64c9f2f8fb814c8a3d111";
     public_id := "acme";
     name := "Acme";
     klaviyo_integration :=
       {| apiKey := Some "pk_live_key";
          conversion_metric_id := Some "METRIC";
          flow_date_times := [] |};
     last_dashboard_sync := Some (T0 + 600500)%Z;
     is_updating_dashboard := false;
     tagNames := [] |}.

End Scenario.

(** * Further scenarios *)

Module Cases.

(** Upstream serves every flow but [f2]. *)
Definition flaky_service : Service :=
  {| sv_campaigns := Scenario.down; sv_tags := Scenario.down;
     sv_flows := Scenario.down; sv_segments := Scenario.down;
     sv_lists := Scenario.down; sv_campaign_values := Scenario.down;
     sv_flow_series := Scenario.down;
     sv_flow_definition := λ r,
       if String.eqb (req_url r) "https://a.klaviyo.com/api/flows/f2"
       then HttpNotOk 404 "Not Found"
       else HttpOk (Scenario.definition_at (req_url r)) |}.

Definition sms_row : CampaignRow :=
  {| cr_groupings :=
       {| cg_send_channel := "sms"; cg_campaign_id := "c2";
          cg_campaign_message_id := "cm2" |};
     cr_statistics := None |}.

Definition second_report_url : string :=
  "https://a.klaviyo.com/api/campaign-values-reports?page%5Bcursor%5D=2".

(** A report in two pages, the first linking to the second. *)
Definition first_report_page : ReportPage CampaignRow :=
  {| rpg_data :=
       Some {| rd_attributes :=
                 Some {| ra_results := Some [Scenario.email_row];
                         ra_date_times := None |} |};
     rpg_included := None;
     rpg_links := Some {| links_next := Some second_report_url |} |}.

Definition last_report_page : ReportPage CampaignRow :=
  {| rpg_data :=
       Some {| rd_attributes :=
                 Some {| ra_results := Some [sms_row]; ra_date_times := None |} |};
     rpg_included := None;
     rpg_links := None |}.

Definition two_page_report_service : Service :=
  {| sv_campaigns := Scenario.down; sv_tags := Scenario.down;
     sv_flows := Scenario.down; sv_segments := Scenario.down;
     sv_lists := Scenario.down;
     sv_campaign_values := λ r,
       if String.eqb (req_url r)
            "https://a.klaviyo.com/api/campaign-values-reports"
       then HttpOk first_report_page
       else if String.eqb (req_url r) second_report_url
            then HttpOk last_report_page
            else HttpNotOk 404 "Not Found";
     sv_flow_series := Scenario.down;
     sv_flow_definition := Scenario.down |}.

(** A campaign with a tag and audiences, and the items that name them. *)
Definition tagged_campaign : Campaign :=
  {| campaign_id_ := "c1";
     campaign_attributes :=
       Some {| ca_name := Some "Spring";
               ca_audiences :=
                 Some {| aud_included := Some ["s1"];
                         aud_excluded := Some ["l1"] |};
               ca_send_time := Some "2023-11-14T22:21:00.000Z";
               ca_created_at := Some "2023-11-14T22:20:00.000Z";
               ca_scheduled_at := None;
               ca_updated_at := None |};
     campaign_relationships :=
       Some {| rel_tags :=
                 Some {| tags_data := Some [ {| tagref_id := "t1" |} ] |} |} |}.

Definition buyers_segment : Named :=
  {| named_id := "s1"; named_attributes := Some {| na_name := Some "Buyers" |} |}.

Definition bounced_list : Named :=
  {| named_id := "l1"; named_attributes := Some {| na_name := Some "Bounced" |} |}.

Definition merged_tagged : doc :=
  hd ∅ (mergeCampaignStatsWithMeta [Scenario.email_row] [tagged_campaign] []
          [buyers_segment] [bounced_list] [Scenario.vip_tag]).

Definition winback_flow : Flow :=
  {| flow_id_ := "f2";
     flow_attributes :=
       Some {| fa_name := Some "Winback"; fa_status := Some "live";
               fa_archived := Some false; fa_created := None;
               fa_updated := None; fa_trigger_type := Some "Metric" |};
     flow_relationships :=
       Some {| rel_tags :=
                 Some {| tags_data := Some [ {| tagref_id := "t1" |} ] |} |} |}.

Definition first_page_of_two : SearchOptions :=
  {| so_limit := Some 1; so_skip := None; so_sort := None;
     so_dateRange := None; so_requiredPermission := None |}.

(** The example world with a second campaign record of the first store. *)
Definition two_campaigns_world : World :=
  {| stores := stores Scenario.world;
     users := users Scenario.world;
     campaign_stats :=
       [Scenario.campaign_doc "acme" "Spring";
        Scenario.campaign_doc "acme" "Summer";
        Scenario.campaign_doc "fresh" "Launch"];
     flow_stats := flow_stats Scenario.world;
     calls := [];
     ticks := 0 |}.

(** What the eight fetches of a sync bring back from
    [Scenario.spring_service] when asked for the campaigns since [T0]. *)
Definition spring_fetched : FanOut :=
  {| fo_campaigns :=
       {| col_data := [Scenario.spring_campaign]; col_included := [];
          col_links := None |};
     fo_smsCampaigns := Scenario.empty_collection;
     fo_tags := Scenario.empty_collection;
     fo_flows := Scenario.empty_collection;
     fo_segments := Scenario.empty_collection;
     fo_lists := Scenario.empty_collection;
     fo_campaignValuesReports :=
       {| rep_data :=
            Some {| rd_attributes :=
                      Some {| ra_results := Some [Scenario.email_row];
                              ra_date_times := None |} |};
          rep_included := [];
          rep_links := None |};
     fo_flowSeriesReports := Scenario.empty_report_result |}.

(** A request that carries its key in the Authorization header only. *)
Definition bearer_request : AuthRequest :=
  {| header_x_private_key := None;
     header_authorization := Some "Bearer s3cret";
     query_privateKey := None;
     request_body := Some ∅ |}.

End Cases.

(** * Properties *)

(** ** Running monadic code *)

Lemma bind_run {A B} (m : M A) (k : A → M B) env w :
  (m ≫= k) env w =
  match m env w with
  | (Fulfilled a, w') => k a env w'
  | (Rejected e, w') => (Rejected e, w')
  | (Pending, w') => (Pending, w')
  end.
Proof. reflexivity. Qed.

Lemma same_db_refl w : same_db w w.
Proof. by repeat split. Qed.

Lemma same_db_trans w1 w2 w3 : same_db w1 w2 → same_db w2 w3 → same_db w1 w3.
Proof. intros (?&?&?&?) (?&?&?&?). repeat split; congruence. Qed.

Lemma preserves_ret {A} (a : A) : preserves_db (mret a).
Proof. intros env w. apply same_db_refl. Qed.

Lemma preserves_bind {A B} (m : M A) (k : A → M B) :
  preserves_db m → (∀ a, preserves_db (k a)) → preserves_db (m ≫= k).
Proof.
  intros Hm Hk env w. rewrite bind_run. specialize (Hm env w).
  destruct (m env w) as [[a|e|] w']; simpl in *; auto.
  eapply same_db_trans; [exact Hm|]. apply Hk.
Qed.

Lemma preserves_throw {A} e : preserves_db (@throw A e).
Proof. intros env w. apply same_db_refl. Qed.

Lemma preserves_never {A} : preserves_db (@never A).
Proof. intros env w. apply same_db_refl. Qed.

Lemma preserves_ask : preserves_db ask.
Proof. intros env w. apply same_db_refl. Qed.

Lemma preserves_await {A} (o : outcome A) : preserves_db (await o).
Proof. intros env w. apply same_db_refl. Qed.

Lemma preserves_Date_now : preserves_db Date_now.
Proof. intros env w. by repeat split. Qed.

Lemma preserves_fetch {A} (view : Service → Request → Reply A) r :
  preserves_db (fetch view r).
Proof. intros env w. by repeat split. Qed.

Lemma preserves_settle {A} (m : M A) : preserves_db m → preserves_db (settle m).
Proof.
  intros Hm env w. specialize (Hm env w). unfold settle.
  destruct (m env w) as [o w']. exact Hm.
Qed.

Lemma preserves_try_catch {A} (m : M A) h :
  preserves_db m → (∀ e, preserves_db (h e)) → preserves_db (try_catch m h).
Proof.
  intros Hm Hh env w. unfold try_catch. specialize (Hm env w).
  destruct (m env w) as [[a|e|] w']; simpl in *; auto.
  eapply same_db_trans; [exact Hm|]. apply Hh.
Qed.

Create HintDb frame.
#[local] Hint Resolve preserves_ret preserves_throw preserves_never
  preserves_ask preserves_await preserves_Date_now preserves_fetch : frame.

Ltac frame_step :=
  first [ solve [auto with frame]
        | apply preserves_settle
        | apply preserves_try_catch; [|intros ?]
        | apply preserves_bind; [|intros ?] ].

Lemma fulfilled_bind {A B} (m : M A) (k : A → M B) :
  always_fulfilled m → (∀ a, always_fulfilled (k a)) →
  always_fulfilled (m ≫= k).
Proof.
  intros Hm Hk env w. rewrite bind_run. destruct (Hm env w) as [a Ha].
  destruct (m env w) as [o w']. simpl in Ha. subst o. apply Hk.
Qed.

Lemma fulfilled_settle {A} (m : M A) : always_fulfilled (settle m).
Proof. intros env w. unfold settle. destruct (m env w). eauto. Qed.

Lemma fulfilled_ret {A} (a : A) : always_fulfilled (mret a).
Proof. intros env w. eauto. Qed.

Lemma fulfilled_ask : always_fulfilled ask.
Proof. intros env w. eauto. Qed.

Lemma fulfilled_Date_now : always_fulfilled Date_now.
Proof. intros env w. eauto. Qed.

Lemma fulfilled_try_catch {A} (m : M A) h :
  (∀ env w, (m env w).1 ≠ Pending) → (∀ e, always_fulfilled (h e)) →
  always_fulfilled (try_catch m h).
Proof.
  intros Hm Hh env w. unfold try_catch. specialize (Hm env w).
  destruct (m env w) as [[a|e|] w']; simpl in *; [eauto|apply Hh|done].
Qed.

Ltac fulfilled_step :=
  first [ apply fulfilled_settle | apply fulfilled_ask | apply fulfilled_Date_now
        | apply fulfilled_ret | apply fulfilled_bind; [|intros ?] ].

(** Membership in a list of string literals. *)
Ltac elem_cases H :=
  repeat (apply elem_of_cons in H as [-> | H]);
  try (by apply elem_of_nil in H).

Ltac elem_decide := apply (bool_decide_unpack _); vm_compute; exact I.

(** ** The metadata merger *)

Lemma merged_statistics cm tm am r :
  merge_campaign_row cm tm am r !! "statistics"
  = Some (VObj (normalized_statistics r)).
Proof. reflexivity. Qed.

Lemma merged_groupings cm tm am r :
  merge_campaign_row cm tm am r !! "groupings"
  = Some (campaign_groupings_value (cr_groupings r)).
Proof. reflexivity. Qed.

Lemma merged_channel cm tm am r :
  get_path (merge_campaign_row cm tm am r) ["groupings"; "send_channel"]
  = Some (VStr (channel_of r)).
Proof. reflexivity. Qed.

Lemma default_statistics_lookup f :
  f ∈ STATISTICS_FIELDS → default_statistics !! f = Some (VNum 0%Q).
Proof.
  unfold STATISTICS_FIELDS. intros Hf.
  repeat (apply elem_of_cons in Hf as [-> | Hf]; [reflexivity|]).
  by apply elem_of_nil in Hf.
Qed.

Lemma normalized_statistics_lookup r f :
  f ∈ STATISTICS_FIELDS →
  normalized_statistics r !! f
  = Some (VNum (default 0%Q (cr_statistics r ≫= (.!! f)))).
Proof.
  intros Hf. unfold normalized_statistics.
  rewrite lookup_union, lookup_fmap, (default_statistics_lookup f Hf).
  destruct (cr_statistics r) as [s|]; simpl.
  - destruct (s !! f); reflexivity.
  - rewrite lookup_empty. reflexivity.
Qed.

Lemma merged_from_row results campaigns sms segments lists tags o :
  o ∈ mergeCampaignStatsWithMeta results campaigns sms segments lists tags →
  ∃ cm tm am r, o = merge_campaign_row cm tm am r ∧ r ∈ results
                ∧ email_or_sms r = true.
Proof.
  unfold mergeCampaignStatsWithMeta. intros Ho.
  apply list_elem_of_fmap in Ho as (r & -> & Hr).
  apply list_elem_of_In, filter_In in Hr as [Hr He].
  apply list_elem_of_In in Hr. eauto 10.
Qed.

(** C5. Every record the campaign merge produces comes from a row of the
    report and carries a statistics object in which each of the 27 fields
    named below (opens, clicks, deliveries, bounces, failures,
    unsubscribes, spam complaints, conversions, the revenue metrics and
    their rates) is present and is a number: the value upstream supplied
    for it, and 0 when the row omits it. *)
Theorem campaign_statistics_complete results campaigns sms segments lists tags o :
  o ∈ mergeCampaignStatsWithMeta results campaigns sms segments lists tags →
  ∃ r stats, r ∈ results
    ∧ o !! "groupings" = Some (campaign_groupings_value (cr_groupings r))
    ∧ o !! "statistics" = Some (VObj stats)
    ∧ ∀ f, f ∈ ["opens"; "open_rate"; "bounced"; "clicks"; "clicks_unique";
               "click_rate"; "delivered"; "bounced_or_failed";
               "bounced_or_failed_rate"; "delivery_rate"; "failed";
               "failed_rate"; "recipients"; "opens_unique"; "bounce_rate";
               "unsubscribe_rate"; "unsubscribe_uniques"; "unsubscribes";
               "spam_complaint_rate"; "spam_complaints"; "click_to_open_rate";
               "conversions"; "conversion_uniques"; "conversion_value";
               "conversion_rate"; "average_order_value";
               "revenue_per_recipient"] →
        stats !! f = Some (VNum (default 0%Q (cr_statistics r ≫= (.!! f)))).
Proof.
  intros Ho. apply merged_from_row in Ho as (cm & tm & am & r & -> & Hr & _).
  exists r, (normalized_statistics r). split; [done|].
  split; [apply merged_groupings|]. split; [apply merged_statistics|].
  intros f Hf. apply normalized_statistics_lookup. exact Hf.
Qed.

Lemma campaign_statistics_complete_witness :
  Scenario.merged_email_row
    ∈ mergeCampaignStatsWithMeta [Scenario.email_row] [] [] [] [] []
  ∧ ∃ r stats, r ∈ [Scenario.email_row]
      ∧ Scenario.merged_email_row !! "groupings"
        = Some (campaign_groupings_value (cr_groupings r))
      ∧ Scenario.merged_email_row !! "statistics" = Some (VObj stats)
      ∧ ∀ f, f ∈ ["opens"; "open_rate"; "bounced"; "clicks"; "clicks_unique";
               "click_rate"; "delivered"; "bounced_or_failed";
               "bounced_or_failed_rate"; "delivery_rate"; "failed";
               "failed_rate"; "recipients"; "opens_unique"; "bounce_rate";
               "unsubscribe_rate"; "unsubscribe_uniques"; "unsubscribes";
               "spam_complaint_rate"; "spam_complaints"; "click_to_open_rate";
               "conversions"; "conversion_uniques"; "conversion_value";
               "conversion_rate"; "average_order_value";
               "revenue_per_recipient"] →
          stats !! f = Some (VNum (default 0%Q (cr_statistics r ≫= (.!! f)))).
Proof.
  assert (H : Scenario.merged_email_row
              ∈ mergeCampaignStatsWithMeta [Scenario.email_row] [] [] [] [] []).
  { apply list_elem_of_here. }
  split; [exact H|].
  exact (campaign_statistics_complete _ _ _ _ _ _ _ H).
Defined.

Lemma email_or_sms_spec r :
  email_or_sms r = true ↔ channel_of r = "email" ∨ channel_of r = "sms".
Proof.
  unfold email_or_sms. fold (channel_of r).
  rewrite orb_true_iff, !String.eqb_eq. reflexivity.
Qed.

Lemma filter_email_or_sms results :
  List.filter email_or_sms results
  = filter (λ r, channel_of r = "email" ∨ channel_of r = "sms") results.
Proof.
  induction results as [|r results IH]; [done|]. cbn [List.filter].
  destruct (email_or_sms r) eqn:He.
  - rewrite filter_cons_True by (by apply email_or_sms_spec). by rewrite IH.
  - rewrite filter_cons_False; [done|]. intros Hc.
    apply email_or_sms_spec in Hc. congruence.
Qed.

Lemma merged_campaign_keys cm tm am r :
  get_path (merge_campaign_row cm tm am r) ["groupings"; "campaign_id"]
  = Some (VStr (cg_campaign_id (cr_groupings r)))
  ∧ get_path (merge_campaign_row cm tm am r) ["groupings"; "campaign_message_id"]
    = Some (VStr (cg_campaign_message_id (cr_groupings r))).
Proof. by split. Qed.

(** C6. The records the campaign merge produces correspond one to one, in
    order, to the rows whose send channel is "email" or "sms": each such
    row has its record, under the row's channel, campaign id and campaign
    message id; and no record comes from a row of any other channel. *)
Theorem campaign_merge_keeps_email_and_sms results campaigns sms segments lists tags :
  let merged :=
    mergeCampaignStatsWithMeta results campaigns sms segments lists tags in
  let kept :=
    filter (λ r, cg_send_channel (cr_groupings r) = "email"
                 ∨ cg_send_channel (cr_groupings r) = "sms") results in
  Forall2 (λ r o,
             get_path o ["groupings"; "send_channel"]
             = Some (VStr (cg_send_channel (cr_groupings r)))
             ∧ get_path o ["groupings"; "campaign_id"]
               = Some (VStr (cg_campaign_id (cr_groupings r)))
             ∧ get_path o ["groupings"; "campaign_message_id"]
               = Some (VStr (cg_campaign_message_id (cr_groupings r))))
          kept merged
  ∧ length merged = length kept
  ∧ (∀ o, o ∈ merged →
       get_path o ["groupings"; "send_channel"] = Some (VStr "email")
       ∨ get_path o ["groupings"; "send_channel"] = Some (VStr "sms"))
  ∧ (∀ r, r ∈ results → channel_of r ≠ "email" → channel_of r ≠ "sms" →
       ∀ o, o ∈ merged →
         get_path o ["groupings"; "send_channel"] ≠ Some (VStr (channel_of r))).
Proof.
  intros merged kept.
  assert (Hin : ∀ o, o ∈ merged →
                  ∃ r, get_path o ["groupings"; "send_channel"]
                       = Some (VStr (channel_of r))
                       ∧ email_or_sms r = true).
  { intros o Ho. apply merged_from_row in Ho as (cm & tm & am & r & -> & _ & He).
    exists r. split; [apply merged_channel|exact He]. }
  assert (Hmerged : ∃ cm tm am, merged = merge_campaign_row cm tm am <$> kept).
  { subst merged kept. unfold mergeCampaignStatsWithMeta.
    rewrite filter_email_or_sms. eauto. }
  destruct Hmerged as (cm & tm & am & Hmerged).
  split; [|split; [|split]].
  - rewrite Hmerged. apply Forall2_fmap_r, Forall_Forall2_diag, Forall_forall.
    intros r _. split; [apply merged_channel|apply merged_campaign_keys].
  - rewrite Hmerged. apply length_fmap.
  - intros o Ho. destruct (Hin o Ho) as (r & -> & He).
    apply email_or_sms_spec in He as [-> | ->]; auto.
  - intros r Hr Hne Hns o Ho. destruct (Hin o Ho) as (r' & -> & He).
    intros [= Heq]. apply email_or_sms_spec in He as [He | He]; congruence.
Qed.

Lemma dom_message m :
  dom (extractMessageDetails (Some m)) = list_to_set MESSAGE_FIELDS.
Proof. unfold extractMessageDetails. rewrite dom_list_to_map_L. reflexivity. Qed.

Lemma experiment_cases a :
  dom (extractExperimentDetails a) = {["has_experiment"]}
  ∨ dom (extractExperimentDetails a) = list_to_set EXPERIMENT_FIELDS.
Proof.
  unfold extractExperimentDetails.
  destruct (negb _); [left; apply dom_singleton_L|].
  destruct (action_data a) as [data|]; [|left; apply dom_singleton_L].
  destruct (ad_current_experiment data); [|left; apply dom_singleton_L].
  right. rewrite dom_list_to_map_L. reflexivity.
Qed.

Lemma entry_ok_details m a :
  entry_ok (details (extractMessageDetails (Some m)) (extractExperimentDetails a)).
Proof.
  unfold entry_ok, details. setoid_rewrite <- elem_of_dom.
  rewrite dom_union_L, dom_message.
  destruct (experiment_cases a) as [-> | ->].
  - replace ({["has_experiment"]} ∪ list_to_set MESSAGE_FIELDS : gset string)
      with (list_to_set ("has_experiment" :: MESSAGE_FIELDS) : gset string)
      by reflexivity.
    setoid_rewrite elem_of_list_to_set. split; intros k Hk.
    + unfold ALWAYS_FIELDS, MESSAGE_FIELDS in Hk. simpl app in Hk.
      elem_cases Hk; elem_decide.
    + unfold MESSAGE_FIELDS in Hk. elem_cases Hk; elem_decide.
  - rewrite <- list_to_set_app_L. setoid_rewrite elem_of_list_to_set.
    split; intros k Hk.
    + unfold ALWAYS_FIELDS, MESSAGE_FIELDS in Hk. simpl app in Hk.
      elem_cases Hk; elem_decide.
    + unfold EXPERIMENT_FIELDS, MESSAGE_FIELDS in Hk. simpl app in Hk.
      elem_cases Hk; elem_decide.
Qed.

Lemma truthy_id_Some m i : truthy_id m = Some i → ∃ msg, m = Some msg.
Proof. destruct m as [msg|]; [eauto|]. discriminate. Qed.

Lemma entries_ok_insert m i message a :
  entries_ok m → truthy_id message = Some i →
  entries_ok (<[ i := details (extractMessageDetails message)
                              (extractExperimentDetails a) ]> m).
Proof.
  intros Hm Hi. apply truthy_id_Some in Hi as [msg ->].
  apply map_Forall_insert_2; [apply entry_ok_details | exact Hm].
Qed.

Lemma entries_ok_add_variation a m v :
  entries_ok m → entries_ok (add_variation (extractExperimentDetails a) m v).
Proof.
  intros Hm. unfold add_variation.
  destruct (truthy_id (holder_message v)) as [i|] eqn:Hi; [|exact Hm].
  by apply entries_ok_insert.
Qed.

Lemma foldl_preserves {A B} (P : A → Prop) (f : A → B → A) (xs : list B) (a : A) :
  (∀ a x, P a → P (f a x)) → P a → P (foldl f a xs).
Proof.
  intros Hf. revert a. induction xs as [|x xs IH]; intros a Ha; simpl; auto.
Qed.

Lemma entries_ok_add_action m a : entries_ok m → entries_ok (add_action m a).
Proof.
  intros Hm. unfold add_action.
  set (m1 := match truthy_id (action_message a) with
             | Some _ => _ | None => _ end).
  assert (H1 : entries_ok m1).
  { subst m1. destruct (truthy_id (action_message a)) eqn:Hi; [|exact Hm].
    by apply entries_ok_insert. }
  clearbody m1.
  set (m2 := match (if is_ab_test a then truthy_id (main_action_message a)
                    else None) with
             | Some _ => _ | None => _ end).
  assert (H2 : entries_ok m2).
  { subst m2. destruct (is_ab_test a); [|exact H1].
    destruct (truthy_id (main_action_message a)) eqn:Hi; [|exact H1].
    by apply entries_ok_insert. }
  clearbody m2.
  destruct (if is_ab_test a then action_variations a else None); [|exact H2].
  apply foldl_preserves; [|exact H2].
  intros ? ?. apply entries_ok_add_variation.
Qed.

(** Every entry of the lookup carries the eight message fields and
    [has_experiment], and nothing outside the message and experiment
    fields. *)
Lemma entries_ok_build defs : entries_ok (buildMessageDetailsMap defs).
Proof.
  unfold buildMessageDetailsMap. apply foldl_preserves; [|apply map_Forall_empty].
  intros m d Hm. destruct (definition_actions d); [|exact Hm].
  apply foldl_preserves; [|exact Hm]. intros ? ?. apply entries_ok_add_action.
Qed.

Lemma base_lookup_detail fm tm stat k :
  k ∈ DETAIL_FIELDS → flow_base_record fm tm stat !! k = None.
Proof.
  unfold DETAIL_FIELDS, MESSAGE_FIELDS, EXPERIMENT_FIELDS. simpl app. intros Hk.
  repeat (apply elem_of_cons in Hk as [-> | Hk]; [reflexivity|]).
  by apply elem_of_nil in Hk.
Qed.

Lemma merged_flow_lookup_detail fm tm lookup stat k :
  k ∈ DETAIL_FIELDS →
  merge_flow_row fm tm lookup stat !! k
  = lookup !! message_id_of stat ≫= (.!! k).
Proof.
  intros Hk. unfold merge_flow_row. fold (message_id_of stat).
  rewrite lookup_union, (base_lookup_detail _ _ _ _ Hk).
  destruct (lookup !! message_id_of stat) as [d|]; simpl.
  - by destruct (d !! k).
  - by rewrite lookup_empty.
Qed.

Lemma merged_flow_lookup_base fm tm defs stat k :
  k ∉ DETAIL_FIELDS →
  merge_flow_row fm tm (buildMessageDetailsMap defs) stat !! k
  = flow_base_record fm tm stat !! k.
Proof.
  intros Hk. unfold merge_flow_row. apply lookup_union_r.
  destruct (buildMessageDetailsMap defs !! _) as [d|] eqn:Hl; simpl;
    [|apply lookup_empty].
  destruct (d !! k) eqn:Hdk; [|done]. exfalso. apply Hk.
  pose proof (entries_ok_build defs _ _ Hl) as [_ Hsub]. apply Hsub.
  by rewrite Hdk.
Qed.

(** C7. With the lookup built from the fetched definitions, the flow merge
    produces one record per raw row, in order, under that row's flow id,
    message id and channel.  On that record a message or experiment field
    has exactly the value the row's lookup entry gives it, so it is unset
    when the message id has no entry; and the eight message fields and
    [has_experiment] are present exactly when the message id has an entry. *)
Theorem flow_merge_one_record_per_row results flows tags defs :
  let lookup := buildMessageDetailsMap defs in
  let merged := mergeFlowStatsWithMeta results flows tags lookup in
  length merged = length results
  ∧ ∀ i stat, results !! i = Some stat →
      ∃ o, merged !! i = Some o
        ∧ o !! "flow_id" = Some (VStr (fg_flow_id (fr_groupings stat)))
        ∧ o !! "flow_message_id"
          = Some (VStr (fg_flow_message_id (fr_groupings stat)))
        ∧ o !! "send_channel"
          = Some (VStr (fg_send_channel (fr_groupings stat)))
        ∧ (∀ k, k ∈ DETAIL_FIELDS →
             o !! k = lookup !! message_id_of stat ≫= (.!! k))
        ∧ (∀ k, k ∈ ALWAYS_FIELDS →
             is_Some (o !! k) ↔ is_Some (lookup !! message_id_of stat)).
Proof.
  intros lookup merged. split.
  { subst merged. unfold mergeFlowStatsWithMeta. apply length_fmap. }
  intros i stat Hi. subst merged. unfold mergeFlowStatsWithMeta.
  rewrite list_lookup_fmap, Hi. simpl. eexists. split; [reflexivity|].
  subst lookup.
  split; [by rewrite merged_flow_lookup_base by elem_decide|].
  split; [by rewrite merged_flow_lookup_base by elem_decide|].
  split; [by rewrite merged_flow_lookup_base by elem_decide|].
  split; [intros k Hk; by apply merged_flow_lookup_detail|].
  intros k Hk. rewrite merged_flow_lookup_detail.
  2:{ unfold DETAIL_FIELDS. apply elem_of_app. unfold ALWAYS_FIELDS in Hk.
      apply elem_of_app in Hk as [Hk|Hk]; [by left|right].
      apply list_elem_of_singleton in Hk as ->. elem_decide. }
  destruct (buildMessageDetailsMap defs !! message_id_of stat) as [d|] eqn:Hl;
    simpl.
  - pose proof (entries_ok_build defs _ _ Hl) as [Hall _].
    split; [eauto|]. intros _. by apply Hall.
  - split; intros [? ?]; discriminate.
Qed.

(** ** The access-controlled search *)

Lemma admin_has_every_permission sa ps p :
  permissions sa = Some ps → ADMIN ∈ ps → hasPermission (Some sa) p = true.
Proof.
  intros Hps Ha. unfold hasPermission. rewrite Hps.
  by rewrite (bool_decide_eq_true_2 _ Ha).
Qed.

Lemma limit_to_subset {A} n (xs : list A) x : x ∈ limit_to n xs → x ∈ xs.
Proof.
  unfold limit_to. destruct (n =? 0); [done|]. intros H.
  apply list_elem_of_lookup in H as [i Hi].
  apply lookup_take_Some in Hi as [Hi _]. apply list_elem_of_lookup. eauto.
Qed.

Lemma drop_subset {A} n (xs : list A) x : x ∈ drop n xs → x ∈ xs.
Proof.
  intros H. apply list_elem_of_lookup in H as [i Hi]. rewrite lookup_drop in Hi.
  apply list_elem_of_lookup. eauto.
Qed.

Lemma satisfies_store ids text range d :
  satisfies ids text range d = true →
  ∃ s, d !! "store_public_id" = Some (VStr s) ∧ s ∈ ids.
Proof.
  unfold satisfies. intros Hsat.
  apply andb_true_iff in Hsat as [Hsat _].
  apply andb_true_iff in Hsat as [Hsat _]. unfold string_field in Hsat.
  destruct (d !! "store_public_id") as [[]|]; try discriminate.
  apply bool_decide_eq_true_1 in Hsat. eauto.
Qed.

Lemma accessible_store (user : User) required s :
  s ∈ store_public_id
        <$> List.filter (λ sa, hasPermission (Some sa) required)
                        (user_stores user) →
  ∃ sa, sa ∈ user_stores user ∧ hasPermission (Some sa) required = true
        ∧ s = store_public_id sa.
Proof.
  intros Hs. apply list_elem_of_fmap in Hs as (sa & -> & Hsa).
  apply list_elem_of_In, filter_In in Hsa as [Hsa Hp].
  apply list_elem_of_In in Hsa. eauto.
Qed.

Lemma hasPermission_iff storeAccess requiredPermission :
  hasPermission storeAccess requiredPermission = true
  ↔ ∃ sa ps, storeAccess = Some sa ∧ permissions sa = Some ps
             ∧ (requiredPermission ∈ ps ∨ "ADMIN" ∈ ps).
Proof.
  unfold hasPermission, ADMIN. destruct storeAccess as [s|].
  2:{ split; [done|]. by intros (? & ? & ? & _). }
  destruct (permissions s) as [ps|] eqn:Hps.
  2:{ split; [done|]. intros (? & ? & [= <-] & ? & _). congruence. }
  destruct (bool_decide ("ADMIN" ∈ ps)) eqn:Ha.
  - apply bool_decide_eq_true in Ha. split; [|done]. eauto 10.
  - apply bool_decide_eq_false in Ha. rewrite bool_decide_eq_true. split.
    + eauto 10.
    + intros (? & ? & [= <-] & Hps' & [?|?]); congruence.
Qed.

Lemma User_findById_run userId env w :
  User_findById userId env w
  = if objectid_valid env userId then (Fulfilled (find_user userId w), w)
    else (Rejected (CastError userId "_id"), w).
Proof.
  unfold User_findById. rewrite bind_run. cbn [ask].
  by destruct (objectid_valid env userId).
Qed.

(** C8, as the code has it.  Provided sorting returns documents of its
    input: every record the search returns carries the public id of a
    store whose grant in the user's document lists the required
    permission (VIEW_ANALYTICS unless the options name another) or ADMIN;
    for a user id that is the text of an ObjectId, an unknown user and a
    user none of whose grants lists either get the empty result with total
    0 as a fulfilled value, storage and upstream untouched; and for a user
    id that is not the text of an ObjectId the search rejects with the
    CastError of [User.findById]. *)
Theorem search_respects_permissions userId query options env w :
  (∀ spec l d, d ∈ sort_docs env spec l → d ∈ l) →
  let run := searchWithAccessControl userId query options env w in
  let required := default "VIEW_ANALYTICS" (so_requiredPermission options) in
  (∀ r w' d, run = (Fulfilled r, w') → d ∈ results r →
     ∃ user sa ps, find_user userId w = Some user ∧ sa ∈ user_stores user
       ∧ permissions sa = Some ps ∧ (required ∈ ps ∨ "ADMIN" ∈ ps)
       ∧ d !! "store_public_id" = Some (VStr (store_public_id sa)))
  ∧ (objectid_valid env userId = true →
     find_user userId w = None
     ∨ (∃ user, find_user userId w = Some user
          ∧ ∀ sa ps, sa ∈ user_stores user → permissions sa = Some ps →
              (required ∉ ps) ∧ ("ADMIN" ∉ ps)) →
     run = (Fulfilled {| results := []; total := 0 |}, w))
  ∧ (objectid_valid env userId = false →
     run = (Rejected (CastError userId "_id"), w)).
Proof.
  intros Hsort run required. subst run. unfold searchWithAccessControl.
  rewrite bind_run, User_findById_run.
  change (default VIEW_ANALYTICS (so_requiredPermission options)) with required.
  split; [|split].
  - intros r w' d Hrun Hd.
    destruct (objectid_valid env userId); [|discriminate].
    destruct (find_user userId w) as [user|] eqn:Hu.
    2:{ injection Hrun as <- <-. simpl in Hd. by apply elem_of_nil in Hd. }
    set (acc := List.filter _ (user_stores user)) in Hrun.
    destruct (length acc =? 0) eqn:Hlen.
    { injection Hrun as <- <-. simpl in Hd. by apply elem_of_nil in Hd. }
    rewrite bind_run in Hrun. simpl in Hrun.
    assert (Hfound : ∀ text,
      d ∈ limit_to (default 50 (so_limit options))
            (drop (default 0 (so_skip options))
               (sort_docs env (default [("created_at", (-1)%Z)] (so_sort options))
                  (List.filter
                     (satisfies (store_public_id <$> acc) text
                                (so_dateRange options))
                     (campaign_stats w)))) →
      ∃ user0 sa ps, Some user = Some user0 ∧ sa ∈ user_stores user0
        ∧ permissions sa = Some ps ∧ (required ∈ ps ∨ "ADMIN" ∈ ps)
        ∧ d !! "store_public_id" = Some (VStr (store_public_id sa))).
    { intros text Hin. apply limit_to_subset, drop_subset, Hsort in Hin.
      apply list_elem_of_In, filter_In in Hin as [_ Hsat].
      apply satisfies_store in Hsat as (s & Hd' & Hs).
      apply accessible_store in Hs as (sa & Hsa & Hp & ->).
      apply hasPermission_iff in Hp as (sa' & ps & [= <-] & Hps & Hin).
      eauto 10. }
    destruct (has_text query).
    + destruct (regex_i env (default "" query)); simpl in Hrun; [|discriminate].
      injection Hrun as <- <-. simpl in Hd. eapply Hfound, Hd.
    + simpl in Hrun. injection Hrun as <- <-. simpl in Hd. eapply Hfound, Hd.
  - intros -> [-> | (user & -> & Hnone)]; [reflexivity|].
    assert (Hnil : List.filter
              (λ storeAccess, hasPermission (Some storeAccess) required)
              (user_stores user) = []).
    { assert (Hall : ∀ sa, sa ∈ user_stores user →
                hasPermission (Some sa) required = false).
      { intros sa Hsa. apply not_true_is_false. intros Hp.
        apply hasPermission_iff in Hp as (sa' & ps & [= <-] & Hps & Hin).
        destruct (Hnone sa ps Hsa Hps) as [Hr Ha]. by destruct Hin. }
      induction (user_stores user) as [|sa l IH]; [done|]. cbn [List.filter].
      rewrite (Hall sa) by (by left). apply IH.
      - intros sa' ps Hsa'. apply Hnone. by right.
      - intros sa' Hsa'. apply Hall. by right. }
    rewrite Hnil. reflexivity.
  - by intros ->.
Qed.

Lemma search_respects_permissions_witness :
  (∀ spec l d,
     d ∈ sort_docs (Scenario.runtime Scenario.soon Scenario.tags_service) spec l →
     d ∈ l)
  ∧ (let env := Scenario.runtime Scenario.soon Scenario.tags_service in
    let options :=
      {| so_limit := None; so_skip := None; so_sort := None;
         so_dateRange := None; so_requiredPermission := None |} in
    let userId := "64b64c9f2f8fb814c8a3daaa" in
    let run :=
      searchWithAccessControl userId (Some "spring") options env Scenario.world in
    let required := default "VIEW_ANALYTICS" (so_requiredPermission options) in
    (∀ r w' d, run = (Fulfilled r, w') → d ∈ results r →
       ∃ user sa ps, find_user userId Scenario.world = Some user
         ∧ sa ∈ user_stores user
         ∧ permissions sa = Some ps ∧ (required ∈ ps ∨ "ADMIN" ∈ ps)
         ∧ d !! "store_public_id" = Some (VStr (store_public_id sa)))
    ∧ (objectid_valid env userId = true →
       find_user userId Scenario.world = None
       ∨ (∃ user, find_user userId Scenario.world = Some user
            ∧ ∀ sa ps, sa ∈ user_stores user → permissions sa = Some ps →
                (required ∉ ps) ∧ ("ADMIN" ∉ ps)) →
       run = (Fulfilled {| results := []; total := 0 |}, Scenario.world))
    ∧ (objectid_valid env userId = false →
       run = (Rejected (CastError userId "_id"), Scenario.world)))
  ∧ (let run :=
       searchWithAccessControl "64b64c9f2f8fb814c8a3daaa" (Some "spring")
         {| so_limit := None; so_skip := None; so_sort := None;
            so_dateRange := None; so_requiredPermission := None |}
         (Scenario.runtime Scenario.soon Scenario.tags_service) Scenario.world in
     match run.1 with
     | Fulfilled r => (.!! "store_public_id") <$> results r
     | _ => []
     end = [Some (VStr "acme")]).
Proof.
  assert (Hsort : ∀ spec l d,
    d ∈ sort_docs (Scenario.runtime Scenario.soon Scenario.tags_service) spec l →
    d ∈ l).
  { intros spec l d Hd. exact Hd. }
  split; [exact Hsort|]. split; [|reflexivity].
  exact (search_respects_permissions "64b64c9f2f8fb814c8a3daaa" (Some "spring")
           {| so_limit := None; so_skip := None; so_sort := None;
              so_dateRange := None; so_requiredPermission := None |}
           (Scenario.runtime Scenario.soon Scenario.tags_service)
           Scenario.world Hsort).
Defined.

(** C8, as stated, fails on "never an error": the user id [guest] names
    no user, and it is not the text of an ObjectId, so [User.findById]
    rejects with a CastError and the search with it, where the claim
    promises the empty result. *)
Lemma search_rejects_malformed_user_id :
  let env := Scenario.runtime Scenario.soon Scenario.tags_service in
  let options :=
    {| so_limit := None; so_skip := None; so_sort := None;
       so_dateRange := None; so_requiredPermission := None |} in
  find_user "guest" Scenario.world = None
  ∧ objectid_valid env "guest" = false
  ∧ searchWithAccessControl "guest" None options env Scenario.world
    = (Rejected (CastError "guest" "_id"), Scenario.world)
  ∧ searchWithAccessControl "guest" None options env Scenario.world
    ≠ (Fulfilled {| results := []; total := 0 |}, Scenario.world).
Proof. by repeat split. Qed.

(** ** The page-following client *)

Lemma klaviyoGet_run {A} (view : Service → Request → Reply (Page A)) u opts env w :
  klaviyoGet view u opts env w =
  (match view (service env) (get_request u opts) with
   | HttpOk json => Fulfilled json
   | HttpNotOk status text => Rejected (KlaviyoApiError status text)
   | FetchFailed msg => Rejected (FetchTypeError msg)
   end, log_call (get_request u opts) w).
Proof.
  unfold klaviyoGet, klaviyoRequest. rewrite bind_run. cbn [fetch].
  fold (get_request u opts). by destruct (view _ _).
Qed.

Lemma log_calls_cons r rs w : log_calls (r :: rs) w = log_calls rs (log_call r w).
Proof. reflexivity. Qed.

Lemma klaviyoGetAll_loop_walk {A} (view : Service → Request → Reply (Page A))
    opts env url urls pages failure :
  Walk (λ u, view (service env) (get_request u opts)) url urls pages failure →
  ∀ fuel st w, length urls ≤ fuel →
    klaviyoGetAll_loop view opts fuel url st env w =
    (match failure with
     | None => Fulfilled (extend st pages)
     | Some e => Rejected e
     end, log_calls ((λ u, get_request u opts) <$> urls) w).
Proof.
  induction 1 as [|u p urls pages failure Hu Hwalk IH|u status text Hu|u msg Hu];
    intros fuel st w Hfuel.
  - destruct fuel; simpl; unfold extend; simpl; rewrite !app_nil_r;
      destruct st as [? ? [?|]]; reflexivity.
  - destruct fuel as [|fuel]; [simpl in Hfuel; lia|]. simpl in Hfuel.
    cbn [klaviyoGetAll_loop]. rewrite bind_run, klaviyoGet_run, Hu.
    rewrite IH by lia. rewrite fmap_cons, log_calls_cons. f_equal.
    destruct failure; [done|]. f_equal.
    unfold extend, page_data, page_included.
    cbn [gs_allData gs_allIncluded gs_firstResponse].
    rewrite !fmap_cons. cbn [concat head].
    destruct p as [[d|] [i|] l]; cbn [pg_data pg_included default];
      rewrite <- ?(assoc_L (++)); cbn [app];
      destruct (gs_firstResponse st); reflexivity.
  - destruct fuel as [|fuel]; [simpl in Hfuel; lia|].
    cbn [klaviyoGetAll_loop]. by rewrite bind_run, klaviyoGet_run, Hu.
  - destruct fuel as [|fuel]; [simpl in Hfuel; lia|].
    cbn [klaviyoGetAll_loop]. by rewrite bind_run, klaviyoGet_run, Hu.
Qed.

Lemma klaviyoGetAll_run_finite {A}
    (view : Service → Request → Reply (Page A))
    endpoint opts env urls pages failure fuel w :
  Walk (λ u, view (service env) (get_request u opts))
       (start endpoint) urls pages failure →
  length urls ≤ fuel →
  klaviyoGetAll_fuel view fuel endpoint opts env w =
  (collected pages failure, log_calls ((λ u, get_request u opts) <$> urls) w).
Proof.
  intros Hwalk Hfuel. unfold klaviyoGetAll_fuel. rewrite bind_run.
  fold (start endpoint).
  rewrite (klaviyoGetAll_loop_walk view opts env _ _ _ _ Hwalk) by done.
  unfold collected. destruct failure as [e|]; [done|].
  unfold extend. cbn [gs_firstResponse gs_allData gs_allIncluded app].
  destruct pages; reflexivity.
Qed.

Lemma Endless_next {A} (reply : string → Reply (Page A)) u p :
  reply u = HttpOk p → Endless reply (Some u) →
  Endless reply (next_url (pg_links p)).
Proof.
  intros Hu Hend n. specialize (Hend (S n)). cbn [url_after] in Hend.
  by rewrite Hu in Hend.
Qed.

(** On a chain that never ends the loop uses up any number of passes it
    is given, one request per pass, and is still running. *)
Lemma klaviyoGetAll_loop_endless {A}
    (view : Service → Request → Reply (Page A)) opts env :
  ∀ fuel url st w,
    Endless (λ u, view (service env) (get_request u opts)) url →
    ∃ w', klaviyoGetAll_loop view opts fuel url st env w = (Pending, w')
      ∧ length (calls w') = length (calls w) + fuel.
Proof.
  induction fuel as [|fuel IH]; intros url st w Hend;
    destruct (Hend 0) as (u & p & Hurl & Hu); cbn [url_after] in Hurl;
    subst url; cbn [klaviyoGetAll_loop].
  - exists w. split; [reflexivity|lia].
  - rewrite bind_run, klaviyoGet_run, Hu.
    destruct (IH (next_url (pg_links p))
                 {| gs_allData :=
                      match pg_data p with
                      | Some d => gs_allData st ++ d
                      | None => gs_allData st
                      end;
                    gs_allIncluded :=
                      match pg_included p with
                      | Some d => gs_allIncluded st ++ d
                      | None => gs_allIncluded st
                      end;
                    gs_firstResponse :=
                      match gs_firstResponse st with
                      | Some f => Some f
                      | None => Some p
                      end |}
                 (log_call (get_request u opts) w))
      as (w' & Hrun & Hlen); [by eapply Endless_next|].
    exists w'. split.
    + rewrite <- Hrun. by destruct (gs_firstResponse st).
    + rewrite Hlen. cbn [log_call calls]. rewrite length_app. simpl. lia.
Qed.

(** C9, as the code has it.  The loop has no cap of its own, it follows
    the next links.  When the chain of next links from the endpoint ends
    after finitely many requests, at a page without a next link or at a
    failing request, then with room for that many requests
    [klaviyoGetAll] settles, having sent exactly those requests, with the
    concatenated pages or with the failure.  When the next links never
    terminate it does not terminate: whatever number of passes it is
    allowed, it has made that many requests and has not settled. *)
Theorem klaviyoGetAll_follows_next_links {A}
    (view : Service → Request → Reply (Page A)) endpoint opts env w :
  let reply := λ u, view (service env) (get_request u opts) in
  (∀ urls pages failure fuel,
     Walk reply (start endpoint) urls pages failure → length urls ≤ fuel →
     klaviyoGetAll_fuel view fuel endpoint opts env w =
     (collected pages failure,
      log_calls ((λ u, get_request u opts) <$> urls) w))
  ∧ (Endless reply (start endpoint) →
     ∀ fuel,
       let run := klaviyoGetAll_fuel view fuel endpoint opts env w in
       run.1 = Pending ∧ length (calls run.2) = length (calls w) + fuel).
Proof.
  intros reply. split.
  - intros urls pages failure fuel. apply klaviyoGetAll_run_finite.
  - intros Hend fuel. cbv zeta. unfold klaviyoGetAll_fuel. rewrite bind_run.
    fold (start endpoint).
    destruct (klaviyoGetAll_loop_endless view opts env fuel (start endpoint)
                {| gs_allData := []; gs_allIncluded := [];
                   gs_firstResponse := None |} w Hend)
      as (w' & -> & Hlen).
    by split.
Qed.

Lemma endless_service_url_after n : ∀ u,
  is_Some (url_after
             (λ u, sv_campaigns
                     (service (Scenario.runtime Scenario.soon Scenario.endless_service))
                     (get_request u Scenario.opts))
             n (Some u)).
Proof.
  induction n as [|n IH]; intros u; [by eexists|].
  cbn [url_after Scenario.runtime service Scenario.endless_service sv_campaigns].
  apply IH.
Qed.

Lemma endless_service_Endless :
  Endless (λ u, sv_campaigns
                  (service (Scenario.runtime Scenario.soon Scenario.endless_service))
                  (get_request u Scenario.opts))
          (start "campaigns").
Proof.
  intros n. destruct (endless_service_url_after n "campaigns") as [u Hu].
  exists u, Scenario.endless_page. split; [exact Hu|reflexivity].
Qed.

(** A chain of two pages, the first linking to the second; and a service
    whose every page links to a next one. *)
Lemma klaviyoGetAll_follows_next_links_witness :
  (let env := Scenario.runtime Scenario.soon Scenario.two_page_tags_service in
   let urls := ["tags"; Scenario.second_tags_url] in
   let pages := [Scenario.first_tags_page; Scenario.one_page [Scenario.gold_tag]] in
   Walk (λ u, sv_tags (service env) (get_request u Scenario.opts))
        (start "tags") urls pages None
   ∧ length urls ≤ 8
   ∧ klaviyoGetAll_fuel sv_tags 8 "tags" Scenario.opts env Scenario.world =
     (collected pages None,
      log_calls ((λ u, get_request u Scenario.opts) <$> urls) Scenario.world)
   ∧ collected pages None
     = Fulfilled {| col_data := [Scenario.vip_tag; Scenario.gold_tag];
                    col_included := [];
                    col_links :=
                      Some {| links_next := Some Scenario.second_tags_url |} |})
  ∧ (let env := Scenario.runtime Scenario.soon Scenario.endless_service in
     Endless (λ u, sv_campaigns (service env) (get_request u Scenario.opts))
             (start "campaigns")
     ∧ ∀ fuel,
         let run :=
           klaviyoGetAll_fuel sv_campaigns fuel "campaigns" Scenario.opts env
             Scenario.empty_world in
         run.1 = Pending ∧ length (calls run.2) = fuel).
Proof.
  split.
  - intros env urls pages.
    assert (Hwalk :
      Walk (λ u, sv_tags (service env) (get_request u Scenario.opts))
           (start "tags") urls pages None).
    { apply (walk_page _ "tags" Scenario.first_tags_page
               [Scenario.second_tags_url] [Scenario.one_page [Scenario.gold_tag]]
               None); [reflexivity|].
      apply (walk_page _ Scenario.second_tags_url
               (Scenario.one_page [Scenario.gold_tag]) [] [] None);
        [reflexivity|apply walk_end]. }
    assert (Hlen : length urls ≤ 8) by (simpl; lia).
    split; [exact Hwalk|]. split; [exact Hlen|]. split; [|reflexivity].
    exact (proj1 (klaviyoGetAll_follows_next_links sv_tags "tags" Scenario.opts
                    env Scenario.world) urls pages None 8 Hwalk Hlen).
  - intros env. split; [exact endless_service_Endless|].
    intros fuel.
    exact (proj2 (klaviyoGetAll_follows_next_links sv_campaigns "campaigns"
                    Scenario.opts env Scenario.empty_world)
             endless_service_Endless fuel).
Defined.

Lemma endless_loop_pending fuel : ∀ u st w,
  (klaviyoGetAll_loop sv_campaigns Scenario.opts fuel (Some u) st
     (Scenario.runtime Scenario.soon Scenario.endless_service) w).1 = Pending.
Proof.
  induction fuel as [|fuel IH]; intros u st w; [reflexivity|].
  cbn [klaviyoGetAll_loop]. rewrite bind_run, klaviyoGet_run.
  cbn [Scenario.runtime service Scenario.endless_service sv_campaigns].
  apply IH.
Qed.

(** C9, as stated, fails: against a service whose every page links to a
    next page no bound on the number of pages makes [klaviyoGetAll] settle,
    neither with a value nor with an error. *)
Lemma klaviyoGetAll_never_settles_on_endless_links :
  ¬ ∃ fuel,
      (klaviyoGetAll_fuel sv_campaigns fuel "campaigns" Scenario.opts
         (Scenario.runtime Scenario.soon Scenario.endless_service)
         Scenario.empty_world).1 ≠ Pending.
Proof.
  intros [fuel Hsettles]. apply Hsettles. unfold klaviyoGetAll_fuel.
  rewrite bind_run.
  pose proof (endless_loop_pending fuel "campaigns"
                {| gs_allData := []; gs_allIncluded := [];
                   gs_firstResponse := None |} Scenario.empty_world) as Hp.
  change (if truthy "campaigns" then Some "campaigns" else None)
    with (Some "campaigns").
  destruct (klaviyoGetAll_loop _ _ _ _ _ _ _) as [o w']. simpl in Hp.
  by subst o.
Qed.

(** ** The rate-limited fetcher of flow definitions *)

Lemma klaviyoRequest_settles {A} (view : Service → Request → Reply A)
    m ep opts payload env w :
  (klaviyoRequest view m ep opts payload env w).1 ≠ Pending.
Proof.
  unfold klaviyoRequest. rewrite bind_run. cbn [fetch].
  by destruct (view _ _).
Qed.

Lemma fulfilled_getFlowDefinition flowId opts :
  always_fulfilled (getFlowDefinition flowId opts).
Proof.
  unfold getFlowDefinition. apply fulfilled_try_catch; [|intros ?; fulfilled_step].
  intros env w. rewrite bind_run.
  pose proof (klaviyoRequest_settles sv_flow_definition GET
                ("flows/" +:+ flowId +:+ "?additional-fields[flow]=definition")
                opts None env w) as Hs.
  unfold klaviyoGet. by destruct (klaviyoRequest _ _ _ _ _ _ _) as [[?|?|] ?].
Qed.

Lemma fulfilled_map_all {A B} (f : A → M B) xs :
  (∀ x, always_fulfilled (f x)) → always_fulfilled (map_all f xs).
Proof.
  intros Hf. induction xs as [|x xs IH]; [apply fulfilled_ret|].
  cbn [map_all]. apply (fulfilled_bind (f x)); [apply Hf|]. intros y.
  apply (fulfilled_bind (map_all f xs)); [apply IH|]. intros ys.
  apply fulfilled_ret.
Qed.

Lemma effectiveBatchSize_pos elapsedMs total batchLength :
  1 ≤ batchLength → 1 ≤ effectiveBatchSize elapsedMs total batchLength.
Proof.
  intros Hb. unfold effectiveBatchSize.
  destruct (_ && _); [lia|]. destruct (Qle_bool _ _); lia.
Qed.

Lemma length_slice {A} (xs : list A) from to :
  length (slice xs from to) = (to - from) `min` (length xs - from).
Proof. unfold slice. by rewrite length_take, length_drop. Qed.

Lemma length_splice_insert {A} (xs ins : list A) at_ :
  at_ ≤ length xs → length (splice_insert xs at_ ins) = length xs + length ins.
Proof.
  intros Hat. unfold splice_insert.
  rewrite !length_app, length_take, length_drop. lia.
Qed.

(** One pass settles and brings the index strictly closer to the end of
    the (possibly lengthened) array. *)
Lemma getFlowDefinitions_step_settles batchSize opts startTime st env w :
  1 ≤ batchSize → ls_i st < length (ls_flowIds st) →
  ∃ st' w', getFlowDefinitions_step batchSize opts startTime st env w
            = (Fulfilled st', w')
    ∧ length (ls_flowIds st') - ls_i st'
      < length (ls_flowIds st) - ls_i st.
Proof.
  intros Hb Hi. unfold getFlowDefinitions_step.
  rewrite bind_run. cbn [Date_now]. rewrite bind_run. cbn [Date_now].
  rewrite bind_run.
  set (batch := slice (ls_flowIds st) (ls_i st) (ls_i st + batchSize)).
  set (eff := effectiveBatchSize _ _ _).
  match goal with |- context [map_all ?f ?xs env ?w1] =>
    destruct (fulfilled_map_all f xs) with (env := env) (w := w1) as [rs Hrs];
    [ intros x; apply fulfilled_try_catch;
      [ intros env' w'; destruct (fulfilled_getFlowDefinition x opts env' w') as [a Ha];
        by rewrite Ha
      | intros ?; fulfilled_step ]
    | destruct (map_all f xs env w1) as [o w2]; cbn [fst] in Hrs; subst o ]
  end.
  rewrite bind_run. cbn [Date_now]. eexists _, _. split; [reflexivity|].
  cbn [ls_flowIds ls_i].
  assert (Hlen : length batch = batchSize `min` (length (ls_flowIds st) - ls_i st)).
  { subst batch. rewrite length_slice. f_equal. lia. }
  assert (Heff : 1 ≤ eff).
  { subst eff. apply effectiveBatchSize_pos. lia. }
  destruct (Nat.ltb_spec eff (length batch)) as [Hlt|Hge]; [|lia].
  rewrite length_splice_insert by lia. rewrite length_drop. lia.
Qed.

(** With a positive batch size the loop settles within the passes the
    definition of [getFlowDefinitions] allows it. *)
Lemma getFlowDefinitions_loop_settles batchSize opts startTime env :
  1 ≤ batchSize →
  ∀ fuel st w, length (ls_flowIds st) - ls_i st ≤ fuel →
    ∃ rs w', getFlowDefinitions_loop fuel batchSize opts startTime st env w
             = (Fulfilled rs, w').
Proof.
  intros Hb. induction fuel as [|fuel IH]; intros st w Hfuel.
  - cbn [getFlowDefinitions_loop].
    destruct (Nat.ltb_spec (ls_i st) (length (ls_flowIds st))); [lia|]. eauto.
  - cbn [getFlowDefinitions_loop].
    destruct (Nat.ltb_spec (ls_i st) (length (ls_flowIds st))) as [Hi|Hi]; [|eauto].
    rewrite bind_run.
    destruct (getFlowDefinitions_step_settles batchSize opts startTime st env w Hb Hi)
      as (st' & w' & -> & Hlt).
    apply IH. lia.
Qed.

Lemma getFlowDefinitions_settles flowIds opts env w :
  ∃ rs w', getFlowDefinitions flowIds opts no_options env w = (Fulfilled rs, w').
Proof.
  unfold getFlowDefinitions. rewrite bind_run. cbn [Date_now]. rewrite bind_run.
  cbn [no_options maxBurst default].
  edestruct (getFlowDefinitions_loop_settles 3 opts) as (rs & w' & ->); [lia| |].
  { cbn [ls_flowIds ls_i]. lia. }
  rewrite bind_run. cbn [Date_now]. eauto.
Qed.

(** *** The two passes over five ids

    What one request, one batch and one pass of the loop do, written as
    equations on the run. *)

Lemma getFlowDefinition_run flowId opts env w :
  getFlowDefinition flowId opts env w
  = (Fulfilled (served env opts flowId),
     log_call (definition_request opts flowId) w).
Proof.
  unfold getFlowDefinition, try_catch, klaviyoGet, klaviyoRequest, served.
  rewrite !bind_run. cbn [fetch]. fold (definition_endpoint flowId).
  fold (get_request (definition_endpoint flowId) opts).
  fold (definition_request opts flowId).
  by destruct (sv_flow_definition _ _).
Qed.

Lemma fetch_batch_run opts env : ∀ ids w,
  map_all (λ flowId, try_catch (getFlowDefinition flowId opts) (λ _, ret None))
    ids env w
  = (Fulfilled (served env opts <$> ids),
     log_calls (definition_request opts <$> ids) w).
Proof.
  induction ids as [|i ids IH]; intros w; [reflexivity|].
  cbn [map_all]. unfold bind at 1. unfold try_catch at 1.
  rewrite getFlowDefinition_run. unfold bind. rewrite IH. reflexivity.
Qed.

Lemma log_calls_fields rs : ∀ w,
  ticks (log_calls rs w) = ticks w ∧ calls (log_calls rs w) = calls w ++ rs.
Proof.
  induction rs as [|r rs IH]; intros w.
  - split; [done|]. by rewrite app_nil_r.
  - rewrite log_calls_cons. destruct (IH (log_call r w)) as [-> ->].
    split; [done|]. cbn [log_call calls]. by rewrite <- app_assoc.
Qed.

Lemma getFlowDefinitions_step_run batchSize opts startTime st env w :
  let batch := slice (ls_flowIds st) (ls_i st) (ls_i st + batchSize) in
  let effective :=
    effectiveBatchSize (clock env (S (ticks w)) - startTime)
      (ls_totalRequests st) (length batch) in
  let actualBatch := slice batch 0 effective in
  getFlowDefinitions_step batchSize opts startTime st env w
  = (Fulfilled
       {| ls_flowIds :=
            if effective <? length batch
            then splice_insert (ls_flowIds st) (ls_i st + effective)
                   (drop effective batch)
            else ls_flowIds st;
          ls_i := ls_i st + batchSize;
          ls_totalRequests := ls_totalRequests st + length actualBatch;
          ls_results := ls_results st ++ omap id (served env opts <$> actualBatch) |},
     tick (log_calls (definition_request opts <$> actualBatch) (tick (tick w)))).
Proof.
  intros batch effective actualBatch. unfold getFlowDefinitions_step.
  rewrite bind_run. cbn [Date_now]. rewrite bind_run. cbn [Date_now].
  rewrite bind_run, fetch_batch_run. rewrite bind_run. cbn [Date_now].
  reflexivity.
Qed.
(** The batch-size decision computes on exact quotients; it agrees with
    the same decision made on whole milliseconds. *)

Lemma Qcompare_Lt (a b : Z) (c d : positive) :
  (a * Z.pos d < b * Z.pos c)%Z → ((a # c) ?= (b # d))%Q = Lt.
Proof. intros H. apply (proj1 (Qlt_alt _ _)). exact H. Qed.

Lemma Qcompare_not_Lt (a b : Z) (c d : positive) :
  (b * Z.pos c ≤ a * Z.pos d)%Z → ((a # c) ?= (b # d))%Q ≠ Lt.
Proof.
  intros H Hc. apply (proj2 (Qlt_alt _ _)) in Hc. unfold Qlt in Hc. simpl in Hc. lia.
Qed.

Lemma Qmax_1_elapsed ms :
  Qmax 1 (ms # 1000) = (if (1000 <? ms)%Z then ms # 1000 else 1)%Q.
Proof.
  unfold Qmax, GenericMinMax.gmax.
  destruct (Z.ltb_spec 1000 ms) as [H|H].
  - rewrite (Qcompare_Lt 1 ms 1 1000) by lia. reflexivity.
  - pose proof (Qcompare_not_Lt 1 ms 1 1000 ltac:(lia)) as Hn.
    by destruct (1 ?= ms # 1000)%Q.
Qed.

Lemma Qmin_30 (n : Z) :
  Qmin 30 (n # 1000) = (if (n <? 30000)%Z then n # 1000 else 30)%Q.
Proof.
  unfold Qmin, GenericMinMax.gmin.
  destruct (Z.ltb_spec n 30000) as [H|H].
  - destruct (30 ?= n # 1000)%Q eqn:Hc; try reflexivity.
    + apply (proj2 (Qeq_alt _ _)) in Hc. unfold Qeq in Hc. simpl in Hc. lia.
    + apply (proj2 (Qlt_alt _ _)) in Hc. unfold Qlt in Hc. simpl in Hc. lia.
  - destruct (30 ?= n # 1000)%Q eqn:Hc; try reflexivity.
    apply (proj2 (Qgt_alt _ _)) in Hc. unfold Qlt in Hc. simpl in Hc. lia.
Qed.

Lemma Qltb_spec (a b : Z) (c d : positive) :
  Qltb (a # c) (b # d) = (a * Z.pos d <? b * Z.pos c)%Z.
Proof.
  unfold Qltb, Qle_bool. simpl. rewrite Z.ltb_antisym. reflexivity.
Qed.

Lemma effectiveBatchSize_ms elapsedMs totalRequests batchLength :
  effectiveBatchSize elapsedMs totalRequests batchLength
  = effective_ms elapsedMs totalRequests batchLength.
Proof.
  unfold effectiveBatchSize, effective_ms. cbv zeta.
  rewrite Qmax_1_elapsed.
  destruct (Z.ltb_spec 1000 elapsedMs) as [H|H].
  - replace (3 * (elapsedMs # 1000))%Q with ((3 * elapsedMs) # 1000)%Q by reflexivity.
    rewrite Qmin_30.
    rewrite (Z.max_r 1000 elapsedMs) by lia.
    destruct (Z.ltb_spec (3 * elapsedMs) 30000) as [H3|H3].
    + rewrite (Z.min_r 30000) by lia.
      unfold Q_of_nat, inject_Z. rewrite !Qltb_spec.
      replace (Qle_bool 10 (elapsedMs # 1000)) with (10000 <=? elapsedMs)%Z
        by (unfold Qle_bool; simpl; f_equal; lia).
      replace (3 * elapsedMs * 1 <? Z.of_nat (totalRequests + batchLength) * 1000)%Z
        with (3 * elapsedMs <? 1000 * Z.of_nat (totalRequests + batchLength))%Z
        by (f_equal; lia).
      replace (elapsedMs * 1 <? 10 * 1000)%Z with (elapsedMs <? 10000)%Z
        by (f_equal; lia).
      destruct (_ && _); [|reflexivity].
      f_equal. f_equal. unfold Qfloor, Qminus, Qplus, Qopp. simpl.
      f_equal; lia.
    + rewrite (Z.min_l 30000) by lia.
      unfold Q_of_nat, inject_Z. rewrite !Qltb_spec.
      replace (Qle_bool 10 (elapsedMs # 1000)) with (10000 <=? elapsedMs)%Z
        by (unfold Qle_bool; simpl; f_equal; lia).
      replace (30 * 1 <? Z.of_nat (totalRequests + batchLength) * 1)%Z
        with (30000 <? 1000 * Z.of_nat (totalRequests + batchLength))%Z.
      2:{ destruct (Z.ltb_spec 30000 (1000 * Z.of_nat (totalRequests + batchLength)));
          symmetry; [apply Z.ltb_lt|apply Z.ltb_ge]; lia. }
      replace (elapsedMs * 1 <? 10 * 1000)%Z with (elapsedMs <? 10000)%Z
        by (f_equal; lia).
      destruct (_ && _); [|reflexivity].
      f_equal. f_equal. unfold Qfloor, Qminus, Qplus, Qopp. simpl.
      rewrite Z.div_1_r. 
      replace (30000 - 1000 * Z.of_nat totalRequests)%Z
        with ((30 + - Z.of_nat totalRequests) * 1000)%Z by lia.
      rewrite Z.div_mul by lia. lia.
  - change (Qmin 30 (3 * 1)) with 3%Q.
    rewrite (Z.max_l 1000 elapsedMs) by lia.
    change (Z.min 30000 (3 * 1000))%Z with 3000%Z.
    unfold Q_of_nat, inject_Z. rewrite !Qltb_spec.
    replace (Qle_bool 10 (elapsedMs # 1000)) with (10000 <=? elapsedMs)%Z
      by (unfold Qle_bool; simpl; f_equal; lia).
    replace (3 * 1 <? Z.of_nat (totalRequests + batchLength) * 1)%Z
      with (3000 <? 1000 * Z.of_nat (totalRequests + batchLength))%Z.
    2:{ destruct (Z.ltb_spec 3000 (1000 * Z.of_nat (totalRequests + batchLength)));
        symmetry; [apply Z.ltb_lt|apply Z.ltb_ge]; lia. }
    replace (elapsedMs * 1 <? 10 * 1000)%Z with (elapsedMs <? 10000)%Z
      by (f_equal; lia).
    destruct (_ && _); [|reflexivity].
    f_equal. f_equal. unfold Qfloor, Qminus, Qplus, Qopp. simpl.
    rewrite Z.div_1_r.
    replace (3000 - 1000 * Z.of_nat totalRequests)%Z
      with ((3 + - Z.of_nat totalRequests) * 1000)%Z by lia.
    rewrite Z.div_mul by lia. lia.
Qed.

(** The first pass of three ids is never cut within the first ten
    seconds; a second pass of two ids after three requests is cut to one
    whenever it starts before 1667 ms or from ten seconds on. *)

Lemma effectiveBatchSize_uncut ms :
  (ms < 10000)%Z → effectiveBatchSize ms 0 3 = 3.
Proof.
  intros H. rewrite effectiveBatchSize_ms. unfold effective_ms. cbv zeta.
  destruct (Z.ltb_spec (Z.min 30000 (3 * Z.max 1000 ms)) (1000 * Z.of_nat (0 + 3)));
    [lia|].
  cbn [andb]. destruct (Z.leb_spec 10000 ms); [lia|reflexivity].
Qed.

Lemma effectiveBatchSize_cut ms :
  (ms < 1667 ∨ 10000 ≤ ms)%Z → effectiveBatchSize ms 3 2 = 1.
Proof.
  intros H. rewrite effectiveBatchSize_ms. unfold effective_ms. cbv zeta.
  destruct (Z.ltb_spec (Z.min 30000 (3 * Z.max 1000 ms)) (1000 * Z.of_nat (3 + 2)));
    destruct (Z.ltb_spec ms 10000); cbn [andb].
  - assert ((Z.min 30000 (3 * Z.max 1000 ms) - 1000 * Z.of_nat 3) / 1000 < 2)%Z
      as Hlt by (apply Z.div_lt_upper_bound; lia).
    rewrite Z.max_l by lia. reflexivity.
  - destruct (Z.leb_spec 10000 ms); [reflexivity|lia].
  - exfalso. lia.
  - destruct (Z.leb_spec 10000 ms); [reflexivity|lia].
Qed.

Lemma getFlowDefinitions_loop_pass fuel batchSize opts startTime st :
  ls_i st < length (ls_flowIds st) →
  getFlowDefinitions_loop (S fuel) batchSize opts startTime st
  = getFlowDefinitions_step batchSize opts startTime st
    ≫= getFlowDefinitions_loop fuel batchSize opts startTime.
Proof.
  intros Hlt. cbn [getFlowDefinitions_loop].
  by rewrite (proj2 (Nat.ltb_lt _ _) Hlt).
Qed.

Lemma getFlowDefinitions_loop_exit fuel batchSize opts startTime st :
  length (ls_flowIds st) ≤ ls_i st →
  getFlowDefinitions_loop fuel batchSize opts startTime st
  = ret (ls_results st).
Proof.
  intros Hle. destruct fuel; cbn [getFlowDefinitions_loop];
    by rewrite (proj2 (Nat.ltb_ge _ _) Hle).
Qed.

Lemma calls_after_two_passes first second opts w :
  calls (after_two_passes first second opts w)
  = calls w ++ (definition_request opts <$> first ++ second).
Proof.
  unfold after_two_passes. cbn [tick calls].
  rewrite (proj2 (log_calls_fields _ _)). cbn [tick calls].
  rewrite (proj2 (log_calls_fields _ _)). cbn [tick calls].
  by rewrite fmap_app, app_assoc.
Qed.

(** Five ids, whatever they are and whatever upstream answers: when the
    second pass is cut, the run ends after requesting the first four. *)

Lemma getFlowDefinitions_five a b c d e opts env w :
  (clock env (2 + ticks w) - clock env (ticks w) < 10000)%Z →
  (clock env (5 + ticks w) - clock env (ticks w) < 1667
   ∨ 10000 ≤ clock env (5 + ticks w) - clock env (ticks w))%Z →
  getFlowDefinitions [a; b; c; d; e] opts no_options env w
  = (Fulfilled (omap id (served env opts <$> [a; b; c; d])),
     after_two_passes [a; b; c] [d] opts w).
Proof.
  intros H1 H2. unfold getFlowDefinitions. rewrite bind_run. cbn [Date_now].
  rewrite bind_run. cbn [no_options maxBurst default length].
  (* first pass: three requests, nothing cut *)
  rewrite getFlowDefinitions_loop_pass by (cbn; lia).
  rewrite bind_run, getFlowDefinitions_step_run.
  cbn [ls_i ls_flowIds ls_totalRequests ls_results tick ticks].
  change (slice [a; b; c; d; e] 0 (0 + 3)) with [a; b; c].
  cbn [length]. change (S (S (ticks w))) with (2 + ticks w).
  rewrite (effectiveBatchSize_uncut _ H1).
  change (3 <? 3) with false. cbv iota.
  change (slice [a; b; c] 0 3) with [a; b; c].
  (* second pass: the batch [d; e] is cut to [d] *)
  rewrite getFlowDefinitions_loop_pass by (cbn; lia).
  rewrite bind_run, getFlowDefinitions_step_run.
  cbn [ls_i ls_flowIds ls_totalRequests ls_results tick ticks].
  change (slice [a; b; c; d; e] (0 + 3) (0 + 3 + 3)) with [d; e].
  cbn [length].
  destruct (log_calls_fields (definition_request opts <$> [a; b; c])
              (tick (tick (tick w)))) as [Ht Hc].
  cbn [tick ticks calls] in Ht, Hc.
  rewrite Ht. change (S (S (S (S (S (ticks w)))))) with (5 + ticks w).
  change (0 + 3) with 3.
  rewrite (effectiveBatchSize_cut _ H2).
  change (1 <? 2) with true. cbv iota.
  change (slice [d; e] 0 1) with [d].
  change (splice_insert [a; b; c; d; e] (0 + 3 + 1) (drop 1 [d; e]))
    with [a; b; c; d; e; e].
  (* the index is now 6 and the list has six entries: the loop ends *)
  rewrite getFlowDefinitions_loop_exit by (cbn; lia).
  cbn [ret ls_results]. rewrite bind_run. cbn [Date_now ret].
  rewrite app_nil_l, <- omap_app, <- fmap_app. reflexivity.
Qed.

Lemma list_ascii_of_string_app (s t : string) :
  list_ascii_of_string (s +:+ t)
  = list_ascii_of_string s ++ list_ascii_of_string t.
Proof.
  induction s as [|x s IH]; [done|].
  change (x :: list_ascii_of_string (s +:+ t)
          = x :: (list_ascii_of_string s ++ list_ascii_of_string t)).
  by rewrite IH.
Qed.

Lemma string_app_inj_r (t s1 s2 : string) : s1 +:+ t = s2 +:+ t → s1 = s2.
Proof.
  intros H. apply (f_equal list_ascii_of_string) in H.
  rewrite !list_ascii_of_string_app in H.
  apply app_inj_2 in H as [H _]; [|done].
  rewrite <- (string_of_list_ascii_of_string s1),
          <- (string_of_list_ascii_of_string s2).
  by rewrite H.
Qed.

Lemma definition_request_inj opts : Inj (=) (=) (definition_request opts).
Proof.
  intros x y H. apply (f_equal req_url) in H.
  unfold definition_request, get_request, definition_endpoint in H.
  cbn [req_url] in H.
  change (String.prefix "http" ("flows/" +:+ x +:+ ?s)) with false in H.
  change (String.prefix "http" ("flows/" +:+ y +:+ ?s)) with false in H.
  cbv iota in H.
  apply (inj (String.append BASE_URL)), (inj (String.append "flows/")) in H.
  by apply string_app_inj_r in H.
Qed.

(** X3. Five ids, the fifth distinct from the others, with the default
    options: when the first reading of the elapsed time is under ten
    seconds and the second pass starts less than 1667 ms, or at least ten
    seconds, after the start, the fifth id is never requested and the
    result holds the definitions of the first four only, whatever upstream
    serves. *)
Lemma getFlowDefinitions_fifth_not_requested a b c d e opts env w :
  (clock env (2 + ticks w) - clock env (ticks w) < 10000)%Z →
  (clock env (5 + ticks w) - clock env (ticks w) < 1667
   ∨ 10000 ≤ clock env (5 + ticks w) - clock env (ticks w))%Z →
  e ∉ [a; b; c; d] →
  let run := getFlowDefinitions [a; b; c; d; e] opts no_options env w in
  run.1 = Fulfilled (omap id (served env opts <$> [a; b; c; d]))
  ∧ ∃ sent, calls run.2 = calls w ++ sent ∧ definition_request opts e ∉ sent.
Proof.
  intros H1 H2 He run. subst run.
  rewrite (getFlowDefinitions_five a b c d e opts env w H1 H2).
  split; [reflexivity|]. cbn [snd].
  exists (definition_request opts <$> [a; b; c; d]). split.
  - apply (calls_after_two_passes [a; b; c] [d]).
  - intros Hin. apply He.
    apply list_elem_of_fmap in Hin as (x & Hx & Hin).
    by apply (definition_request_inj opts) in Hx as ->.
Qed.

(** The five-flow scenario is such a run: its second pass starts 1000 ms
    after the start. *)
Lemma five_flows_fifth_not_requested :
  let run :=
    getFlowDefinitions Scenario.five_flows Scenario.opts no_options
      Scenario.five_flows_env Scenario.empty_world in
  run.1 = Fulfilled (omap id (served Scenario.five_flows_env Scenario.opts
                                <$> ["f1"; "f2"; "f3"; "f4"]))
  ∧ ∃ sent, calls run.2 = calls Scenario.empty_world ++ sent
            ∧ definition_request Scenario.opts "f5" ∉ sent.
Proof.
  apply (getFlowDefinitions_fifth_not_requested "f1" "f2" "f3" "f4" "f5").
  - vm_compute. reflexivity.
  - left. vm_compute. reflexivity.
  - elem_decide.
Defined.

(** C1 fails on the code.  Five flow ids, every one of which upstream
    serves; the second pass starts one second after the start, so the
    burst limit is 3 with 3 requests already made and the pass of two ids
    is cut to one.  The dropped id is spliced in right after the current
    position, which leaves the array one element short of the next index:
    the loop ends, the fifth id is never requested and its definition is
    not in the result. *)
Theorem getFlowDefinitions_drops_requeued_id :
  let env := Scenario.five_flows_env in
  let url := λ id, BASE_URL +:+ definition_endpoint id in
  let run :=
    getFlowDefinitions Scenario.five_flows Scenario.opts no_options env
      Scenario.empty_world in
  (∀ id, id ∈ Scenario.five_flows →
     sv_flow_definition (service env)
       (get_request (definition_endpoint id) Scenario.opts)
     = HttpOk (Scenario.definition_at (url id)))
  ∧ run.1 = Fulfilled ((Scenario.definition_at ∘ url) <$> ["f1"; "f2"; "f3"; "f4"])
  ∧ req_url <$> calls run.2 = url <$> ["f1"; "f2"; "f3"; "f4"]
  ∧ (url "f5" ∉ req_url <$> calls run.2)
  ∧ ∀ rs, run.1 = Fulfilled rs → Scenario.definition_at (url "f5") ∉ rs.
Proof.
  intros env url run.
  assert (Hrun : run.1
            = Fulfilled ((Scenario.definition_at ∘ url) <$> ["f1"; "f2"; "f3"; "f4"])).
  { vm_compute. reflexivity. }
  assert (Hcalls : req_url <$> calls run.2 = url <$> ["f1"; "f2"; "f3"; "f4"]).
  { vm_compute. reflexivity. }
  split; [|split; [exact Hrun|split; [exact Hcalls|split]]].
  - intros id Hid. unfold Scenario.five_flows in Hid. elem_cases Hid; reflexivity.
  - rewrite Hcalls. elem_decide.
  - intros rs Hrs. rewrite Hrun in Hrs. injection Hrs as <-.
    intros Hin.
    repeat (apply elem_of_cons in Hin as [Heq | Hin];
            [vm_compute in Heq; discriminate Heq|]).
    by apply elem_of_nil in Hin.
Qed.

(** ** The sync orchestrator: the gate and the from-date *)

(** C3. When the account's flag is set, or the clock is less than the
    threshold past its last sync (0 when it has none), the sync returns the
    very account it was given; the world it leaves differs from the one it
    found only in the clock read: no upstream request is logged and the
    three collections are as before. *)
Theorem freshness_gate_is_noop store date env w :
  is_updating_dashboard store = true
  ∨ (clock env (ticks w) - lastSync store < FRESHNESS_THRESHOLD_MS)%Z →
  klaviyoUpdateStats store date env w = (Fulfilled (Some store), tick w)
  ∧ calls (tick w) = calls w ∧ stores (tick w) = stores w
  ∧ campaign_stats (tick w) = campaign_stats w
  ∧ flow_stats (tick w) = flow_stats w.
Proof.
  intros H. split; [|by repeat split].
  unfold klaviyoUpdateStats. rewrite bind_run. cbn [Date_now].
  assert (Hg : is_updating_dashboard store
       || (clock env (ticks w)
           - match last_dashboard_sync store with Some t => t | None => 0%Z end
           <? FRESHNESS_THRESHOLD_MS)%Z = true).
  { destruct H as [-> | H]; [done|]. apply orb_true_iff. right.
    apply Z.ltb_lt. unfold lastSync in H.
    destruct (last_dashboard_sync store); exact H. }
  rewrite Hg. reflexivity.
Qed.

Lemma freshness_gate_is_noop_witness :
  let env := Scenario.runtime Scenario.soon Scenario.tags_down_service in
  (is_updating_dashboard Scenario.account = true
   ∨ (clock env (ticks Scenario.world) - lastSync Scenario.account
      < FRESHNESS_THRESHOLD_MS)%Z)
  ∧ klaviyoUpdateStats Scenario.account None env Scenario.world
    = (Fulfilled (Some Scenario.account), tick Scenario.world)
  ∧ calls (tick Scenario.world) = calls Scenario.world
  ∧ stores (tick Scenario.world) = stores Scenario.world
  ∧ campaign_stats (tick Scenario.world) = campaign_stats Scenario.world
  ∧ flow_stats (tick Scenario.world) = flow_stats Scenario.world.
Proof.
  intros env.
  assert (H : is_updating_dashboard Scenario.account = true
     ∨ (clock env (ticks Scenario.world) - lastSync Scenario.account
        < FRESHNESS_THRESHOLD_MS)%Z).
  { right. vm_compute. reflexivity. }
  split; [exact H|].
  exact (freshness_gate_is_noop Scenario.account None env Scenario.world H).
Defined.

(** C10. An account without a last-sync timestamp and with a clear flag,
    synced without an explicit date at a time at least the threshold past
    the epoch, makes the sync throw the RangeError of [toISOString] on an
    invalid date; nothing but the clock has been touched by then: no store
    row is written (the flag stays as it was) and no upstream request is
    made. *)
Theorem never_synced_sync_throws_before_lock store env w :
  last_dashboard_sync store = None →
  is_updating_dashboard store = false →
  (FRESHNESS_THRESHOLD_MS ≤ clock env (ticks w))%Z →
  klaviyoUpdateStats store None env w = (Rejected RangeErrorInvalidTime, tick w)
  ∧ stores (tick w) = stores w ∧ calls (tick w) = calls w
  ∧ campaign_stats (tick w) = campaign_stats w
  ∧ flow_stats (tick w) = flow_stats w.
Proof.
  intros Hl Hf Hn. split; [|by repeat split].
  unfold klaviyoUpdateStats. rewrite bind_run. cbn [Date_now].
  rewrite Hl, Hf. cbn [orb].
  destruct (Z.ltb_spec (clock env (ticks w) - 0) FRESHNESS_THRESHOLD_MS)
    as [Hlt|Hge]; [lia|].
  reflexivity.
Qed.

Lemma never_synced_sync_throws_before_lock_witness :
  let env := Scenario.runtime Scenario.later Scenario.tags_down_service in
  last_dashboard_sync Scenario.new_account = None
  ∧ is_updating_dashboard Scenario.new_account = false
  ∧ (FRESHNESS_THRESHOLD_MS ≤ clock env (ticks Scenario.world))%Z
  ∧ klaviyoUpdateStats Scenario.new_account None env Scenario.world
    = (Rejected RangeErrorInvalidTime, tick Scenario.world)
  ∧ stores (tick Scenario.world) = stores Scenario.world
  ∧ calls (tick Scenario.world) = calls Scenario.world
  ∧ campaign_stats (tick Scenario.world) = campaign_stats Scenario.world
  ∧ flow_stats (tick Scenario.world) = flow_stats Scenario.world.
Proof.
  intros env.
  assert (Hn : (FRESHNESS_THRESHOLD_MS ≤ clock env (ticks Scenario.world))%Z).
  { vm_compute. discriminate. }
  split; [reflexivity|]. split; [reflexivity|]. split; [exact Hn|].
  exact (never_synced_sync_throws_before_lock Scenario.new_account env
           Scenario.world eq_refl eq_refl Hn).
Defined.

(** ** The sync orchestrator: a failing fan-out *)

Lemma preserves_klaviyoRequest {A} (view : Service → Request → Reply A)
    m ep opts payload :
  preserves_db (klaviyoRequest view m ep opts payload).
Proof.
  unfold klaviyoRequest. frame_step; [frame_step|].
  destruct a; auto with frame.
Qed.

Lemma preserves_klaviyoGetAll_loop {A}
    (view : Service → Request → Reply (Page A)) opts fuel :
  ∀ url st, preserves_db (klaviyoGetAll_loop view opts fuel url st).
Proof.
  induction fuel as [|fuel IH]; intros [u|] st; simpl; auto with frame.
  apply preserves_bind; [apply preserves_klaviyoRequest|]. intros res. apply IH.
Qed.

Lemma preserves_klaviyoGetAll {A} (view : Service → Request → Reply (Page A))
    ep opts :
  preserves_db (klaviyoGetAll view ep opts).
Proof.
  unfold klaviyoGetAll, klaviyoGetAll_fuel. frame_step; [frame_step|].
  frame_step; [apply preserves_klaviyoGetAll_loop|].
  destruct (gs_firstResponse a0); auto with frame.
Qed.

Lemma preserves_klaviyoReportPost_loop {R}
    (view : Service → Request → Reply (ReportPage R)) payload opts fuel :
  ∀ url st, preserves_db (klaviyoReportPost_loop view payload opts fuel url st).
Proof.
  induction fuel as [|fuel IH]; intros [u|] st; simpl; auto with frame.
  apply preserves_bind; [apply preserves_klaviyoRequest|]. intros res. apply IH.
Qed.

Lemma preserves_klaviyoReportPost {R}
    (view : Service → Request → Reply (ReportPage R)) ep payload opts :
  preserves_db (klaviyoReportPost view ep payload opts).
Proof.
  unfold klaviyoReportPost. frame_step; [frame_step|].
  frame_step; [apply preserves_klaviyoReportPost_loop|].
  destruct (rs_firstResponse a0); auto with frame.
Qed.

#[local] Hint Resolve preserves_klaviyoRequest preserves_klaviyoGetAll
  preserves_klaviyoReportPost : frame.

(** The eight fetches read upstream and the clock, nothing else. *)
Lemma preserves_fan_out_settle store fromDate :
  preserves_db (fan_out_settle store fromDate).
Proof. unfold fan_out_settle. repeat frame_step. Qed.

Lemma fulfilled_fan_out_settle store fromDate :
  always_fulfilled (fan_out_settle store fromDate).
Proof. unfold fan_out_settle. repeat fulfilled_step. Qed.

Lemma find_one_and_update_spec p u coll :
  find_one_and_update p u coll =
  match List.find p coll with
  | Some s => Some (s, apply_store_update u s, update_first_store p u coll)
  | None => None
  end.
Proof.
  induction coll as [|s rest IH]; [done|]. simpl.
  destruct (p s); [done|]. rewrite IH. by destruct (List.find p rest).
Qed.

Lemma update_first_store_none p u coll :
  List.find p coll = None → update_first_store p u coll = coll.
Proof.
  induction coll as [|s rest IH]; [done|]. simpl. destruct (p s); [done|].
  intros H. by rewrite IH.
Qed.

Lemma find_existsb {A} (p : A → bool) l :
  existsb p l = bool_decide (is_Some (List.find p l)).
Proof.
  induction l as [|x l IH]; [done|]. cbn [existsb List.find].
  destruct (p x); [done|exact IH].
Qed.

Lemma findOneAndUpdate_run p u n env w :
  ∃ r w', findOneAndUpdate p u n env w = (Fulfilled r, w')
    ∧ (r = None ↔ List.find p (stores w) = None)
    ∧ stores w' = update_first_store p u (stores w)
    ∧ users w' = users w ∧ campaign_stats w' = campaign_stats w
    ∧ flow_stats w' = flow_stats w ∧ calls w' = calls w ∧ ticks w' = ticks w.
Proof.
  unfold findOneAndUpdate. rewrite find_one_and_update_spec.
  destruct (List.find p (stores w)) as [s|] eqn:Hf.
  - eexists _, _. split; [reflexivity|]. simpl. repeat split; discriminate.
  - eexists _, _. split; [reflexivity|].
    rewrite update_first_store_none by done. by repeat split.
Qed.

(** [findByIdOrPublicIdAndUpdate] writes the store collection and nothing
    else, and never throws. *)
Lemma findByIdOrPublicIdAndUpdate_run id u n env w :
  ∃ r w', findByIdOrPublicIdAndUpdate id u n env w = (Fulfilled r, w')
    ∧ stores w' = updated_stores env id u (stores w)
    ∧ users w' = users w ∧ campaign_stats w' = campaign_stats w
    ∧ flow_stats w' = flow_stats w ∧ calls w' = calls w ∧ ticks w' = ticks w.
Proof.
  unfold findByIdOrPublicIdAndUpdate, updated_stores. rewrite bind_run. cbn [ask].
  rewrite bind_run. rewrite find_existsb. fold (by_id id). fold (by_public_id id).
  destruct (objectid_valid env id); cbn [andb].
  - destruct (findOneAndUpdate_run (by_id id) u n env w)
      as (r & w1 & -> & Hr & Hs & Hu & Hc & Hf & Hcalls & Ht).
    destruct r as [r|].
    + cbn. eexists _, _. split; [reflexivity|].
      rewrite bool_decide_eq_true_2; [by repeat split|].
      destruct (List.find (by_id id) (stores w)); [eauto|].
      destruct Hr as [_ Hr]. by specialize (Hr eq_refl).
    + destruct Hr as [Hr _]. specialize (Hr eq_refl).
      rewrite Hr. rewrite bool_decide_eq_false_2 by (by intros [? ?]).
      rewrite update_first_store_none in Hs by done.
      destruct (findOneAndUpdate_run (by_public_id id) u n env w1)
        as (r' & w2 & -> & _ & Hs' & Hu' & Hc' & Hf' & Hcalls' & Ht').
      eexists _, _. split; [reflexivity|]. rewrite Hs', Hs.
      repeat split; congruence.
  - destruct (findOneAndUpdate_run (by_public_id id) u n env w)
      as (r' & w2 & Hrun & _ & Hs' & Hu' & Hc' & Hf' & Hcalls' & Ht').
    cbn. rewrite Hrun. eexists _, _. split; [reflexivity|]. by repeat split.
Qed.

Lemma find_update_first p u coll :
  (∀ s, p (apply_store_update u s) = p s) →
  List.find p (update_first_store p u coll)
  = apply_store_update u <$> List.find p coll.
Proof.
  intros Hp. induction coll as [|s rest IH]; [done|]. simpl.
  destruct (p s) eqn:Hs; simpl.
  - by rewrite Hp, Hs.
  - by rewrite Hs.
Qed.

Lemma update_first_twice p u1 u2 coll :
  (∀ s, p (apply_store_update u1 s) = p s) →
  (∀ s, apply_store_update u2 (apply_store_update u1 s)
        = apply_store_update u2 s) →
  update_first_store p u2 (update_first_store p u1 coll)
  = update_first_store p u2 coll.
Proof.
  intros Hp Hu. induction coll as [|s rest IH]; [done|]. simpl.
  destruct (p s) eqn:Hs; simpl.
  - by rewrite Hp, Hs, Hu.
  - by rewrite Hs, IH.
Qed.

Lemma existsb_update_first p q u coll :
  (∀ s, q (apply_store_update u s) = q s) →
  existsb q (update_first_store p u coll) = existsb q coll.
Proof.
  intros Hq. induction coll as [|s rest IH]; [done|]. simpl.
  destruct (p s); simpl; [by rewrite Hq|by rewrite IH].
Qed.

(** Setting the flag and then setting it again is setting it once. *)
Lemma updated_stores_twice env id a b coll :
  updated_stores env id (set_updating b)
    (updated_stores env id (set_updating a) coll)
  = updated_stores env id (set_updating b) coll.
Proof.
  unfold updated_stores.
  destruct (objectid_valid env id && existsb (by_id id) coll) eqn:Hc.
  - rewrite existsb_update_first by done. rewrite Hc.
    by apply update_first_twice.
  - rewrite existsb_update_first by done. rewrite Hc.
    by apply update_first_twice.
Qed.

Lemma update_first_Forall2 p u coll :
  Forall2 (λ s s', s' = s ∨ s' = apply_store_update u s)
    coll (update_first_store p u coll).
Proof.
  induction coll as [|s rest IH]; [constructor|]. simpl.
  destruct (p s); constructor; auto.
  apply Forall2_same_length_lookup. split; [done|].
  intros i x y Hx Hy. left. congruence.
Qed.

Lemma updated_stores_Forall2 env id u coll :
  Forall2 (λ s s', s' = s ∨ s' = apply_store_update u s)
    coll (updated_stores env id u coll).
Proof. unfold updated_stores. destruct (_ && _); apply update_first_Forall2. Qed.

Lemma earliest_rejection_exists rank e : ∀ rs i best,
  Some e ∈ rs ∨ is_Some best →
  ∃ b e', earliest_rejection rank i rs best = Some (b, e')
    ∧ (Some e' ∈ rs ∨ ∃ b0, best = Some (b0, e')).
Proof.
  induction rs as [|r rest IH]; intros i best Hin.
  - destruct Hin as [Hin | [[b e'] ->]]; [by apply elem_of_nil in Hin|].
    exists b, e'. split; [done|]. right. eauto.
  - simpl. destruct r as [e0|].
    + destruct best as [[b e1]|].
      * destruct (rank i <? b).
        -- destruct (IH (S i) (Some (rank i, e0))) as (b' & e' & -> & Hor);
             [right; eauto|].
           exists b', e'. split; [done|]. left.
           destruct Hor as [Hor | [b0 [= _ ->]]]; [by right|by left].
        -- destruct (IH (S i) (Some (b, e1))) as (b' & e' & -> & Hor);
             [right; eauto|].
           exists b', e'. split; [done|].
           destruct Hor as [Hor | [b0 [= _ ->]]]; [left; by right|right; eauto].
      * destruct (IH (S i) (Some (rank i, e0))) as (b' & e' & -> & Hor);
          [right; eauto|].
        exists b', e'. split; [done|]. left.
        destruct Hor as [Hor | [b0 [= _ ->]]]; [by right|by left].
    + destruct (IH (S i) best) as (b' & e' & -> & Hor).
      { destruct Hin as [Hin|Hin]; [|by right]. left.
        apply elem_of_cons in Hin as [Hin|Hin]; [discriminate|done]. }
      exists b', e'. split; [done|].
      destruct Hor as [Hor|Hor]; [left; by right|by right].
Qed.

(** When a promise is rejected, [Promise.all] rejects with the reason of
    one of the rejected promises. *)
Lemma first_rejection_exists rank rs e :
  Some e ∈ rs → ∃ e', first_rejection rank rs = Some e' ∧ Some e' ∈ rs.
Proof.
  intros He. unfold first_rejection.
  destruct (earliest_rejection_exists rank e rs 0 None) as (b & e' & Heq & Hor);
    [by left|].
  rewrite Heq. exists e'. split; [done|].
  destruct Hor as [Hor | [b0 Hb]]; [done|discriminate].
Qed.

Lemma gate_open store env w :
  is_updating_dashboard store = false →
  (FRESHNESS_THRESHOLD_MS ≤ clock env (ticks w) - lastSync store)%Z →
  is_updating_dashboard store
  || (clock env (ticks w)
      - match last_dashboard_sync store with Some t => t | None => 0%Z end
      <? FRESHNESS_THRESHOLD_MS)%Z = false.
Proof.
  intros -> H. cbn [orb]. apply Z.ltb_ge. unfold lastSync in H.
  by destruct (last_dashboard_sync store).
Qed.

Lemma from_date_iso store date env ms :
  from_date store date = Some ms →
  match date with
  | Some d => toISOString (iso env) d
  | None => toISOString (iso env) (new_Date (last_dashboard_sync store))
  end = Fulfilled (iso env ms).
Proof. unfold from_date. destruct date as [d|]; by intros ->. Qed.

(** C2. Take a sync that passes the gate and computes its from-date, and
    suppose that, in the world where the fan-out starts (flag just set),
    one of the eight fetches settles rejected.  Then the sync rejects, with
    the reason of one of the rejected fetches; the campaign and flow
    collections are what they were before the sync; the store collection
    is the one obtained from the original by the flag-clearing update
    alone, so every row is either untouched or has only its flag cleared;
    and the account's row, found under its id, has the flag false and its
    timestamp, tag names and date-times as before. *)
Theorem fan_out_failure_aborts_sync store date env w ms settled e :
  is_updating_dashboard store = false →
  (FRESHNESS_THRESHOLD_MS ≤ clock env (ticks w) - lastSync store)%Z →
  from_date store date = Some ms →
  (fan_out_settle store (iso env ms) env
     (findByIdOrPublicIdAndUpdate (_id store) (set_updating true) false env
        (tick w)).2).1
    = Fulfilled settled →
  Some e ∈ rejections settled →
  ∃ e' w', klaviyoUpdateStats store date env w = (Rejected e', w')
     ∧ Some e' ∈ rejections settled
     ∧ campaign_stats w' = campaign_stats w ∧ flow_stats w' = flow_stats w
     ∧ stores w'
       = updated_stores env (_id store) (set_updating false) (stores w)
     ∧ Forall2 (λ s s', s' = s ∨ s' = apply_store_update (set_updating false) s)
         (stores w) (stores w')
     ∧ (∀ row, objectid_valid env (_id store) = true →
          List.find (by_id (_id store)) (stores w) = Some row →
          ∃ row', List.find (by_id (_id store)) (stores w') = Some row'
            ∧ is_updating_dashboard row' = false
            ∧ last_dashboard_sync row' = last_dashboard_sync row
            ∧ tagNames row' = tagNames row
            ∧ flow_date_times (klaviyo_integration row')
              = flow_date_times (klaviyo_integration row)).
Proof.
  intros Hflag Hstale Hfrom Hsettled Hrej.
  destruct (first_rejection_exists (settle_rank env) _ _ Hrej)
    as (e' & Hfirst & He').
  unfold klaviyoUpdateStats. rewrite bind_run. cbn [Date_now].
  rewrite (gate_open _ _ _ Hflag Hstale). rewrite bind_run. cbn [ask].
  rewrite bind_run, (from_date_iso _ _ _ _ Hfrom). cbn [await].
  rewrite bind_run.
  destruct (findByIdOrPublicIdAndUpdate_run (_id store) (set_updating true)
              false env (tick w))
    as (r1 & w1 & Hrun1 & Hs1 & Hu1 & Hc1 & Hf1 & _).
  rewrite Hrun1 in Hsettled |- *. cbn [snd] in Hsettled.
  unfold try_catch, sync_body. rewrite bind_run. unfold fan_out.
  rewrite bind_run.
  pose proof (preserves_fan_out_settle store (iso env ms) env w1)
    as (Hs2 & Hu2 & Hc2 & Hf2).
  destruct (fan_out_settle store (iso env ms) env w1) as [o w2].
  cbn [fst snd] in *. subst o. rewrite bind_run. cbn [ask].
  unfold promise_all. rewrite Hfirst. cbn [throw]. rewrite bind_run.
  destruct (findByIdOrPublicIdAndUpdate_run (_id store) (set_updating false)
              false env w2)
    as (r3 & w3 & -> & Hs3 & Hu3 & Hc3 & Hf3 & _).
  cbn [throw]. exists e', w3. split; [reflexivity|]. split; [exact He'|].
  assert (Hst : stores w3
            = updated_stores env (_id store) (set_updating false) (stores w)).
  { rewrite Hs3, Hs2, Hs1. cbn [tick stores]. apply updated_stores_twice. }
  split; [rewrite Hc3, Hc2, Hc1; reflexivity|].
  split; [rewrite Hf3, Hf2, Hf1; reflexivity|].
  split; [exact Hst|]. split; [rewrite Hst; apply updated_stores_Forall2|].
  intros row Hvalid Hrow. rewrite Hst. unfold updated_stores.
  rewrite Hvalid, find_existsb, Hrow. cbn [andb].
  rewrite bool_decide_eq_true_2 by eauto.
  rewrite find_update_first by done. rewrite Hrow. simpl.
  eexists. split; [reflexivity|]. by repeat split.
Qed.

Lemma fan_out_failure_aborts_sync_witness :
  let env := Scenario.runtime Scenario.later Scenario.tags_down_service in
  let store := Scenario.account in
  let w := Scenario.world in
  let settled := Scenario.settled_tags_down in
  is_updating_dashboard store = false
  ∧ (FRESHNESS_THRESHOLD_MS ≤ clock env (ticks w) - lastSync store)%Z
  ∧ from_date store None = Some Scenario.T0
  ∧ (fan_out_settle store (iso env Scenario.T0) env
       (findByIdOrPublicIdAndUpdate (_id store) (set_updating true) false env
          (tick w)).2).1
      = Fulfilled settled
  ∧ Some (KlaviyoApiError 429 "throttled") ∈ rejections settled
  ∧ ∃ e' w', klaviyoUpdateStats store None env w = (Rejected e', w')
      ∧ Some e' ∈ rejections settled
      ∧ campaign_stats w' = campaign_stats w ∧ flow_stats w' = flow_stats w
      ∧ stores w'
        = updated_stores env (_id store) (set_updating false) (stores w)
      ∧ Forall2 (λ s s', s' = s ∨ s' = apply_store_update (set_updating false) s)
          (stores w) (stores w')
      ∧ (∀ row, objectid_valid env (_id store) = true →
           List.find (by_id (_id store)) (stores w) = Some row →
           ∃ row', List.find (by_id (_id store)) (stores w') = Some row'
             ∧ is_updating_dashboard row' = false
             ∧ last_dashboard_sync row' = last_dashboard_sync row
             ∧ tagNames row' = tagNames row
             ∧ flow_date_times (klaviyo_integration row')
               = flow_date_times (klaviyo_integration row)).
Proof.
  intros env store w settled.
  assert (H1 : is_updating_dashboard store = false) by reflexivity.
  assert (H2 : (FRESHNESS_THRESHOLD_MS
                ≤ clock env (ticks w) - lastSync store)%Z).
  { vm_compute. discriminate. }
  assert (H3 : from_date store None = Some Scenario.T0) by reflexivity.
  assert (H4 : (fan_out_settle store (iso env Scenario.T0) env
       (findByIdOrPublicIdAndUpdate (_id store) (set_updating true) false env
          (tick w)).2).1 = Fulfilled settled).
  { vm_compute. reflexivity. }
  assert (H5 : Some (KlaviyoApiError 429 "throttled") ∈ rejections settled).
  { apply list_elem_of_further, list_elem_of_further, list_elem_of_here. }
  repeat (split; [assumption|]).
  exact (fan_out_failure_aborts_sync store None env w Scenario.T0 settled
           (KlaviyoApiError 429 "throttled") H1 H2 H3 H4 H5).
Defined.

(** ** Persisting merged records *)

(** A collection of documents under a key function: how a sequence of
    upserts acts on it, and why a second round of the same upserts adds
    nothing to the first but the values it sets. *)
Section KeyedProofs.
Context {K : Type} `{EqDecision K}.
Variable key_of : doc → option K.
Abbreviation upsert := (@upsert K).
Abbreviation run_upsert := (run_upsert key_of).
Abbreviation run_upserts := (run_upserts key_of).
Abbreviation carries := (carries key_of).

Lemma run_upsert_cons (u : upsert) d rest :
  run_upsert u (d :: rest) =
  if has_key key_of (u_key u) d then apply_set (u_set u) d :: rest
  else d :: run_upsert u rest.
Proof.
  unfold run_upsert. cbn [update_first]. destruct (has_key _ _ d); [done|].
  by destruct (update_first _ _ rest).
Qed.

Lemma apply_sets_union sets d : apply_sets sets d = union_of sets ∪ d.
Proof.
  unfold apply_sets, union_of.
  assert (H' : ∀ acc, foldl (λ d s, apply_set s d) (acc ∪ d) sets
                = foldl (λ acc s, s ∪ acc) acc sets ∪ d).
  { induction sets as [|s sets IH]; intros acc; [done|]. simpl.
    unfold apply_set at 2. rewrite (assoc_L (∪)). apply IH. }
  specialize (H' ∅). by rewrite (left_id_L ∅ (∪)) in H'.
Qed.

Lemma union_of_cons s sets : union_of (s :: sets) = union_of sets ∪ s.
Proof.
  pose proof (apply_sets_union sets s) as H'. unfold apply_sets in H'.
  unfold union_of at 1. simpl. rewrite (right_id_L ∅ (∪)).
  unfold union_of.
  assert (G : ∀ acc, foldl (λ acc s0, s0 ∪ acc) acc sets
             = foldl (λ acc s0, s0 ∪ acc) ∅ sets ∪ acc).
  { clear. induction sets as [|x sets IH]; intros acc; simpl.
    - by rewrite (left_id_L ∅ (∪)).
    - rewrite IH, (IH (x ∪ ∅)), (right_id_L ∅ (∪)). by rewrite (assoc_L (∪)). }
  apply G.
Qed.

Lemma absorb_union (x y d : doc) : dom x ⊆ dom y → y ∪ (x ∪ d) = y ∪ d.
Proof.
  intros Hsub. apply map_eq. intros k. rewrite !lookup_union.
  destruct (y !! k) as [v|] eqn:Hy; simpl; [by destruct (x !! k), (d !! k)|].
  assert (x !! k = None) as ->.
  { apply not_elem_of_dom. intros Hk. apply Hsub in Hk.
    apply elem_of_dom in Hk as [? ?]. congruence. }
  by rewrite (left_id_L None _).
Qed.

Lemma lookup_None_dom (x y : doc) k : dom x ⊆ dom y → y !! k = None → x !! k = None.
Proof.
  intros Hsub Hy. apply not_elem_of_dom. intros Hk. apply Hsub in Hk.
  apply elem_of_dom in Hk as [? ?]. congruence.
Qed.

Lemma absorb_union2 (u1 s1 u2 s2 b : doc) :
  dom u1 ⊆ dom u2 → dom s1 ⊆ dom s2 →
  u2 ∪ (s2 ∪ (u1 ∪ (s1 ∪ b))) = u2 ∪ (s2 ∪ b).
Proof.
  intros Hu Hs. apply map_eq. intros k. rewrite !lookup_union.
  destruct (u2 !! k) as [v|] eqn:Hu2; simpl; [by destruct (s2 !! k), (u1 !! k), (s1 !! k), (b !! k)|].
  rewrite (lookup_None_dom u1 u2 k Hu Hu2).
  destruct (s2 !! k) as [v|] eqn:Hs2; simpl; [by destruct (s1 !! k), (b !! k)|].
  rewrite (lookup_None_dom s1 s2 k Hs Hs2). by destruct (b !! k).
Qed.

Lemma key_apply_sets k sets d :
  key_of d = Some k →
  Forall (λ s, ∀ d, key_of (apply_set s d) = Some k) sets →
  key_of (apply_sets sets d) = Some k.
Proof.
  intros Hd Hs. revert d Hd. induction Hs as [|s sets Hs _ IH]; intros d Hd; [done|].
  simpl. apply IH, Hs.
Qed.

Lemma carries_sets_for k us :
  Forall carries us →
  Forall (λ s, ∀ d, key_of (apply_set s d) = Some k) (sets_for k us).
Proof.
  intros Hus. unfold sets_for. apply Forall_fmap.
  induction Hus as [|u us Hu _ IH]; [constructor|].
  rewrite filter_cons. destruct (decide (u_key u = k)) as [<-|]; [|done].
  constructor; [exact Hu|exact IH].
Qed.

Lemma carries_others k us : Forall carries us → Forall carries (others k us).
Proof.
  intros Hus. unfold others. apply Forall_forall. intros u Hu.
  apply list_elem_of_filter in Hu as [_ Hu]. revert u Hu. by apply Forall_forall.
Qed.

Lemma run_upserts_step (u : upsert) us coll :
  run_upserts (u :: us) coll = run_upserts us (run_upsert u coll).
Proof. reflexivity. Qed.

(** How a sequence of upserts acts on the head of the collection. *)
Lemma run_upserts_cons us : Forall carries us → ∀ d rest,
  run_upserts us (d :: rest) =
  match key_of d with
  | Some k => apply_sets (sets_for k us) d :: run_upserts (others k us) rest
  | None => d :: run_upserts us rest
  end.
Proof.
  induction 1 as [|u us Hu Hus IH]; intros d rest.
  { simpl. by destruct (key_of d). }
  rewrite run_upserts_step, run_upsert_cons. unfold has_key.
  destruct (key_of d) as [k|] eqn:Hd.
  - unfold sets_for, others. rewrite !filter_cons.
    destruct (decide (u_key u = k)) as [Hk|Hk].
    + rewrite bool_decide_eq_true_2 by congruence.
      rewrite IH, Hu, Hk. rewrite decide_False by (intros Hne; by apply Hne).
      rewrite fmap_cons. reflexivity.
    + rewrite bool_decide_eq_false_2 by congruence.
      rewrite IH, Hd. rewrite decide_True by done.
      rewrite run_upserts_step. reflexivity.
  - rewrite bool_decide_eq_false_2 by congruence.
    rewrite IH, Hd. rewrite run_upserts_step. reflexivity.
Qed.

Lemma run_upserts_nil u us : carries u → Forall carries us →
  run_upserts (u :: us) [] =
  apply_sets (sets_for (u_key u) us) (apply_set (u_set u) (u_base u))
    :: run_upserts (others (u_key u) us) [].
Proof.
  intros Hu Hus. rewrite run_upserts_step.
  unfold Upserts.run_upsert at 1. cbn [update_first app].
  rewrite run_upserts_cons by done. by rewrite Hu.
Qed.

Lemma aligned_others (k : K) (us1 us2 : list upsert) :
  Forall2 aligned us1 us2 → Forall2 aligned (others k us1) (others k us2).
Proof.
  induction 1 as [|u1 u2 us1 us2 Hu _ IH]; [constructor|].
  unfold others. rewrite !filter_cons. destruct Hu as (Hk & Hb & Hd).
  rewrite <- Hk. destruct (decide (u_key u1 ≠ k)); [|exact IH].
  constructor; [by repeat split|exact IH].
Qed.

Lemma aligned_union_of (k : K) (us1 us2 : list upsert) :
  Forall2 aligned us1 us2 →
  dom (union_of (sets_for k us1)) ⊆ dom (union_of (sets_for k us2)).
Proof.
  induction 1 as [|u1 u2 us1 us2 Hu _ IH]; [done|].
  unfold sets_for. rewrite !filter_cons. destruct Hu as (Hk & Hb & Hd).
  rewrite <- Hk. destruct (decide (u_key u1 = k)); [|exact IH].
  rewrite !fmap_cons, !union_of_cons, !dom_union_L.
  apply union_mono; [exact IH|exact Hd].
Qed.

Lemma length_others k (us : list upsert) : length (others k us) ≤ length us.
Proof. apply length_filter. Qed.

Lemma absorb_nil n : ∀ us1 us2 : list upsert,
  length us1 ≤ n → Forall carries us1 → Forall carries us2 →
  Forall2 aligned us1 us2 →
  run_upserts us2 (run_upserts us1 []) = run_upserts us2 [].
Proof.
  induction n as [|n IH]; intros us1 us2 Hn H1 H2 Hal.
  { destruct Hal; [done|simpl in Hn; lia]. }
  destruct Hal as [|u1 u2 us1 us2 Hu Hal]; [done|].
  apply Forall_cons in H1 as [Hu1 H1]. apply Forall_cons in H2 as [Hu2 H2].
  rewrite (run_upserts_nil u1) by done. rewrite (run_upserts_nil u2) by done.
  rewrite run_upserts_cons by (by constructor).
  destruct Hu as (Hk & Hb & Hd). rewrite <- Hk.
  rewrite (key_apply_sets (u_key u1)); [| apply Hu1 | by apply carries_sets_for].
  f_equal.
  - replace (sets_for (u_key u1) (u2 :: us2))
      with (u_set u2 :: sets_for (u_key u1) us2).
    2:{ unfold sets_for. by rewrite filter_cons, decide_True. }
    change (apply_sets (u_set u2 :: ?l) ?d)
      with (apply_sets l (apply_set (u_set u2) d)).
    rewrite !apply_sets_union. unfold apply_set. rewrite <- Hb.
    apply absorb_union2; [by apply aligned_union_of|done].
  - unfold others at 1. rewrite filter_cons, decide_False by (intros Hne; by apply Hne).
    fold (others (u_key u1) us2). apply IH.
    + pose proof (length_others (u_key u1) us1). simpl in Hn. lia.
    + by apply carries_others.
    + by apply carries_others.
    + by apply aligned_others.
Qed.

(** A second round of aligned upserts absorbs the first. *)
Lemma run_upserts_absorb coll : ∀ us1 us2 : list upsert,
  Forall carries us1 → Forall carries us2 → Forall2 aligned us1 us2 →
  run_upserts us2 (run_upserts us1 coll) = run_upserts us2 coll.
Proof.
  induction coll as [|d rest IH]; intros us1 us2 H1 H2 Hal.
  { by apply (absorb_nil (length us1)). }
  rewrite (run_upserts_cons us1) by done.
  destruct (key_of d) as [k|] eqn:Hd.
  - rewrite !(run_upserts_cons us2) by done.
    rewrite (key_apply_sets k); [|done|by apply carries_sets_for]. rewrite Hd.
    f_equal.
    + rewrite !apply_sets_union. apply absorb_union. by apply aligned_union_of.
    + apply IH; [by apply carries_others..|by apply aligned_others].
  - rewrite !(run_upserts_cons us2) by done. rewrite Hd. f_equal. by apply IH.
Qed.
End KeyedProofs.

Lemma scalar_eqb_spec a b : scalar_eqb a b = bool_decide (a = b).
Proof.
  symmetry. destruct a as [x|x], b as [y|y]; cbn [scalar_eqb];
    try (apply bool_decide_eq_false_2; congruence);
    (destruct (String.eqb_spec x y) as [->|Hne];
       [by apply bool_decide_eq_true_2 | apply bool_decide_eq_false_2; congruence]).
Qed.

Lemma holds_spec d p v :
  holds d (p, Some v) = true ↔ to_scalar (get_path d p) = Some v.
Proof.
  unfold holds. cbn [fst snd]. destruct (to_scalar (get_path d p)) as [b|].
  - rewrite scalar_eqb_spec, bool_decide_eq_true. split; congruence.
  - split; discriminate.
Qed.

Lemma matches_key paths : ∀ vals d,
  length paths = length vals →
  matches (equality_filter paths vals) d = bool_decide (key_at paths d = Some vals).
Proof.
  unfold key_at, equality_filter. intros vals d Hlen.
  apply Bool.eq_iff_eq_true. rewrite bool_decide_eq_true, mapM_Some.
  revert vals Hlen. induction paths as [|p paths IH]; intros [|v vals] Hlen;
    try discriminate.
  { split; [constructor|done]. }
  injection Hlen as Hlen. rewrite Forall2_cons, <- (IH vals Hlen), <- holds_spec.
  cbn [fmap list_fmap zip zip_with matches forallb]. apply andb_true_iff.
Qed.

Lemma update_first_ext p q g coll :
  (∀ d, p d = q d) → update_first p g coll = update_first q g coll.
Proof.
  intros Hpq. induction coll as [|d rest IH]; [done|]. simpl. by rewrite Hpq, IH.
Qed.

Lemma updateOne_as_upsert paths vals set coll :
  length paths = length vals →
  updateOne_set_upsert (equality_filter paths vals) set coll
  = run_upsert (key_at paths) (as_upsert paths vals set) coll.
Proof.
  intros Hlen. unfold updateOne_set_upsert, run_upsert, as_upsert. cbn.
  rewrite (update_first_ext _ (has_key (key_at paths) vals)); [done|].
  intros d. by apply matches_key.
Qed.

Lemma get_path_union (set d : doc) k rest :
  is_Some (set !! k) → get_path (set ∪ d) (k :: rest) = get_path set (k :: rest).
Proof.
  intros [v Hv]. destruct rest; cbn [get_path];
    by rewrite (lookup_union_Some_l _ _ _ _ Hv), Hv.
Qed.

Lemma campaign_filter_eq sid stat g c :
  stat !! "groupings" = Some (VObj g) → to_scalar (g !! "campaign_id") = Some c →
  stat_campaign_id stat = Fulfilled (Some c)
  ∧ scalar_at stat ["groupings"; "campaign_id"] = c
  ∧ campaign_filter sid (Some c) = equality_filter CAMPAIGN_KEY [SOid sid; c].
Proof.
  intros Hg Hc. unfold stat_campaign_id, scalar_at. cbn [get_path].
  rewrite Hg, Hc. by repeat split.
Qed.

Lemma carries_campaign sid pid stat :
  keyed_campaign stat → carries (key_at CAMPAIGN_KEY) (campaign_upsert sid pid stat).
Proof.
  intros (g & c & Hg & Hc) d.
  destruct (campaign_filter_eq sid stat g c Hg Hc) as (_ & Hsc & _).
  unfold campaign_upsert, as_upsert. cbn [u_set u_key]. rewrite Hsc.
  unfold key_at, apply_set. apply mapM_Some_2. unfold CAMPAIGN_KEY, campaign_set.
  repeat constructor.
  - rewrite get_path_union by (rewrite lookup_insert_ne, lookup_insert_eq; eauto || done).
    cbn [get_path]. by rewrite lookup_insert_ne, lookup_insert_eq.
  - rewrite get_path_union.
    2:{ rewrite !lookup_insert_ne by done. rewrite Hg. eauto. }
    cbn [get_path]. rewrite !lookup_insert_ne by done. by rewrite Hg.
Qed.

Lemma upsertCampaignStats_run sid pid env : ∀ merged w,
  Forall keyed_campaign merged →
  ∃ w', upsertCampaignStats merged sid pid env w = (Fulfilled tt, w')
    ∧ campaign_stats w'
      = run_upserts (key_at CAMPAIGN_KEY) (campaign_upsert sid pid <$> merged)
          (campaign_stats w)
    ∧ stores w' = stores w ∧ users w' = users w ∧ flow_stats w' = flow_stats w
    ∧ calls w' = calls w ∧ ticks w' = ticks w.
Proof.
  unfold upsertCampaignStats.
  induction merged as [|stat merged IH]; intros w Hk.
  { exists w. by repeat split. }
  apply Forall_cons in Hk as [(g & c & Hg & Hc) Hk].
  destruct (campaign_filter_eq sid stat g c Hg Hc) as (Hid & Hsc & Hf).
  cbn [for_each]. unfold bind at 1. rewrite bind_run, Hid. cbn [await modify].
  match goal with |- context [for_each ?f merged env ?w1] =>
    destruct (IH w1 Hk) as (w' & Hrun & Hcs & Hs & Hu & Hfl & Hca & Ht) end.
  rewrite Hrun. exists w'. split; [done|]. rewrite Hcs, Hs, Hu, Hfl, Hca, Ht.
  cbn [set_campaign_stats campaign_stats stores users flow_stats calls ticks].
  split; [|by repeat split].
  rewrite fmap_cons, run_upserts_step. f_equal.
  rewrite Hf, updateOne_as_upsert by done. unfold campaign_upsert. by rewrite Hsc.
Qed.

Lemma flow_filter_eq sid stat :
  keyed_flow stat →
  flow_filter sid stat
  = equality_filter FLOW_KEY
      [SOid sid; scalar_at stat ["flow_id"]; scalar_at stat ["flow_message_id"];
       scalar_at stat ["send_channel"]].
Proof.
  intros ([a Ha] & [b Hb] & [c Hc]). unfold flow_filter, scalar_at.
  cbn [get_path]. by rewrite Ha, Hb, Hc.
Qed.

Lemma carries_flow sid pid stat now :
  keyed_flow stat → carries (key_at FLOW_KEY) (flow_upsert sid pid stat now).
Proof.
  intros ([a Ha] & [b Hb] & [c Hc]) d.
  unfold flow_upsert, as_upsert, scalar_at. cbn [u_set u_key get_path].
  rewrite Ha, Hb, Hc. cbn [default].
  unfold key_at, apply_set. apply mapM_Some_2. unfold FLOW_KEY, flow_set.
  assert (Hsome : ∀ k v, to_scalar (stat !! k) = Some v → is_Some (stat !! k)).
  { intros k v Hv. destruct (stat !! k); [eauto|discriminate]. }
  repeat constructor.
  - rewrite get_path_union by (rewrite !lookup_insert_ne by done; rewrite lookup_insert_eq; eauto).
    cbn [get_path]. rewrite !lookup_insert_ne by done. by rewrite lookup_insert_eq.
  - rewrite get_path_union by (rewrite !lookup_insert_ne by done; eauto).
    cbn [get_path]. by rewrite !lookup_insert_ne by done.
  - rewrite get_path_union by (rewrite !lookup_insert_ne by done; eauto).
    cbn [get_path]. by rewrite !lookup_insert_ne by done.
  - rewrite get_path_union by (rewrite !lookup_insert_ne by done; eauto).
    cbn [get_path]. by rewrite !lookup_insert_ne by done.
Qed.

Lemma upsertFlowStats_run sid pid env : ∀ merged w,
  Forall keyed_flow merged →
  ∃ w', upsertFlowStats merged sid pid env w = (Fulfilled tt, w')
    ∧ flow_stats w'
      = run_upserts (key_at FLOW_KEY)
          (flow_upserts (clock env) (ticks w) sid pid merged) (flow_stats w)
    ∧ stores w' = stores w ∧ users w' = users w
    ∧ campaign_stats w' = campaign_stats w
    ∧ calls w' = calls w ∧ ticks w' = ticks w + length merged.
Proof.
  unfold upsertFlowStats.
  induction merged as [|stat merged IH]; intros w Hk.
  { exists w. by repeat split. }
  apply Forall_cons in Hk as [Hstat Hk].
  cbn [for_each]. unfold bind at 1. rewrite bind_run. cbn [Date_now modify].
  match goal with |- context [for_each ?f merged env ?w1] =>
    destruct (IH w1 Hk) as (w' & Hrun & Hfs & Hs & Hu & Hcs & Hca & Ht) end.
  rewrite Hrun. exists w'. split; [done|]. rewrite Hfs, Hs, Hu, Hcs, Hca, Ht.
  cbn [set_flow_stats tick campaign_stats stores users flow_stats calls ticks].
  split; [|repeat split; try done; simpl; lia].
  cbn [flow_upserts]. rewrite run_upserts_step. f_equal.
  rewrite (flow_filter_eq _ _ Hstat), updateOne_as_upsert by done. reflexivity.
Qed.

Lemma carries_flow_upserts clk sid pid : ∀ merged t,
  Forall keyed_flow merged →
  Forall (carries (key_at FLOW_KEY)) (flow_upserts clk t sid pid merged).
Proof.
  induction merged as [|stat merged IH]; intros t Hk; [constructor|].
  apply Forall_cons in Hk as [Hstat Hk]. constructor; [by apply carries_flow|by apply IH].
Qed.

Lemma aligned_flow_upserts clk1 clk2 sid pid : ∀ merged t1 t2,
  Forall2 aligned (flow_upserts clk1 t1 sid pid merged)
                  (flow_upserts clk2 t2 sid pid merged).
Proof.
  induction merged as [|stat merged IH]; intros t1 t2; [constructor|].
  constructor; [|apply IH]. repeat split. cbn [flow_upsert as_upsert u_set].
  unfold flow_set. by rewrite !dom_insert_L.
Qed.

Lemma aligned_refl {K} (us : list (@upsert K)) : Forall2 aligned us us.
Proof. induction us; constructor; [by repeat split|done]. Qed.

Lemma base_lookup_other_keys fm tm stat :
  flow_base_record fm tm stat !! "flow_id" = Some (VStr (fg_flow_id (fr_groupings stat)))
  ∧ flow_base_record fm tm stat !! "flow_message_id"
    = Some (VStr (fg_flow_message_id (fr_groupings stat)))
  ∧ flow_base_record fm tm stat !! "send_channel"
    = Some (VStr (fg_send_channel (fr_groupings stat))).
Proof. by repeat split. Qed.

Lemma keyed_merged_flows results flows tags defs :
  Forall keyed_flow
    (mergeFlowStatsWithMeta results flows tags (buildMessageDetailsMap defs)).
Proof.
  unfold mergeFlowStatsWithMeta. apply Forall_fmap, Forall_forall. intros stat _.
  unfold keyed_flow. cbn [compose].
  rewrite !merged_flow_lookup_base by elem_decide.
  destruct (base_lookup_other_keys
              (foldl (λ m f, <[flow_id_ f:=f]> m) ∅ flows) (add_names ∅ tags) stat)
    as (-> & -> & ->).
  cbn. eauto.
Qed.

Lemma keyed_merged_campaigns results campaigns sms segments lists tags :
  Forall keyed_campaign
    (mergeCampaignStatsWithMeta results campaigns sms segments lists tags).
Proof.
  unfold mergeCampaignStatsWithMeta. apply Forall_fmap, Forall_forall. intros r _.
  eexists _, _. split; reflexivity.
Qed.

Lemma updateOne_existing f set : ∀ coll i d,
  coll !! i = Some d → matches f d = true →
  (∀ j d', j < i → coll !! j = Some d' → matches f d' = false) →
  updateOne_set_upsert f set coll = <[ i := apply_set set d ]> coll.
Proof.
  unfold updateOne_set_upsert.
  induction coll as [|x rest IH]; intros i d Hi Hm Hfirst; [done|].
  cbn [update_first]. destruct i as [|i].
  - injection Hi as ->. by rewrite Hm.
  - rewrite (Hfirst 0 x) by (done || lia). cbn in Hi.
    assert (IH' := IH i d Hi Hm
              (λ j d' Hj Hd', Hfirst (S j) d' (proj1 (Nat.succ_lt_mono j i) Hj) Hd')).
    destruct (update_first (matches f) (apply_set set) rest) as [rest'|];
      cbn; f_equal; exact IH'.
Qed.

Lemma apply_set_lookup set d k :
  apply_set set d !! k = match set !! k with Some v => Some v | None => d !! k end.
Proof. unfold apply_set. rewrite lookup_union. by destruct (set !! k), (d !! k). Qed.

Section KeyedLookup.
Context {K : Type} `{EqDecision K}.
Variable key_of : doc → option K.

Lemma sets_for_others (k k0 : K) (us : list (@upsert K)) :
  k ≠ k0 → sets_for k (others k0 us) = sets_for k us.
Proof.
  intros Hne. unfold sets_for, others. f_equal.
  induction us as [|u us IH]; [done|].
  rewrite !filter_cons. destruct (decide (u_key u ≠ k0)) as [Hk|Hk].
  - rewrite filter_cons. destruct (decide (u_key u = k)); by rewrite IH.
  - rewrite decide_False; [exact IH|]. intros Hu. apply Hk. congruence.
Qed.

(** What a sequence of upserts leaves in the first stored record of a key. *)
Lemma run_upserts_lookup : ∀ coll us i d k,
  Forall (carries key_of) us →
  coll !! i = Some d → key_of d = Some k →
  (∀ j d0, j < i → coll !! j = Some d0 → key_of d0 ≠ Some k) →
  run_upserts key_of us coll !! i = Some (apply_sets (sets_for k us) d).
Proof.
  induction coll as [|x rest IH]; intros us i d k Hus Hi Hd Hfirst; [done|].
  rewrite run_upserts_cons by done. destruct i as [|i].
  - injection Hi as ->. by rewrite Hd.
  - cbn in Hi.
    assert (Hx : key_of x ≠ Some k) by (apply (Hfirst 0 x); [lia|done]).
    assert (Hrest : ∀ j d0, j < i → rest !! j = Some d0 → key_of d0 ≠ Some k).
    { intros j d0 Hj Hd0. apply (Hfirst (S j) d0); [lia|done]. }
    destruct (key_of x) as [k0|] eqn:Hkx; cbn.
    + rewrite (IH (others k0 us) i d k); [ |by apply carries_others|done..].
      rewrite sets_for_others; [done|congruence].
    + by apply IH.
Qed.

Lemma sets_for_filter (P : doc → Prop) `{∀ s, Decision (P s)} (k : K)
    (us : list (@upsert K)) :
  Forall (λ u, u_key u = k ↔ P (u_set u)) us →
  sets_for k us = filter P (u_set <$> us).
Proof.
  unfold sets_for. induction 1 as [|u us Hu _ IH]; [done|].
  rewrite fmap_cons, !filter_cons.
  destruct (decide (u_key u = k)) as [Hk|Hk].
  - rewrite decide_True by (by apply Hu). by rewrite fmap_cons, IH.
  - rewrite decide_False by (by rewrite <- Hu). exact IH.
Qed.
End KeyedLookup.

Lemma apply_sets_written sets : ∀ d f,
  apply_sets sets d !! f = written sets f (d !! f).
Proof.
  unfold apply_sets, written.
  induction sets as [|s sets IH]; intros d f; [done|].
  cbn [foldl]. rewrite IH. f_equal. apply apply_set_lookup.
Qed.

Lemma campaign_key_at sid c d :
  key_at CAMPAIGN_KEY d = Some [SOid sid; c] ↔ campaign_key_is sid c d.
Proof.
  unfold key_at, CAMPAIGN_KEY, campaign_key_is. rewrite mapM_Some.
  split.
  - intros H. apply Forall2_cons_1 in H as [H1 H].
    apply Forall2_cons_1 in H as [H2 _]. done.
  - intros [H1 H2]. by repeat constructor.
Qed.

Lemma flow_key_at sid a b c d :
  key_at FLOW_KEY d = Some [SOid sid; a; b; c] ↔ flow_key_is sid a b c d.
Proof.
  unfold key_at, FLOW_KEY, flow_key_is. rewrite mapM_Some.
  split.
  - intros H. apply Forall2_cons_1 in H as [H1 H].
    apply Forall2_cons_1 in H as [H2 H]. apply Forall2_cons_1 in H as [H3 H].
    apply Forall2_cons_1 in H as [H4 _]. done.
  - intros (H1 & H2 & H3 & H4). by repeat constructor.
Qed.

Lemma campaign_sets_upserts sid pid merged :
  u_set <$> (campaign_upsert sid pid <$> merged) = campaign_sets sid pid merged.
Proof. unfold campaign_sets. rewrite <- list_fmap_compose. reflexivity. Qed.

Lemma flow_sets_upserts clk sid pid : ∀ merged t,
  u_set <$> flow_upserts clk t sid pid merged = flow_sets clk t sid pid merged.
Proof.
  unfold flow_sets. induction merged as [|stat merged IH]; intros t; [done|].
  cbn [flow_upserts]. rewrite fmap_cons, imap_cons, IH, Nat.add_0_r. f_equal.
  apply imap_ext. intros j x _. cbn. by rewrite Nat.add_succ_r.
Qed.

Lemma carries_key {K} (key_of : doc → option K) (u : @upsert K) k :
  carries key_of u → u_key u = k ↔ key_of (u_set u) = Some k.
Proof.
  intros Hu. specialize (Hu ∅). unfold apply_set in Hu.
  rewrite (right_id_L ∅ (∪)) in Hu. rewrite Hu. split; congruence.
Qed.

Lemma campaign_stats_lookup sid pid env w merged i d c :
  Forall keyed_campaign merged →
  campaign_stats w !! i = Some d → campaign_key_is sid c d →
  (∀ j d0, j < i → campaign_stats w !! j = Some d0 → ¬ campaign_key_is sid c d0) →
  ∃ d', campaign_stats (upsertCampaignStats merged sid pid env w).2 !! i = Some d'
    ∧ ∀ f, d' !! f
           = written (filter (campaign_key_is sid c) (campaign_sets sid pid merged))
               f (d !! f).
Proof.
  intros Hk Hi Hd Hfirst.
  destruct (upsertCampaignStats_run sid pid env merged w Hk) as (w' & Hrun & Hcoll & _).
  rewrite Hrun. cbn [snd]. rewrite Hcoll.
  assert (Hc : Forall (carries (key_at CAMPAIGN_KEY)) (campaign_upsert sid pid <$> merged)).
  { apply Forall_fmap. eapply Forall_impl; [exact Hk|]. intros stat. apply carries_campaign. }
  eexists. split.
  - apply (run_upserts_lookup _ _ _ i d [SOid sid; c]); [done|done|by apply campaign_key_at|].
    intros j d0 Hj Hd0. rewrite campaign_key_at. by apply (Hfirst j).
  - intros f. rewrite apply_sets_written. f_equal.
    rewrite (sets_for_filter (campaign_key_is sid c)), campaign_sets_upserts; [done|].
    eapply Forall_impl; [exact Hc|]. intros u Hu. cbn beta.
    rewrite (carries_key _ _ _ Hu). apply campaign_key_at.
Qed.

Lemma flow_stats_lookup sid pid env w merged i d a b c :
  Forall keyed_flow merged →
  flow_stats w !! i = Some d → flow_key_is sid a b c d →
  (∀ j d0, j < i → flow_stats w !! j = Some d0 → ¬ flow_key_is sid a b c d0) →
  ∃ d', flow_stats (upsertFlowStats merged sid pid env w).2 !! i = Some d'
    ∧ ∀ f, d' !! f
           = written (filter (flow_key_is sid a b c)
                        (flow_sets (clock env) (ticks w) sid pid merged))
               f (d !! f).
Proof.
  intros Hk Hi Hd Hfirst.
  destruct (upsertFlowStats_run sid pid env merged w Hk) as (w' & Hrun & Hcoll & _).
  rewrite Hrun. cbn [snd]. rewrite Hcoll.
  pose proof (carries_flow_upserts (clock env) sid pid merged (ticks w) Hk) as Hc.
  eexists. split.
  - apply (run_upserts_lookup _ _ _ i d [SOid sid; a; b; c]); [done|done|by apply flow_key_at|].
    intros j d0 Hj Hd0. rewrite flow_key_at. by apply (Hfirst j).
  - intros f. rewrite apply_sets_written. f_equal.
    rewrite (sets_for_filter (flow_key_is sid a b c)), flow_sets_upserts; [done|].
    eapply Forall_impl; [exact Hc|]. intros u Hu. cbn beta.
    rewrite (carries_key _ _ _ Hu). apply flow_key_at.
Qed.




(** * Further properties of the code *)

(** ** The rate-limited fetchers *)

Lemma slice_queue {A} (xs : list A) i n : slice xs i (i + n) = take n (drop i xs).
Proof. unfold slice. f_equal. lia. Qed.

Lemma slice_take {A} (xs : list A) n : slice xs 0 n = take n xs.
Proof. unfold slice. rewrite drop_0. f_equal. lia. Qed.

(** Requeueing after a cut of a full batch: the queue loses exactly the
    ids that were fetched. *)
Lemma requeue_full {A} (arr : list A) i eff b :
  eff < b → b ≤ length (drop i arr) →
  drop (i + b)
    (splice_insert arr (i + eff) (drop eff (take b (drop i arr))))
  = drop eff (drop i arr).
Proof.
  intros Heff Hlen. rewrite length_drop in Hlen. unfold splice_insert.
  rewrite drop_app_ge; rewrite length_take; [|lia].
  replace (i + b - (i + eff) `min` length arr) with (b - eff) by lia.
  rewrite drop_app_ge; rewrite length_drop, length_take, length_drop; [|lia].
  replace (b - eff - (b `min` (length arr - i) - eff)) with 0 by lia.
  by rewrite drop_0, drop_drop.
Qed.

(** Requeueing after a cut of a short batch leaves nothing from the next
    index on. *)
Lemma requeue_short {A} (arr : list A) i eff b :
  1 ≤ eff → eff < length (drop i arr) → length (drop i arr) < b →
  2 * length (drop i arr) ≤ b + eff →
  drop (i + b)
    (splice_insert arr (i + eff) (drop eff (take b (drop i arr)))) = [].
Proof.
  intros H1 Heff Hlen H2. apply drop_ge.
  rewrite length_drop in *. unfold splice_insert.
  rewrite !length_app, length_take, !length_drop, length_take, length_drop.
  lia.
Qed.

Lemma same_db_log_calls rs w : same_db w (log_calls rs w).
Proof.
  revert w. induction rs as [|r rs IH]; intros w; [apply same_db_refl|].
  rewrite log_calls_cons. eapply same_db_trans; [|apply IH]. by repeat split.
Qed.

Lemma same_db_tick w : same_db w (tick w).
Proof. by repeat split. Qed.

(** The loop with the default batch size of three: it requests the ids of
    the queue in order, all of them or all but the last. *)
Lemma getFlowDefinitions_loop_prefix opts startTime env :
  ∀ fuel st w, length (queue_of st) ≤ fuel →
    ∃ requested w',
      getFlowDefinitions_loop fuel 3 opts startTime st env w
      = (Fulfilled (ls_results st ++ omap id (served env opts <$> requested)), w')
      ∧ calls w' = calls w ++ (definition_request opts <$> requested)
      ∧ same_db w w'
      ∧ (requested = queue_of st ∨ ∃ last, queue_of st = requested ++ [last]).
Proof.
  induction fuel as [|fuel IH]; intros st w Hfuel.
  { exists [], w. unfold queue_of in *. rewrite length_drop in Hfuel.
    rewrite getFlowDefinitions_loop_exit by lia.
    rewrite drop_ge by lia. rewrite !app_nil_r.
    split; [reflexivity|]. split; [done|].
    split; [apply same_db_refl|by left]. }
  destruct (Nat.le_gt_cases (length (ls_flowIds st)) (ls_i st)) as [Hi|Hi].
  { exists [], w. unfold queue_of.
    rewrite getFlowDefinitions_loop_exit by lia.
    rewrite drop_ge by lia. rewrite !app_nil_r.
    split; [reflexivity|]. split; [done|].
    split; [apply same_db_refl|by left]. }
  rewrite getFlowDefinitions_loop_pass by lia.
  rewrite bind_run, getFlowDefinitions_step_run. cbv zeta.
  rewrite slice_queue, slice_take. fold (queue_of st).
  set (queue := queue_of st) in *.
  set (batch := take 3 queue).
  set (eff := effectiveBatchSize _ _ _).
  set (w1 := tick (log_calls _ _)).
  assert (Hq : 1 ≤ length queue).
  { subst queue. unfold queue_of. rewrite length_drop. lia. }
  assert (Hb : length batch = 3 `min` length queue) by apply length_take.
  assert (Heff : 1 ≤ eff).
  { subst eff. apply effectiveBatchSize_pos. lia. }
  assert (Hw1 : calls w1 = calls w ++ (definition_request opts <$> take eff batch)
                ∧ same_db w w1).
  { subst w1. split.
    - cbn [tick calls]. by rewrite (proj2 (log_calls_fields _ _)).
    - eapply same_db_trans; [|apply same_db_tick].
      eapply same_db_trans; [|apply same_db_log_calls].
      eapply same_db_trans; apply same_db_tick. }
  destruct Hw1 as [Hcalls Hdb].
  match goal with |- context [getFlowDefinitions_loop fuel 3 opts startTime ?s env w1] =>
    set (st' := s) end.
  (* the queue of the next pass, the ids of this pass, and what may be lost *)
  assert (Hnext : ∃ lost,
            queue = take eff batch ++ queue_of st' ++ lost
            ∧ (lost = [] ∨ queue_of st' = [] ∧ ∃ last, lost = [last])).
  { subst st'. unfold queue_of at 1 2. cbn [ls_i ls_flowIds].
    destruct (Nat.ltb_spec eff (length batch)) as [Hcut|Hfull].
    - destruct (Nat.le_gt_cases 3 (length queue)) as [H3|H3].
      + exists []. assert (eff < 3) by lia.
        subst batch queue. unfold queue_of in *.
        rewrite requeue_full by lia.
        rewrite take_take, Nat.min_l by lia.
        rewrite app_nil_r, take_drop. by split; [|left].
      + assert (length queue = 2 ∧ eff = 1) as [H2 ->] by lia.
        subst batch queue. unfold queue_of in *.
        rewrite requeue_short by lia.
        destruct (drop (ls_i st) (ls_flowIds st)) as [|q0 [|q1 [|??]]];
          try discriminate.
        exists [q1]. split; [reflexivity|]. right. eauto.
    - exists []. subst batch. rewrite take_ge by lia.
      rewrite app_nil_r. subst queue. unfold queue_of.
      rewrite <- drop_drop, take_drop. by split; [|left]. }
  destruct Hnext as (lost & Hsplit & Hlost).
  destruct (IH st' w1) as (requested & w' & Hrun & Hcalls' & Hdb' & Hreq).
  { apply (f_equal length) in Hsplit. rewrite !length_app, length_take in Hsplit.
    lia. }
  exists (take eff batch ++ requested), w'. rewrite Hrun.
  split; [|split; [|split]].
  - subst st'. cbn [ls_results]. by rewrite fmap_app, omap_app, app_assoc.
  - by rewrite Hcalls', Hcalls, fmap_app, app_assoc.
  - by eapply same_db_trans.
  - rewrite Hsplit. destruct Hlost as [->|[Hnil [last ->]]].
    + rewrite app_nil_r. destruct Hreq as [->|[last ->]]; [by left|right].
      exists last. by rewrite app_assoc.
    + rewrite Hnil in *. destruct Hreq as [->|[l Hl]].
      * right. exists last. by rewrite app_nil_r.
      * by destruct requested.
Qed.

Lemma getFlowDefinitions_run_prefix flowIds opts env w :
  ∃ requested w',
    getFlowDefinitions flowIds opts no_options env w
    = (Fulfilled (omap id (served env opts <$> requested)), w')
    ∧ calls w' = calls w ++ (definition_request opts <$> requested)
    ∧ same_db w w'
    ∧ (requested = flowIds ∨ ∃ last, flowIds = requested ++ [last]).
Proof.
  unfold getFlowDefinitions. rewrite bind_run. cbn [Date_now]. rewrite bind_run.
  cbn [no_options maxBurst default].
  edestruct (getFlowDefinitions_loop_prefix opts (clock env (ticks w)) env
               (length flowIds)
               {| ls_flowIds := flowIds; ls_i := 0; ls_totalRequests := 0;
                  ls_results := [] |} (tick w))
    as (requested & w' & -> & Hcalls & Hdb & Hreq).
  { unfold queue_of. cbn [ls_i ls_flowIds]. by rewrite drop_0. }
  rewrite bind_run. cbn [Date_now ret]. exists requested, (tick w').
  cbn [ls_results]. rewrite app_nil_l. split; [reflexivity|].
  split; [exact Hcalls|]. split.
  - eapply same_db_trans; [apply same_db_tick|].
    eapply same_db_trans; [exact Hdb|apply same_db_tick].
  - exact Hreq.
Qed.

(** X1. With the default options [getFlowDefinitions] settles for every
    list of ids, every upstream and every clock.  It asks for the ids in
    order, each once, and stops either after the last id or one id short of
    it; the result holds the definitions upstream served for the ids asked
    for, in order; a failing request costs its own entry only; and nothing
    is written to the stored collections. *)
Theorem getFlowDefinitions_requests_a_prefix flowIds opts env w :
  ∃ requested w',
    getFlowDefinitions flowIds opts no_options env w
    = (Fulfilled (omap id (served env opts <$> requested)), w')
    ∧ calls w' = calls w ++ (definition_request opts <$> requested)
    ∧ stores w' = stores w ∧ users w' = users w
    ∧ campaign_stats w' = campaign_stats w ∧ flow_stats w' = flow_stats w
    ∧ (requested = flowIds ∨ ∃ last, flowIds = requested ++ [last])
    ∧ length requested ≤ length flowIds.
Proof.
  destruct (getFlowDefinitions_run_prefix flowIds opts env w)
    as (requested & w' & Hrun & Hcalls & (Hs & Hu & Hc & Hf) & Hreq).
  exists requested, w'. split; [exact Hrun|]. split; [exact Hcalls|].
  do 4 (split; [assumption|]). split; [exact Hreq|].
  destruct Hreq as [->|[last ->]]; [done|].
  rewrite length_app. simpl. lia.
Qed.

Lemma effectiveBatchSize_first_pass ms n :
  (ms < 10000)%Z → n ≤ 3 → effectiveBatchSize ms 0 n = n.
Proof.
  intros Hms Hn. rewrite effectiveBatchSize_ms. unfold effective_ms. cbv zeta.
  destruct (Z.ltb_spec (Z.min 30000 (3 * Z.max 1000 ms)) (1000 * Z.of_nat (0 + n)));
    [lia|].
  cbn [andb]. destruct (Z.leb_spec 10000 ms); [lia|reflexivity].
Qed.

(** X2. A list of at most three ids is asked for in full, in one pass,
    when the first reading of the elapsed time is under ten seconds. *)
Theorem getFlowDefinitions_small_list_complete flowIds opts env w :
  length flowIds ≤ 3 →
  (clock env (2 + ticks w) - clock env (ticks w) < 10000)%Z →
  ∃ w', getFlowDefinitions flowIds opts no_options env w
        = (Fulfilled (omap id (served env opts <$> flowIds)), w')
    ∧ calls w' = calls w ++ (definition_request opts <$> flowIds).
Proof.
  intros Hlen Hms. unfold getFlowDefinitions. rewrite bind_run. cbn [Date_now].
  rewrite bind_run. cbn [no_options maxBurst default].
  destruct flowIds as [|f0 rest].
  { rewrite getFlowDefinitions_loop_exit by (cbn; lia).
    cbn [ret ls_results]. rewrite bind_run. cbn [Date_now ret fmap list_fmap omap list_omap].
    eexists. split; [reflexivity|]. cbn [tick calls]. by rewrite app_nil_r. }
  change (length (f0 :: rest)) with (S (length rest)) at 1.
  rewrite getFlowDefinitions_loop_pass by (cbn; lia).
  rewrite bind_run, getFlowDefinitions_step_run. cbv zeta.
  cbn [ls_i ls_flowIds ls_totalRequests ls_results tick ticks].
  rewrite slice_queue, drop_0, take_ge by lia.
  change (S (S (ticks w))) with (2 + ticks w).
  rewrite (effectiveBatchSize_first_pass _ _ Hms Hlen).
  rewrite Nat.ltb_irrefl, slice_take, firstn_all.
  rewrite getFlowDefinitions_loop_exit by (cbn [ls_i ls_flowIds]; lia).
  cbn [ret ls_results]. rewrite bind_run. cbn [Date_now ret].
  eexists. split; [by rewrite app_nil_l|].
  cbn [tick calls]. by rewrite (proj2 (log_calls_fields _ _)).
Qed.

Lemma klaviyoGet_caught {A} (view : Service → Request → Reply A) ep opts env w :
  try_catch (response ← klaviyoGet view ep opts; ret (Some response))
            (λ _, ret None) env w
  = (Fulfilled (match view (service env) (get_request ep opts) with
                | HttpOk json => Some json
                | _ => None
                end),
     log_call (get_request ep opts) w).
Proof.
  unfold try_catch, klaviyoGet, klaviyoRequest. rewrite !bind_run.
  cbn [fetch]. fold (get_request ep opts). by destruct (view _ _).
Qed.

Lemma flows_batch_run {A} (view : Service → Request → Reply A) opts env :
  ∀ ids w,
    map_all (λ flowId,
               try_catch
                 (response ← klaviyoGet view ("flows/" +:+ flowId) opts;
                  ret (Some response))
                 (λ _, ret None)) ids env w
    = (Fulfilled (flow_served view env opts <$> ids),
       log_calls (flow_request opts <$> ids) w).
Proof.
  induction ids as [|i ids IH]; intros w; [reflexivity|].
  cbn [map_all]. unfold bind at 1. rewrite klaviyoGet_caught.
  unfold bind. rewrite IH. reflexivity.
Qed.

Lemma log_calls_app rs1 rs2 w :
  log_calls (rs1 ++ rs2) w = log_calls rs2 (log_calls rs1 w).
Proof. unfold log_calls. by rewrite foldl_app. Qed.

Lemma getFlowsWithRateLimit_loop_run {A} (view : Service → Request → Reply A)
    maxConcurrent opts env flowIds :
  1 ≤ maxConcurrent →
  ∀ fuel i results w, length flowIds - i ≤ fuel →
    getFlowsWithRateLimit_loop view fuel maxConcurrent opts flowIds i results env w
    = (Fulfilled (results ++ omap id (flow_served view env opts <$> drop i flowIds)),
       log_calls (flow_request opts <$> drop i flowIds) w).
Proof.
  intros Hc. induction fuel as [|fuel IH]; intros i results w Hfuel.
  - cbn [getFlowsWithRateLimit_loop].
    destruct (Nat.ltb_spec i (length flowIds)); [lia|].
    rewrite drop_ge by lia. by rewrite app_nil_r.
  - cbn [getFlowsWithRateLimit_loop].
    destruct (Nat.ltb_spec i (length flowIds)) as [Hi|Hi].
    2:{ rewrite drop_ge by lia. by rewrite app_nil_r. }
    rewrite bind_run, flows_batch_run, IH by lia.
    unfold slice. replace (i + maxConcurrent - i) with maxConcurrent by lia.
    rewrite <- (take_drop maxConcurrent (drop i flowIds)) at 3 4.
    rewrite drop_drop, !fmap_app, omap_app, log_calls_app, app_assoc.
    reflexivity.
Qed.

Lemma getFlowDefinitions_small_list_complete_witness :
  length ["f1"; "f2"] ≤ 3
  ∧ ∃ w', getFlowDefinitions ["f1"; "f2"] Scenario.opts no_options
            Scenario.five_flows_env Scenario.empty_world
          = (Fulfilled (omap id (served Scenario.five_flows_env Scenario.opts
                                   <$> ["f1"; "f2"])), w')
      ∧ calls w'
        = calls Scenario.empty_world
          ++ (definition_request Scenario.opts <$> ["f1"; "f2"]).
Proof.
  assert (Hlen : length ["f1"; "f2"] ≤ 3) by (simpl; lia).
  split; [exact Hlen|].
  apply (getFlowDefinitions_small_list_complete ["f1"; "f2"] Scenario.opts
           Scenario.five_flows_env Scenario.empty_world Hlen).
  vm_compute. reflexivity.
Defined.


Lemma getFlowsWithRateLimit_loop_zero {A} (view : Service → Request → Reply A)
    opts env flowIds i :
  i < length flowIds →
  ∀ fuel results w,
    getFlowsWithRateLimit_loop view fuel 0 opts flowIds i results env w
    = (Pending, w).
Proof.
  intros Hi. induction fuel as [|fuel IH]; intros results w;
    cbn [getFlowsWithRateLimit_loop];
    destruct (Nat.ltb_spec i (length flowIds)); try lia; [reflexivity|].
  rewrite bind_run. unfold slice. replace (i + 0 - i) with 0 by lia.
  rewrite take_0. cbn [map_all ret]. rewrite Nat.add_0_r. apply IH.
Qed.


(** X5. A batch size of 0 never advances over a list that is not empty:
    no request is sent and the promise never settles, however many passes
    are allowed. *)
Theorem getFlowsWithRateLimit_zero_never_settles {A}
    (view : Service → Request → Reply A) flowIds opts env w :
  flowIds ≠ [] →
  (∀ fuel results,
     getFlowsWithRateLimit_loop view fuel 0 opts flowIds 0 results env w
     = (Pending, w))
  ∧ getFlowsWithRateLimit view flowIds opts {| maxConcurrent := Some 0 |} env w
    = (Pending, w).
Proof.
  intros Hne.
  assert (0 < length flowIds) by (destruct flowIds; [done|cbn; lia]).
  split; [intros; by apply getFlowsWithRateLimit_loop_zero|].
  unfold getFlowsWithRateLimit. by apply getFlowsWithRateLimit_loop_zero.
Qed.


Lemma getFlowsWithRateLimit_zero_never_settles_witness :
  let env := Scenario.runtime Scenario.soon Scenario.definitions_service in
  ["f1"] ≠ []
  ∧ (∀ fuel results,
       getFlowsWithRateLimit_loop sv_flow_definition fuel 0 Scenario.opts ["f1"]
         0 results env Scenario.empty_world
       = (Pending, Scenario.empty_world))
  ∧ getFlowsWithRateLimit sv_flow_definition ["f1"] Scenario.opts
      {| maxConcurrent := Some 0 |} env Scenario.empty_world
    = (Pending, Scenario.empty_world).
Proof.
  intros env. assert (Hne : ["f1"] ≠ @nil string) by discriminate.
  split; [exact Hne|].
  exact (getFlowsWithRateLimit_zero_never_settles sv_flow_definition ["f1"]
           Scenario.opts env Scenario.empty_world Hne).
Defined.

(** ** The report client *)

Lemma klaviyoPost_run {R} (view : Service → Request → Reply R) u payload opts env w :
  klaviyoPost view u payload opts env w =
  (match view (service env) (post_request u payload opts) with
   | HttpOk json => Fulfilled json
   | HttpNotOk status text => Rejected (KlaviyoApiError status text)
   | FetchFailed msg => Rejected (FetchTypeError msg)
   end, log_call (post_request u payload opts) w).
Proof.
  unfold klaviyoPost, klaviyoRequest. rewrite bind_run. cbn [fetch].
  fold (post_request u payload opts). by destruct (view _ _).
Qed.

Lemma klaviyoReportPost_loop_walk {R}
    (view : Service → Request → Reply (ReportPage R))
    payload opts env url urls pages failure :
  ReportWalk (λ u, view (service env) (post_request u payload opts))
             url urls pages failure →
  ∀ fuel st w, length urls ≤ fuel →
    klaviyoReportPost_loop view payload opts fuel url st env w =
    (match failure with
     | None => Fulfilled (extend_report st pages)
     | Some e => Rejected e
     end, log_calls ((λ u, post_request u payload opts) <$> urls) w).
Proof.
  induction 1 as [|u p urls pages failure Hu Hwalk IH|u status text Hu|u msg Hu];
    intros fuel st w Hfuel.
  - destruct fuel; simpl; unfold extend_report; simpl; rewrite !app_nil_r;
      destruct st as [? ? [?|]]; reflexivity.
  - destruct fuel as [|fuel]; [simpl in Hfuel; lia|]. simpl in Hfuel.
    cbn [klaviyoReportPost_loop]. rewrite bind_run, klaviyoPost_run, Hu.
    rewrite IH by lia. rewrite fmap_cons, log_calls_cons. f_equal.
    destruct failure; [done|]. f_equal.
    unfold extend_report, results_of, included_of.
    cbn [rs_allIncluded rs_allResults rs_firstResponse].
    rewrite !fmap_cons. cbn [concat head].
    destruct (rpg_included p), (page_results p); cbn [default];
      rewrite <- ?(assoc_L (++)); cbn [app];
      destruct (rs_firstResponse st); reflexivity.
  - destruct fuel as [|fuel]; [simpl in Hfuel; lia|].
    cbn [klaviyoReportPost_loop]. by rewrite bind_run, klaviyoPost_run, Hu.
  - destruct fuel as [|fuel]; [simpl in Hfuel; lia|].
    cbn [klaviyoReportPost_loop]. by rewrite bind_run, klaviyoPost_run, Hu.
Qed.

(** X6. [klaviyoReportPost] posts the payload to the endpoint and then to
    every next link.  When the chain of next links ends within the pages the
    loop may follow, it settles having sent exactly those requests: with the
    first page's document in which the results are those of all pages, in
    order, together with everything the pages included; or with the failure
    of the request that failed. *)
Theorem klaviyoReportPost_follows_finite_chain {R}
    (view : Service → Request → Reply (ReportPage R))
    endpoint payload opts env urls pages failure w :
  ReportWalk (λ u, view (service env) (post_request u payload opts))
             (start endpoint) urls pages failure →
  length urls ≤ page_fuel env →
  klaviyoReportPost view endpoint payload opts env w =
  (reported pages failure,
   log_calls ((λ u, post_request u payload opts) <$> urls) w).
Proof.
  intros Hwalk Hfuel. unfold klaviyoReportPost. rewrite bind_run. cbn [ask].
  rewrite bind_run. fold (start endpoint).
  rewrite (klaviyoReportPost_loop_walk view payload opts env _ _ _ _ Hwalk)
    by exact Hfuel.
  destruct failure as [e|]; [reflexivity|].
  unfold extend_report, reported. cbn [rs_firstResponse rs_allResults rs_allIncluded].
  destruct pages as [|first pages]; reflexivity.
Qed.


Lemma klaviyoReportPost_follows_finite_chain_witness :
  let env := Scenario.runtime Scenario.soon Cases.two_page_report_service in
  let payload := campaign_values_payload Scenario.account in
  let urls := ["campaign-values-reports"; Cases.second_report_url] in
  let pages := [Cases.first_report_page; Cases.last_report_page] in
  ReportWalk (λ u, sv_campaign_values (service env)
                     (post_request u payload Scenario.opts))
             (start "campaign-values-reports") urls pages None
  ∧ length urls ≤ page_fuel env
  ∧ klaviyoReportPost sv_campaign_values "campaign-values-reports" payload
      Scenario.opts env Scenario.empty_world
    = (reported pages None,
       log_calls ((λ u, post_request u payload Scenario.opts) <$> urls)
         Scenario.empty_world)
  ∧ match reported pages None with
    | Fulfilled rep => report_results rep
    | _ => Pending
    end = Fulfilled [Scenario.email_row; Cases.sms_row].
Proof.
  intros env payload urls pages.
  assert (Hwalk :
    ReportWalk (λ u, sv_campaign_values (service env)
                       (post_request u payload Scenario.opts))
               (start "campaign-values-reports") urls pages None).
  { apply (report_walk_page _ "campaign-values-reports" Cases.first_report_page
             [Cases.second_report_url] [Cases.last_report_page] None);
      [reflexivity|].
    apply (report_walk_page _ Cases.second_report_url Cases.last_report_page
             [] [] None); [reflexivity|apply report_walk_end]. }
  assert (Hlen : length urls ≤ page_fuel env) by (simpl; lia).
  split; [exact Hwalk|]. split; [exact Hlen|]. split; [|reflexivity].
  exact (klaviyoReportPost_follows_finite_chain sv_campaign_values
           "campaign-values-reports" payload Scenario.opts env urls pages None
           Scenario.empty_world Hwalk Hlen).
Defined.

(** ** Message details of one definition and of many *)

Lemma id_is_truthy_id m id :
  truthy id = true → (id_is m id = true ↔ truthy_id m = Some id).
Proof.
  intros Hid. unfold id_is, truthy_id. destruct (m ≫= msg_id) as [i|]; [|done].
  destruct (String.eqb_spec i id) as [->|Hne].
  - by rewrite Hid.
  - split; [done|]. destruct (truthy i); congruence.
Qed.

Lemma id_is_Some m id : id_is m id = true → ∃ msg, m = Some msg.
Proof. unfold id_is. destruct m; [eauto|done]. Qed.

Lemma details_nonempty m a :
  details (extractMessageDetails m) (extractExperimentDetails a) ≠ ∅.
Proof.
  intros Heq. apply (f_equal (.!! "has_experiment")) in Heq.
  rewrite lookup_empty in Heq. unfold details in Heq.
  apply lookup_union_None in Heq as [Heq _].
  destruct (experiment_cases a) as [Hd|Hd];
    apply not_elem_of_dom in Heq; rewrite Hd in Heq; apply Heq;
    [set_solver|]. apply elem_of_list_to_set. unfold EXPERIMENT_FIELDS.
  apply elem_of_cons. by left.
Qed.

Lemma insert_details_is_Some (m : gmap string doc) msg (d : doc) id :
  is_Some (match truthy_id msg with
           | Some i => <[ i := d ]> m
           | None => m
           end !! id)
  ↔ truthy_id msg = Some id ∨ is_Some (m !! id).
Proof.
  destruct (truthy_id msg) as [i|].
  - rewrite lookup_insert_is_Some'. split; intros [H|H]; auto; left; congruence.
  - split; [auto|]. by intros [?|?].
Qed.

Lemma variations_is_Some e id : ∀ vs (m : gmap string doc),
  is_Some (foldl (add_variation e) m vs !! id)
  ↔ is_Some (m !! id) ∨ ∃ v, v ∈ vs ∧ truthy_id (holder_message v) = Some id.
Proof.
  induction vs as [|v vs IH]; intros m; cbn [foldl].
  - split; [auto|]. intros [?|(v & Hv & _)]; [done|]. by apply elem_of_nil in Hv.
  - rewrite IH. unfold add_variation.
    rewrite insert_details_is_Some. split.
    + intros [[Hv|Hm]|(v' & Hin & Hv')]; eauto.
      * right. exists v. split; [left|done].
      * right. exists v'. split; [by right|done].
    + intros [Hm|(v' & Hin & Hv')]; auto.
      apply elem_of_cons in Hin as [->|Hin]; eauto.
Qed.

Lemma find_is_Some {A} (p : A → bool) xs :
  is_Some (List.find p xs) ↔ ∃ x, x ∈ xs ∧ p x = true.
Proof.
  induction xs as [|x xs IH]; cbn [List.find].
  - split; [by intros [??]|]. intros (x & Hx & _). by apply elem_of_nil in Hx.
  - destruct (p x) eqn:Hp.
    + split; [|eauto]. intros _. exists x. split; [left|done].
    + rewrite IH. split.
      * intros (y & Hy & Hpy). exists y. split; [by right|done].
      * intros (y & Hy & Hpy). apply elem_of_cons in Hy as [->|Hy]; [congruence|eauto].
Qed.

(** One action adds an entry for a message id exactly when the search
    stops at that action. *)
Lemma add_action_is_Some id a (m : gmap string doc) :
  truthy id = true →
  is_Some (add_action m a !! id)
  ↔ is_Some (m !! id) ∨ is_Some (find_in_action id a).
Proof.
  intros Hid. unfold add_action, find_in_action. cbv zeta.
  pose proof (id_is_truthy_id (action_message a) id Hid) as H1.
  pose proof (id_is_truthy_id (main_action_message a) id Hid) as H2.
  assert (Hv : ∀ vs, (∃ v, v ∈ vs ∧ truthy_id (holder_message v) = Some id)
                 ↔ is_Some (List.find (λ v, id_is (holder_message v) id) vs)).
  { intros vs. rewrite find_is_Some. split; intros (v & Hin & Hv); exists v;
      (split; [done|]); by apply (id_is_truthy_id _ id Hid). }
  assert (HS : ∀ x : doc, is_Some (Some x) ↔ True) by (split; [done|eauto]).
  assert (HN : is_Some (@None doc) ↔ False) by (split; [by intros [??]|done]).
  destruct (is_ab_test a); [destruct (action_variations a) as [vs|]|];
    rewrite ?variations_is_Some, !insert_details_is_Some, ?Hv;
    destruct (id_is (action_message a) id);
    destruct (id_is (main_action_message a) id); cbn [andb];
    rewrite ?fmap_is_Some, ?HS, ?HN; clear HS HN Hv; intuition congruence.
Qed.

Lemma add_actions_is_Some id : truthy id = true → ∀ actions (m : gmap string doc),
  is_Some (foldl add_action m actions !! id)
  ↔ is_Some (m !! id) ∨ ∃ a, a ∈ actions ∧ is_Some (find_in_action id a).
Proof.
  intros Hid. induction actions as [|a actions IH]; intros m; cbn [foldl].
  - split; [auto|]. intros [?|(a & Ha & _)]; [done|]. by apply elem_of_nil in Ha.
  - rewrite IH, (add_action_is_Some id a m Hid). split.
    + intros [[Hm|Ha]|(a' & Hin & Ha')]; eauto.
      * right. exists a. split; [left|done].
      * right. exists a'. split; [by right|done].
    + intros [Hm|(a' & Hin & Ha')]; auto.
      apply elem_of_cons in Hin as [->|Hin]; eauto.
Qed.

Lemma find_in_action_nonempty id a d : find_in_action id a = Some d → d ≠ ∅.
Proof.
  unfold find_in_action.
  destruct (id_is (action_message a) id);
    [intros [= <-]; apply details_nonempty|].
  destruct (is_ab_test a && id_is (main_action_message a) id);
    [intros [= <-]; apply details_nonempty|].
  destruct (if is_ab_test a then action_variations a else None) as [vs|]; [|done].
  destruct (List.find _ vs); [|done]. intros [= <-]. apply details_nonempty.
Qed.

Lemma find_in_actions_nonempty id actions :
  find_in_actions id actions ≠ ∅
  ↔ ∃ a, a ∈ actions ∧ is_Some (find_in_action id a).
Proof.
  induction actions as [|a actions IH]; cbn [find_in_actions].
  - split; [done|]. intros (a & Ha & _). by apply elem_of_nil in Ha.
  - destruct (find_in_action id a) as [d|] eqn:Hd.
    + split; [|intros _; by eapply find_in_action_nonempty].
      intros _. exists a. split; [left|]. by rewrite Hd.
    + rewrite IH. split.
      * intros (a' & Hin & Ha'). exists a'. split; [by right|done].
      * intros (a' & Hin & Ha'). apply elem_of_cons in Hin as [->|Hin]; [|eauto].
        rewrite Hd in Ha'. by destruct Ha'.
Qed.

(** X7. For a message id that is not the empty text,
    [findMessageInFlowDefinition] finds details in a definition exactly when
    the lookup [buildMessageDetailsMap] builds from that definition has an
    entry for the id. *)
Theorem findMessage_agrees_with_lookup flowDefinition flowMessageId :
  truthy flowMessageId = true →
  findMessageInFlowDefinition flowDefinition flowMessageId ≠ ∅
  ↔ is_Some (buildMessageDetailsMap [flowDefinition] !! flowMessageId).
Proof.
  intros Hid. unfold findMessageInFlowDefinition, buildMessageDetailsMap.
  cbn [foldl]. destruct (definition_actions flowDefinition) as [actions|].
  - rewrite find_in_actions_nonempty, (add_actions_is_Some _ Hid).
    rewrite lookup_empty. split; [auto|]. by intros [[??]|?].
  - rewrite lookup_empty. split; [done|]. by intros [??].
Qed.

Lemma findMessage_agrees_with_lookup_witness :
  truthy "m1" = true
  ∧ (findMessageInFlowDefinition (Scenario.definition_at "m1") "m1" ≠ ∅
     ↔ is_Some (buildMessageDetailsMap [Scenario.definition_at "m1"] !! "m1"))
  ∧ buildMessageDetailsMap [Scenario.definition_at "m1"] !! "m1"
      ≫= (.!! "message_name") = Some (VStr "Welcome").
Proof.
  assert (Ht : truthy "m1" = true) by reflexivity.
  split; [exact Ht|]. split.
  - exact (findMessage_agrees_with_lookup (Scenario.definition_at "m1") "m1" Ht).
  - vm_compute. reflexivity.
Defined.

Lemma find_in_action_entry_ok id a d : find_in_action id a = Some d → entry_ok d.
Proof.
  unfold find_in_action.
  destruct (id_is (action_message a) id) eqn:H1.
  { apply id_is_Some in H1 as [msg ->]. intros [= <-]. apply entry_ok_details. }
  destruct (is_ab_test a && id_is (main_action_message a) id) eqn:H2.
  { apply andb_true_iff in H2 as [_ H2]. apply id_is_Some in H2 as [msg ->].
    intros [= <-]. apply entry_ok_details. }
  destruct (if is_ab_test a then action_variations a else None) as [vs|]; [|done].
  destruct (List.find _ vs) as [v|] eqn:Hv; [|done]. intros [= <-].
  apply find_some in Hv as [_ Hv]. apply id_is_Some in Hv as [msg ->].
  apply entry_ok_details.
Qed.

Lemma find_in_actions_entry_ok id actions :
  find_in_actions id actions = ∅ ∨ entry_ok (find_in_actions id actions).
Proof.
  induction actions as [|a actions IH]; cbn [find_in_actions]; [by left|].
  destruct (find_in_action id a) as [d|] eqn:Hd; [|exact IH].
  right. by eapply find_in_action_entry_ok.
Qed.

Lemma inserts_only_foldl {B} (f : gmap string doc → B → gmap string doc) xs :
  (∀ x, inserts_only (λ m, f m x)) → inserts_only (λ m, foldl f m xs).
Proof.
  intros Hf. induction xs as [|x xs IH]; intros m1 m2; cbn [foldl]; [done|].
  by rewrite Hf, IH.
Qed.

Lemma inserts_only_insert_if (k : option string) (d : doc) :
  inserts_only (λ m, match k with Some i => <[ i := d ]> m | None => m end).
Proof. intros m1 m2. destruct k; [by rewrite insert_union_l|done]. Qed.

Lemma inserts_only_add_action a : inserts_only (λ m, add_action m a).
Proof.
  intros m1 m2. unfold add_action. cbv zeta.
  rewrite (inserts_only_insert_if (truthy_id (action_message a)) _ m1 m2).
  rewrite (inserts_only_insert_if
             (if is_ab_test a then truthy_id (main_action_message a) else None)).
  destruct (if is_ab_test a then action_variations a else None) as [vs|]; [|done].
  apply (inserts_only_foldl (add_variation (extractExperimentDetails a)) vs).
  intros v m m'. unfold add_variation. apply inserts_only_insert_if.
Qed.

Lemma inserts_only_add_definition (flowDef : FlowDefinition) :
  inserts_only (λ messageMap,
                  match definition_actions flowDef with
                  | Some actions => foldl add_action messageMap actions
                  | None => messageMap
                  end).
Proof.
  destruct (definition_actions flowDef) as [actions|]; [|done].
  apply inserts_only_foldl, inserts_only_add_action.
Qed.

(** X8. The lookup of a list of definitions is built left to right: that
    of two lists put together is the lookup of the second laid over the
    lookup of the first, so where both have an entry for a message id the
    later definition wins. *)
Theorem buildMessageDetailsMap_app defs1 defs2 :
  buildMessageDetailsMap (defs1 ++ defs2)
  = buildMessageDetailsMap defs2 ∪ buildMessageDetailsMap defs1.
Proof.
  unfold buildMessageDetailsMap. rewrite foldl_app.
  set (f := λ (messageMap : gmap string doc) flowDef, _).
  rewrite <- (left_id_L ∅ (∪) (foldl f ∅ defs1)) at 1.
  apply (inserts_only_foldl f defs2). intros d.
  apply inserts_only_add_definition.
Qed.


(** ** Where the merged metadata comes from *)

(** What a name lookup holds for an id: the name of the last listed item
    with that id. *)
Lemma add_names_lookup xs : ∀ (m : gmap string (option string)) i,
  add_names m xs !! i
  = match last (filter (λ x, named_id x = i) xs) with
    | Some x => Some (name_or_null x)
    | None => m !! i
    end.
Proof.
  unfold add_names.
  induction xs as [|x xs IH] using rev_ind; intros m i; [done|].
  rewrite foldl_app, filter_app. cbn [foldl].
  destruct (decide (named_id x = i)) as [<-|Hne].
  - rewrite lookup_insert_eq.
    rewrite (filter_cons_True _ x []) by done. by rewrite filter_nil, last_snoc.
  - rewrite lookup_insert_ne by done.
    rewrite (filter_cons_False _ x []) by done.
    by rewrite filter_nil, app_nil_r, IH.
Qed.

Lemma add_names_app m xs ys : add_names (add_names m xs) ys = add_names m (xs ++ ys).
Proof. unfold add_names. by rewrite foldl_app. Qed.

Lemma name_or_null_Some x n :
  name_or_null x = Some n →
  truthy n = true ∧ named_attributes x ≫= na_name = Some n.
Proof.
  unfold name_or_null. destruct (named_attributes x ≫= na_name) as [s|]; [|done].
  destruct (truthy s) eqn:Hs; [|done]. by intros [= <-].
Qed.

(** Resolved names are non-empty names of listed items whose id was asked
    for. *)
Lemma resolve_names_sound xs ids n :
  n ∈ resolve_names (add_names ∅ xs) ids →
  truthy n = true
  ∧ ∃ x, x ∈ xs ∧ named_id x ∈ ids ∧ named_attributes x ≫= na_name = Some n.
Proof.
  unfold resolve_names, filter_Boolean. rewrite list_elem_of_In, filter_In.
  rewrite <- list_elem_of_In. intros [Hin Ht]. split; [done|].
  apply list_elem_of_omap in Hin as (o & Ho & Hsome).
  cbn in Hsome. subst o.
  apply list_elem_of_fmap in Ho as (i & Hi & Hin).
  rewrite add_names_lookup, lookup_empty in Hi.
  destruct (last _) as [x|] eqn:Hlast; [|done]. cbn in Hi.
  apply last_Some in Hlast as [pre Hpre].
  assert (Hx : x ∈ filter (λ x, named_id x = i) xs).
  { rewrite Hpre. apply elem_of_app. right. by left. }
  apply list_elem_of_filter in Hx as [Hid Hx].
  exists x. split; [done|]. split; [by rewrite Hid|].
  symmetry in Hi. by apply name_or_null_Some in Hi as [_ ?].
Qed.

Lemma length_omap_le {A B} (f : A → option B) xs :
  length (omap f xs) ≤ length xs.
Proof. induction xs as [|x xs IH]; cbn; [done|]. destruct (f x); cbn; lia. Qed.

Lemma length_resolve_names m ids : length (resolve_names m ids) ≤ length ids.
Proof.
  unfold resolve_names, filter_Boolean.
  etrans; [apply List.filter_length_le|]. etrans; [apply length_omap_le|].
  by rewrite length_fmap.
Qed.

Lemma truthy_nonempty n : truthy n = true → n ≠ "".
Proof. unfold truthy. by destruct (String.eqb_spec n ""). Qed.

Lemma resolve_names_named_in xs ids :
  named_in xs ids (resolve_names (add_names ∅ xs) ids).
Proof.
  split; [apply length_resolve_names|]. intros n Hn.
  apply resolve_names_sound in Hn as [Ht Hx]. split; [|done].
  by apply truthy_nonempty.
Qed.

(** C-style lookup tables built by a loop of assignments: the last
    assignment under a key wins. *)
Lemma foldl_insert_lookup {A} (key : A → string) xs : ∀ (m : gmap string A) i,
  foldl (λ m x, <[ key x := x ]> m) m xs !! i
  = match last (filter (λ x, key x = i) xs) with
    | Some x => Some x
    | None => m !! i
    end.
Proof.
  induction xs as [|x xs IH] using rev_ind; intros m i; [done|].
  rewrite foldl_app, filter_app. cbn [foldl].
  destruct (decide (key x = i)) as [<-|Hne].
  - rewrite lookup_insert_eq.
    rewrite (filter_cons_True _ x []) by done. by rewrite filter_nil, last_snoc.
  - rewrite lookup_insert_ne by done.
    rewrite (filter_cons_False _ x []) by done.
    by rewrite filter_nil, app_nil_r, IH.
Qed.

Lemma campaignMap_lookup campaigns sms i :
  foldl (λ (m : gmap string Campaign) c, <[ campaign_id_ c := c ]> m)
        (foldl (λ m c, <[ campaign_id_ c := c ]> m) ∅ campaigns) sms !! i
  = campaign_for campaigns sms i.
Proof.
  rewrite <- foldl_app, foldl_insert_lookup, lookup_empty.
  unfold campaign_for. by destruct (last _).
Qed.

(** X9. In every merged campaign record the tag names and the audience
    names are names upstream listed: each tag name is the non-empty name
    of a listed tag whose id is among the record's tag ids, each audience
    name the non-empty name of a listed segment or list whose id is among
    the record's included (excluded) audience ids, and there are at most
    as many names as ids. *)
Theorem campaign_names_come_from_metadata
    results campaigns sms segments lists tags o :
  o ∈ mergeCampaignStatsWithMeta results campaigns sms segments lists tags →
  ∃ tagIds tagNames included includedNames excluded excludedNames,
    o !! "tagIds" = Some (strings tagIds)
    ∧ o !! "tagNames" = Some (strings tagNames)
    ∧ o !! "included_audiences" = Some (strings included)
    ∧ o !! "included_audiences_names" = Some (strings includedNames)
    ∧ o !! "excluded_audiences" = Some (strings excluded)
    ∧ o !! "excluded_audiences_names" = Some (strings excludedNames)
    ∧ named_in tags tagIds tagNames
    ∧ named_in (segments ++ lists) included includedNames
    ∧ named_in (segments ++ lists) excluded excludedNames.
Proof.
  unfold mergeCampaignStatsWithMeta. intros Ho.
  apply list_elem_of_fmap in Ho as (r & -> & _).
  rewrite add_names_app.
  eexists _, _, _, _, _, _.
  do 6 (split; [reflexivity|]).
  split; [|split]; apply resolve_names_named_in.
Qed.

Lemma campaign_names_come_from_metadata_witness :
  Cases.merged_tagged
    ∈ mergeCampaignStatsWithMeta [Scenario.email_row] [Cases.tagged_campaign] []
        [Cases.buyers_segment] [Cases.bounced_list] [Scenario.vip_tag]
  ∧ (∃ tagIds tagNames included includedNames excluded excludedNames,
       Cases.merged_tagged !! "tagIds" = Some (strings tagIds)
       ∧ Cases.merged_tagged !! "tagNames" = Some (strings tagNames)
       ∧ Cases.merged_tagged !! "included_audiences" = Some (strings included)
       ∧ Cases.merged_tagged !! "included_audiences_names"
         = Some (strings includedNames)
       ∧ Cases.merged_tagged !! "excluded_audiences" = Some (strings excluded)
       ∧ Cases.merged_tagged !! "excluded_audiences_names"
         = Some (strings excludedNames)
       ∧ named_in [Scenario.vip_tag] tagIds tagNames
       ∧ named_in ([Cases.buyers_segment] ++ [Cases.bounced_list])
           included includedNames
       ∧ named_in ([Cases.buyers_segment] ++ [Cases.bounced_list])
           excluded excludedNames)
  ∧ Cases.merged_tagged !! "tagNames" = Some (strings ["vip"])
  ∧ Cases.merged_tagged !! "included_audiences_names" = Some (strings ["Buyers"])
  ∧ Cases.merged_tagged !! "excluded_audiences_names"
    = Some (strings ["Bounced"]).
Proof.
  assert (H : Cases.merged_tagged
                ∈ mergeCampaignStatsWithMeta [Scenario.email_row]
                    [Cases.tagged_campaign] [] [Cases.buyers_segment]
                    [Cases.bounced_list] [Scenario.vip_tag]).
  { apply list_elem_of_here. }
  split; [exact H|]. split.
  - exact (campaign_names_come_from_metadata _ _ _ _ _ _ _ H).
  - repeat split; vm_compute; reflexivity.
Defined.

(** X10. Every email or sms row of the report has a merged record, whose
    name, dates, tag ids and audience ids are those of the campaign listed
    under the row's campaign id: of the last one listed when several are,
    the sms campaigns coming after the email campaigns; they are null or
    empty when no campaign is listed under the id. *)
Theorem campaign_metadata_from_last_listed
    results campaigns sms segments lists tags r :
  r ∈ results → email_or_sms r = true →
  let found := campaign_for campaigns sms (cg_campaign_id (cr_groupings r)) in
  let attributes := found ≫= campaign_attributes in
  let audiences := attributes ≫= ca_audiences in
  ∃ o, o ∈ mergeCampaignStatsWithMeta results campaigns sms segments lists tags
    ∧ o !! "groupings" = Some (campaign_groupings_value (cr_groupings r))
    ∧ o !! "campaign_name" = Some (or_null (attributes ≫= ca_name))
    ∧ o !! "send_time" = Some (or_null (attributes ≫= ca_send_time))
    ∧ o !! "created_at" = Some (or_null (attributes ≫= ca_created_at))
    ∧ o !! "scheduled_at" = Some (or_null (attributes ≫= ca_scheduled_at))
    ∧ o !! "updated_at" = Some (or_null (attributes ≫= ca_updated_at))
    ∧ o !! "tagIds" = Some (strings (tag_ids (found ≫= campaign_relationships)))
    ∧ o !! "included_audiences"
      = Some (strings (default [] (audiences ≫= aud_included)))
    ∧ o !! "excluded_audiences"
      = Some (strings (default [] (audiences ≫= aud_excluded))).
Proof.
  intros Hr He found attributes audiences. eexists. split.
  { unfold mergeCampaignStatsWithMeta. apply list_elem_of_fmap.
    eexists. split; [reflexivity|].
    apply list_elem_of_In, filter_In. split; [by apply list_elem_of_In|done]. }
  unfold merge_campaign_row. cbv zeta. rewrite campaignMap_lookup.
  by repeat split.
Qed.

Lemma campaign_metadata_from_last_listed_witness :
  Scenario.email_row ∈ [Scenario.email_row]
  ∧ email_or_sms Scenario.email_row = true
  ∧ campaign_for [Cases.tagged_campaign] [] "c1" = Some Cases.tagged_campaign
  ∧ ∃ o, o ∈ mergeCampaignStatsWithMeta [Scenario.email_row]
               [Cases.tagged_campaign] [] [Cases.buyers_segment]
               [Cases.bounced_list] [Scenario.vip_tag]
      ∧ o !! "campaign_name" = Some (VStr "Spring")
      ∧ o !! "tagIds" = Some (strings ["t1"])
      ∧ o !! "included_audiences" = Some (strings ["s1"])
      ∧ o !! "excluded_audiences" = Some (strings ["l1"]).
Proof.
  assert (Hr : Scenario.email_row ∈ [Scenario.email_row]) by apply list_elem_of_here.
  assert (He : email_or_sms Scenario.email_row = true) by reflexivity.
  split; [exact Hr|]. split; [exact He|]. split; [reflexivity|].
  destruct (campaign_metadata_from_last_listed [Scenario.email_row]
              [Cases.tagged_campaign] [] [Cases.buyers_segment]
              [Cases.bounced_list] [Scenario.vip_tag] Scenario.email_row Hr He)
    as (o & Ho & _ & Hname & _ & _ & _ & _ & Htags & Hinc & Hexc).
  exists o. split; [exact Ho|]. split; [exact Hname|]. split; [exact Htags|].
  split; [exact Hinc|exact Hexc].
Defined.

Lemma flowMap_lookup flows i :
  foldl (λ (m : gmap string Flow) f, <[ flow_id_ f := f ]> m) ∅ flows !! i
  = flow_for flows i.
Proof.
  rewrite foldl_insert_lookup, lookup_empty. unfold flow_for. by destruct (last _).
Qed.

(** X11. Every row of the flow report has a merged record with the row's
    three ids and its statistics, whose name, status, dates, trigger type
    and tag ids are those of the last flow listed under the row's flow id
    (null, false or empty when none is), and whose tag names are names of
    listed tags. *)
Theorem flow_metadata_from_last_listed results flows tags defs stat :
  stat ∈ results →
  let found := flow_for flows (fg_flow_id (fr_groupings stat)) in
  let attributes := found ≫= flow_attributes in
  let tagIds := tag_ids (found ≫= flow_relationships) in
  ∃ o tagNames,
    o ∈ mergeFlowStatsWithMeta results flows tags (buildMessageDetailsMap defs)
    ∧ o !! "flow_id" = Some (VStr (fg_flow_id (fr_groupings stat)))
    ∧ o !! "flow_message_id"
      = Some (VStr (fg_flow_message_id (fr_groupings stat)))
    ∧ o !! "send_channel" = Some (VStr (fg_send_channel (fr_groupings stat)))
    ∧ o !! "flow_name" = Some (or_null (attributes ≫= fa_name))
    ∧ o !! "flow_status" = Some (or_null (attributes ≫= fa_status))
    ∧ o !! "flow_archived" = Some (or_false (attributes ≫= fa_archived))
    ∧ o !! "flow_created" = Some (or_null (attributes ≫= fa_created))
    ∧ o !! "flow_updated" = Some (or_null (attributes ≫= fa_updated))
    ∧ o !! "flow_trigger_type" = Some (or_null (attributes ≫= fa_trigger_type))
    ∧ o !! "statistics" = Some (VObj (series <$> fr_statistics stat))
    ∧ o !! "tagIds" = Some (strings tagIds)
    ∧ o !! "tagNames" = Some (strings tagNames)
    ∧ named_in tags tagIds tagNames.
Proof.
  intros Hstat found attributes tagIds. eexists _, _. split.
  { unfold mergeFlowStatsWithMeta. apply list_elem_of_fmap.
    eexists. split; [reflexivity|done]. }
  rewrite !merged_flow_lookup_base by elem_decide.
  unfold flow_base_record. cbv zeta. rewrite flowMap_lookup.
  do 12 (split; [reflexivity|]). apply resolve_names_named_in.
Qed.


Lemma flow_metadata_from_last_listed_witness :
  Scenario.flow_row ∈ [Scenario.flow_row]
  ∧ flow_for [Cases.winback_flow] "f2" = Some Cases.winback_flow
  ∧ ∃ o, o ∈ mergeFlowStatsWithMeta [Scenario.flow_row] [Cases.winback_flow]
               [Scenario.vip_tag] (buildMessageDetailsMap [])
      ∧ o !! "flow_id" = Some (VStr "f2")
      ∧ o !! "flow_name" = Some (VStr "Winback")
      ∧ o !! "flow_status" = Some (VStr "live")
      ∧ o !! "tagIds" = Some (strings ["t1"]).
Proof.
  assert (Hr : Scenario.flow_row ∈ [Scenario.flow_row]) by apply list_elem_of_here.
  split; [exact Hr|]. split; [reflexivity|].
  destruct (flow_metadata_from_last_listed [Scenario.flow_row]
              [Cases.winback_flow] [Scenario.vip_tag] [] Scenario.flow_row Hr)
    as (o & names & Ho & Hid & _ & _ & Hname & Hstatus & _ & _ & _ & _ & _
        & Htags & _).
  exists o. split; [exact Ho|]. split; [exact Hid|]. split; [exact Hname|].
  split; [exact Hstatus|exact Htags].
Defined.

(** ** Permissions and the search page *)

(** The search reads the users and the campaign records; it writes
    nothing and calls nothing. *)
Lemma searchWithAccessControl_reads_only userId query options env w :
  (searchWithAccessControl userId query options env w).2 = w.
Proof.
  unfold searchWithAccessControl. cbv zeta. rewrite bind_run, User_findById_run.
  destruct (objectid_valid env userId); [|done].
  destruct (find_user userId w) as [user|]; [|done].
  destruct (_ =? 0); [done|].
  rewrite bind_run. cbn [ask]. rewrite bind_run.
  destruct (has_text query); [destruct (regex_i env _)|]; done.
Qed.

Lemma length_limit_to {A} n (xs : list A) :
  length (limit_to n xs) = if n =? 0 then length xs else n `min` length xs.
Proof. unfold limit_to. destruct (n =? 0); [done|]. apply length_take. Qed.



(** ** Updating one store row *)

Lemma find_one_and_update_Some p u coll old new coll' :
  find_one_and_update p u coll = Some (old, new, coll') →
  ∃ pre post, coll = pre ++ old :: post ∧ p old = true
    ∧ (∀ s, s ∈ pre → p s = false)
    ∧ new = apply_store_update u old ∧ coll' = pre ++ new :: post.
Proof.
  revert old new coll'. induction coll as [|s coll IH]; intros old new coll'; [done|].
  cbn [find_one_and_update]. destruct (p s) eqn:Hp.
  - intros [= <- <- <-]. exists [], coll. split; [done|]. split; [done|].
    split; [|done]. intros s' Hs'. by apply elem_of_nil in Hs'.
  - destruct (find_one_and_update p u coll) as [[[o n] c]|] eqn:Hf; [|done].
    intros [= <- <- <-].
    destruct (IH _ _ _ eq_refl) as (pre & post & -> & Hold & Hpre & -> & ->).
    exists (s :: pre), post. split; [done|]. split; [done|]. split; [|done].
    intros s' Hs'. apply elem_of_cons in Hs' as [->|Hs']; auto.
Qed.

Lemma find_one_and_update_None p u coll :
  find_one_and_update p u coll = None → ∀ s, s ∈ coll → p s = false.
Proof.
  induction coll as [|s coll IH]; intros Hf s' Hs'; [by apply elem_of_nil in Hs'|].
  cbn [find_one_and_update] in Hf. destruct (p s) eqn:Hp; [done|].
  destruct (find_one_and_update p u coll) as [[[o n] c]|]; [done|].
  apply elem_of_cons in Hs' as [->|Hs']; auto.
Qed.

Lemma eqb_false_ne (a b : string) : String.eqb a b = false → a ≠ b.
Proof. by destruct (String.eqb_spec a b). Qed.

Lemma findOneAndUpdate_cases p u new_ env w :
  let run := findOneAndUpdate p u new_ env w in
  (∃ pre s post,
     stores w = pre ++ s :: post ∧ p s = true ∧ (∀ s', s' ∈ pre → p s' = false)
     ∧ run.1 = Fulfilled (Some (if new_ then apply_store_update u s else s))
     ∧ stores run.2 = pre ++ apply_store_update u s :: post
     ∧ same_but_stores w run.2)
  ∨ ((∀ s, s ∈ stores w → p s = false) ∧ run = (Fulfilled None, w)).
Proof.
  cbv zeta. unfold findOneAndUpdate.
  destruct (find_one_and_update p u (stores w)) as [[[old new] coll']|] eqn:Hf.
  - left. apply find_one_and_update_Some in Hf
      as (pre & post & Hw & Hold & Hpre & -> & ->).
    exists pre, old, post. by repeat split.
  - right. split; [|done]. by apply find_one_and_update_None with u.
Qed.

Lemma findByIdOrPublicIdAndUpdate_unfold id u new_ env w :
  findByIdOrPublicIdAndUpdate id u new_ env w
  = if objectid_valid env id
       && bool_decide (is_Some (List.find (by_id id) (stores w)))
    then findOneAndUpdate (by_id id) u new_ env w
    else findOneAndUpdate (by_public_id id) u new_ env w.
Proof.
  unfold findByIdOrPublicIdAndUpdate. rewrite bind_run. cbn [ask].
  rewrite bind_run. destruct (objectid_valid env id); [|reflexivity].
  cbn [andb]. fold (by_id id). fold (by_public_id id).
  unfold findOneAndUpdate at 1 3. rewrite find_one_and_update_spec.
  destruct (List.find (by_id id) (stores w)); [|reflexivity].
  by rewrite bool_decide_eq_true_2.
Qed.

(** X13. [findByIdOrPublicIdAndUpdate] changes at most one row of the
    store collection and nothing else.  When the id is the text of an
    ObjectId and a row has it as [_id], the first such row is updated;
    otherwise the first row that has it as [public_id] is; the rows before
    and after stay as they are, and the call returns the row as updated or
    as it was, as the option [new] asks.  When no row is found either way
    the call returns null and the world is unchanged. *)
Theorem findByIdOrPublicIdAndUpdate_updates_one_row id u new_ env w :
  let run := findByIdOrPublicIdAndUpdate id u new_ env w in
  (∃ pre s post,
     stores w = pre ++ s :: post
     ∧ (objectid_valid env id = true ∧ _id s = id
          ∧ (∀ s', s' ∈ pre → _id s' ≠ id)
        ∨ no_row_by_id env id (stores w) ∧ public_id s = id
          ∧ (∀ s', s' ∈ pre → public_id s' ≠ id))
     ∧ run.1 = Fulfilled (Some (if new_ then apply_store_update u s else s))
     ∧ stores run.2 = pre ++ apply_store_update u s :: post
     ∧ same_but_stores w run.2)
  ∨ (no_row_by_id env id (stores w)
     ∧ (∀ s, s ∈ stores w → public_id s ≠ id)
     ∧ run = (Fulfilled None, w)).
Proof.
  cbv zeta. rewrite findByIdOrPublicIdAndUpdate_unfold.
  assert (Hno : objectid_valid env id
                && bool_decide (is_Some (List.find (by_id id) (stores w))) = false
                → no_row_by_id env id (stores w)).
  { intros Hc. apply andb_false_iff in Hc as [Hc|Hc]; [by left|right].
    apply bool_decide_eq_false in Hc. intros s Hs Hid. apply Hc.
    destruct (List.find (by_id id) (stores w)) eqn:Hf; [done|].
    apply find_none with (x := s) in Hf; [|by apply list_elem_of_In].
    unfold by_id in Hf. apply eqb_false_ne in Hf. done. }
  destruct (objectid_valid env id
            && bool_decide (is_Some (List.find (by_id id) (stores w)))) eqn:Hc.
  - apply andb_true_iff in Hc as [Hvalid Hfound].
    apply bool_decide_eq_true in Hfound.
    destruct (findOneAndUpdate_cases (by_id id) u new_ env w)
      as [(pre & s & post & Hw & Hs & Hpre & Hrest)|[Hnone _]].
    + left. exists pre, s, post. split; [done|]. split; [|done].
      left. split; [done|]. split; [by apply String.eqb_eq|].
      intros s' Hs'. apply eqb_false_ne. exact (Hpre s' Hs').
    + destruct Hfound as [s Hs]. apply find_some in Hs as [Hin Hs].
      apply list_elem_of_In in Hin. by rewrite (Hnone s Hin) in Hs.
  - specialize (Hno eq_refl).
    destruct (findOneAndUpdate_cases (by_public_id id) u new_ env w)
      as [(pre & s & post & Hw & Hs & Hpre & Hrest)|[Hnone Hrun]].
    + left. exists pre, s, post. split; [done|]. split; [|done].
      right. split; [done|]. split; [by apply String.eqb_eq|].
      intros s' Hs'. apply eqb_false_ne. exact (Hpre s' Hs').
    + right. split; [done|]. split; [|done].
      intros s Hs. apply eqb_false_ne. exact (Hnone s Hs).
Qed.


(** ** A sync that succeeds *)

Lemma promise_all_world rank s env w : (promise_all rank s env w).2 = w.
Proof.
  unfold promise_all. destruct (first_rejection rank (rejections s)); [done|].
  destruct (st_campaigns s); [|done..].
  destruct (st_smsCampaigns s); [|done..].
  destruct (st_tags s); [|done..].
  destruct (st_flows s); [|done..].
  destruct (st_segments s); [|done..].
  destruct (st_lists s); [|done..].
  destruct (st_campaignValuesReports s); [|done..].
  destruct (st_flowSeriesReports s); done.
Qed.

Lemma preserves_fan_out store fromDate : preserves_db (fan_out store fromDate).
Proof.
  unfold fan_out. apply preserves_bind; [apply preserves_fan_out_settle|].
  intros settled. apply preserves_bind; [apply preserves_ask|]. intros env' env w.
  rewrite promise_all_world. apply same_db_refl.
Qed.

Lemma update_first_then p u1 u2 u coll :
  (∀ s, p (apply_store_update u1 s) = p s) →
  (∀ s, apply_store_update u2 (apply_store_update u1 s) = apply_store_update u s) →
  update_first_store p u2 (update_first_store p u1 coll)
  = update_first_store p u coll.
Proof.
  intros Hp Hu. induction coll as [|s rest IH]; [done|]. simpl.
  destruct (p s) eqn:Hs; simpl.
  - by rewrite Hp, Hs, Hu.
  - by rewrite Hs, IH.
Qed.

Lemma updated_stores_then env id u1 u2 u coll :
  (∀ s, apply_store_update u2 (apply_store_update u1 s) = apply_store_update u s) →
  updated_stores env id u2 (updated_stores env id u1 coll)
  = updated_stores env id u coll.
Proof.
  intros Hu. unfold updated_stores.
  destruct (objectid_valid env id && existsb (by_id id) coll) eqn:Hc;
    rewrite existsb_update_first by done; rewrite Hc;
    by apply update_first_then.
Qed.

Lemma findByIdOrPublicIdAndUpdate_result id u new_ env w :
  (findByIdOrPublicIdAndUpdate id u new_ env w).1
  = Fulfilled ((λ s, if new_ then apply_store_update u s else s)
                 <$> found_row env id (stores w)).
Proof.
  rewrite findByIdOrPublicIdAndUpdate_unfold. unfold found_row.
  destruct (objectid_valid env id && bool_decide _);
    unfold findOneAndUpdate; rewrite find_one_and_update_spec;
    by destruct (List.find _ (stores w)).
Qed.

Lemma found_row_updated env id u coll :
  found_row env id (updated_stores env id u coll)
  = apply_store_update u <$> found_row env id coll.
Proof.
  unfold found_row, updated_stores. rewrite <- !find_existsb.
  destruct (objectid_valid env id && existsb (by_id id) coll) eqn:Hc;
    rewrite existsb_update_first by done; rewrite Hc;
    by rewrite find_update_first.
Qed.

Lemma success_after_lock now tags dts s :
  apply_store_update (success_update now tags dts)
    (apply_store_update (set_updating true) s)
  = apply_store_update (success_update now tags dts) s.
Proof. reflexivity. Qed.

(** X14. Take a sync that passes the gate and computes its from-date, and
    suppose the eight fetches and both reports come back whole.  Then the
    sync fulfils with the account's row as it stores it: stamped with a
    reading of the clock, with the names of the fetched tags and the dates
    of the flow report, and with the flag cleared; no other row and no user
    is touched.  The flow definitions it asked for are those of the flows of
    the report, in order, all of them or all but the last.  The campaign
    collection is what [upsertCampaignStats] makes of the original one with
    the merged campaign records, and the flow collection what
    [upsertFlowStats] makes of the original one with the merged flow
    records. *)
Theorem sync_success_persists store date env w ms fetched
    campaignResults flowAttributes flowResults :
  is_updating_dashboard store = false →
  (FRESHNESS_THRESHOLD_MS ≤ clock env (ticks w) - lastSync store)%Z →
  from_date store date = Some ms →
  (fan_out store (iso env ms) env
     (findByIdOrPublicIdAndUpdate (_id store) (set_updating true) false env
        (tick w)).2).1
    = Fulfilled fetched →
  report_results (fo_campaignValuesReports fetched) = Fulfilled campaignResults →
  report_attributes (fo_flowSeriesReports fetched) = Fulfilled flowAttributes →
  ra_results flowAttributes = Some flowResults →
  let opts := {| opt_apiKey := apiKey (klaviyo_integration store) |} in
  let tags := col_data (fo_tags fetched) in
  let merged :=
    mergeCampaignStatsWithMeta campaignResults
      (col_data (fo_campaigns fetched)) (col_data (fo_smsCampaigns fetched))
      (col_data (fo_segments fetched)) (col_data (fo_lists fetched)) tags in
  let ids :=
    set_spread ((λ result, fg_flow_id (fr_groupings result)) <$> flowResults) in
  let dateTimes :=
    match ra_date_times flowAttributes with
    | Some dateStrs => parse_date env <$> dateStrs
    | None => []
    end in
  ∃ requested n w' w0,
    let mergedFlows :=
      mergeFlowStatsWithMeta flowResults (col_data (fo_flows fetched)) tags
        (buildMessageDetailsMap (omap id (served env opts <$> requested))) in
    let u := success_update (clock env n) tags dateTimes in
    klaviyoUpdateStats store date env w
    = (Fulfilled (apply_store_update u <$> found_row env (_id store) (stores w)),
       w')
    ∧ (requested = ids ∨ ∃ last, ids = requested ++ [last])
    ∧ stores w' = updated_stores env (_id store) u (stores w)
    ∧ users w' = users w
    ∧ campaign_stats w'
      = campaign_stats
          (upsertCampaignStats merged (_id store) (public_id store) env w).2
    ∧ flow_stats w0 = flow_stats w
    ∧ flow_stats w'
      = flow_stats
          (upsertFlowStats mergedFlows (_id store) (public_id store) env w0).2
    ∧ (∀ row, found_row env (_id store) (stores w) = Some row →
         ∃ row', found_row env (_id store) (stores w') = Some row'
           ∧ _id row' = _id row ∧ public_id row' = public_id row
           ∧ is_updating_dashboard row' = false
           ∧ last_dashboard_sync row' = Some (clock env n)
           ∧ tagNames row'
             = filter_Boolean ((λ tag, named_attributes tag ≫= na_name) <$> tags)
           ∧ flow_date_times (klaviyo_integration row') = dateTimes).
Proof.
  intros Hflag Hstale Hfrom Hfan Hcr Hfa Hfr opts tags merged ids dateTimes.
  unfold klaviyoUpdateStats. rewrite bind_run. cbn [Date_now].
  rewrite (gate_open _ _ _ Hflag Hstale). rewrite bind_run. cbn [ask].
  rewrite bind_run, (from_date_iso _ _ _ _ Hfrom). cbn [await].
  rewrite bind_run.
  destruct (findByIdOrPublicIdAndUpdate_run (_id store) (set_updating true)
              false env (tick w))
    as (r1 & w1 & Hrun1 & Hs1 & Hu1 & Hc1 & Hf1 & _).
  rewrite Hrun1 in Hfan |- *. cbn [snd] in Hfan.
  pose proof (preserves_fan_out store (iso env ms) env w1) as Hdb.
  destruct (fan_out store (iso env ms) env w1) as [o wa] eqn:Hfo.
  cbn [fst snd] in *. subst o.
  destruct Hdb as (Hs2 & Hu2 & Hc2 & Hf2).
  destruct (getFlowDefinitions_run_prefix ids opts env wa)
    as (requested & wb & Hdefs & _ & (Hs3 & Hu3 & Hc3 & Hf3) & Hreq).
  set (definitions := omap id (served env opts <$> requested)) in *.
  set (mergedFlows :=
         mergeFlowStatsWithMeta flowResults (col_data (fo_flows fetched)) tags
           (buildMessageDetailsMap definitions)).
  set (u := success_update (clock env (ticks wb)) tags dateTimes).
  destruct (findByIdOrPublicIdAndUpdate_run (_id store) u true env (tick wb))
    as (r & wc & Hupd & Hs4 & Hu4 & Hc4 & Hf4 & _ & Ht4).
  pose proof (findByIdOrPublicIdAndUpdate_result (_id store) u true env (tick wb))
    as Hr. rewrite Hupd in Hr. cbn [fst tick stores] in Hr.
  injection Hr as ->.
  assert (Hkc : Forall keyed_campaign merged) by apply keyed_merged_campaigns.
  assert (Hkf : Forall keyed_flow mergedFlows) by apply keyed_merged_flows.
  destruct (upsertCampaignStats_run (_id store) (public_id store) env merged wc Hkc)
    as (wd & Hcamp & Hc5 & Hs5 & Hu5 & Hf5 & _).
  destruct (upsertFlowStats_run (_id store) (public_id store) env mergedFlows wd Hkf)
    as (we & Hflow & Hf6 & Hs6 & Hu6 & Hc6 & _).
  exists requested, (ticks wb), we, (set_flow_stats (λ _, flow_stats w) wd).
  cbv zeta. fold definitions. fold mergedFlows. fold u.
  assert (Hrun : try_catch (sync_body store (iso env ms))
                   (λ error,
                      _ ← findByIdOrPublicIdAndUpdate (_id store)
                            (set_updating false) false;
                      throw error) env w1
                 = (Fulfilled (apply_store_update u
                                 <$> found_row env (_id store) (stores wb)), we)).
  { unfold try_catch, sync_body. rewrite bind_run, Hfo.
    rewrite bind_run. cbn [await]. rewrite Hcr.
    rewrite bind_run. cbn [await].
    assert (Hres : report_results (fo_flowSeriesReports fetched)
                   = Fulfilled flowResults).
    { unfold report_results. by rewrite Hfa, Hfr. }
    rewrite Hres. rewrite bind_run. fold opts. fold ids. rewrite Hdefs.
    rewrite bind_run. cbn [await]. rewrite Hfa.
    rewrite bind_run. cbn [ask]. rewrite bind_run. cbn [Date_now].
    fold tags. fold dateTimes.
    fold (success_update (clock env (ticks wb)) tags dateTimes). fold u.
    rewrite bind_run, Hupd. fold merged.
    rewrite bind_run, Hcamp.
    rewrite bind_run. fold definitions. fold mergedFlows. rewrite Hflow.
    reflexivity. }
  rewrite Hrun.
  assert (Hst : stores wb = updated_stores env (_id store) (set_updating true) (stores w)).
  { rewrite Hs3, Hs2, Hs1. reflexivity. }
  assert (Hst' : stores we = updated_stores env (_id store) u (stores w)).
  { rewrite Hs6, Hs5, Hs4. cbn [tick stores]. rewrite Hst.
    apply updated_stores_then. intros s. reflexivity. }
  split; [|split; [exact Hreq|split; [exact Hst'|split; [|split; [|split; [|split]]]]]].
  - rewrite Hst, found_row_updated. f_equal. f_equal.
    destruct (found_row env (_id store) (stores w)); reflexivity.
  - rewrite Hu6, Hu5, Hu4. cbn [tick users]. by rewrite Hu3, Hu2, Hu1.
  - rewrite Hc6, Hc5, Hc4. cbn [tick campaign_stats]. rewrite Hc3, Hc2, Hc1.
    cbn [tick campaign_stats].
    destruct (upsertCampaignStats_run (_id store) (public_id store) env merged w Hkc)
      as (w9 & Hrun9 & Hc9 & _).
    rewrite Hrun9. cbn [snd]. by rewrite Hc9.
  - reflexivity.
  - rewrite Hf6.
    destruct (upsertFlowStats_run (_id store) (public_id store) env mergedFlows
                (set_flow_stats (λ _, flow_stats w) wd) Hkf)
      as (w9 & Hrun9 & Hf9 & _).
    rewrite Hrun9. cbn [snd]. rewrite Hf9. cbn [set_flow_stats flow_stats ticks].
    f_equal. rewrite Hf5, Hf4. cbn [tick flow_stats]. by rewrite Hf3, Hf2, Hf1.
  - intros row Hrow. rewrite Hst', found_row_updated, Hrow.
    eexists. split; [reflexivity|]. by repeat split.
Qed.

Lemma sync_success_persists_witness :
  let env := Scenario.two_syncs_env in
  let store := Scenario.account in
  let w := Scenario.one_store_world in
  let flowAttributes : ReportAttributes FlowRow :=
    {| ra_results := Some []; ra_date_times := Some [] |} in
  is_updating_dashboard store = false
  ∧ (FRESHNESS_THRESHOLD_MS ≤ clock env (ticks w) - lastSync store)%Z
  ∧ from_date store None = Some Scenario.T0
  ∧ (fan_out store (iso env Scenario.T0) env
       (findByIdOrPublicIdAndUpdate (_id store) (set_updating true) false env
          (tick w)).2).1
      = Fulfilled Cases.spring_fetched
  ∧ report_results (fo_campaignValuesReports Cases.spring_fetched)
    = Fulfilled [Scenario.email_row]
  ∧ report_attributes (fo_flowSeriesReports Cases.spring_fetched)
    = Fulfilled flowAttributes
  ∧ ra_results flowAttributes = Some []
  ∧ (∃ n w',
       klaviyoUpdateStats store None env w
       = (Fulfilled (apply_store_update (success_update (clock env n) [] [])
                       <$> found_row env (_id store) (stores w)), w')
       ∧ users w' = users w)
  ∧ (klaviyoUpdateStats store None env w).1
    = Fulfilled (Some Scenario.account_after_first_sync).
Proof.
  intros env store w flowAttributes.
  assert (H1 : is_updating_dashboard store = false) by reflexivity.
  assert (H2 : (FRESHNESS_THRESHOLD_MS
                ≤ clock env (ticks w) - lastSync store)%Z).
  { vm_compute. discriminate. }
  assert (H3 : from_date store None = Some Scenario.T0) by reflexivity.
  assert (H4 : (fan_out store (iso env Scenario.T0) env
       (findByIdOrPublicIdAndUpdate (_id store) (set_updating true) false env
          (tick w)).2).1 = Fulfilled Cases.spring_fetched).
  { vm_compute. reflexivity. }
  assert (H5 : report_results (fo_campaignValuesReports Cases.spring_fetched)
               = Fulfilled [Scenario.email_row]) by reflexivity.
  assert (H6 : report_attributes (fo_flowSeriesReports Cases.spring_fetched)
               = Fulfilled flowAttributes) by reflexivity.
  assert (H7 : ra_results flowAttributes = Some []) by reflexivity.
  repeat (split; [assumption|]).
  split; [|vm_compute; reflexivity].
  destruct (sync_success_persists store None env w Scenario.T0
              Cases.spring_fetched [Scenario.email_row] flowAttributes []
              H1 H2 H3 H4 H5 H6 H7)
    as (requested & n & w' & w0 & Hrun & _ & _ & Hu & _).
  exists n, w'. split; [exact Hrun|exact Hu].
Defined.

(** ** The private-key middleware *)

Lemma replace_first_unfold pattern replacement text :
  replace_first pattern replacement text
  = if String.prefix pattern text
    then replacement
         +:+ String.substring (String.length pattern)
               (String.length text - String.length pattern) text
    else match text with
         | EmptyString => text
         | String c rest => String c (replace_first pattern replacement rest)
         end.
Proof. by destruct text. Qed.

Lemma prefix_app p k : String.prefix p (p +:+ k) = true.
Proof.
  induction p as [|c p IH]; [by destruct k|].
  simpl. by destruct (Ascii.ascii_dec c c).
Qed.

Lemma substring_whole s : String.substring 0 (String.length s) s = s.
Proof. induction s as [|c s IH]; [done|]. simpl. by rewrite IH. Qed.

Lemma substring_app p k :
  String.substring (String.length p)
    (String.length (p +:+ k) - String.length p) (p +:+ k) = k.
Proof.
  induction p as [|c p IH].
  - simpl. rewrite Nat.sub_0_r. apply substring_whole.
  - simpl. exact IH.
Qed.

(** Replacing a leading pattern leaves what follows it. *)
Lemma replace_first_prefix p k : replace_first p "" (p +:+ k) = k.
Proof. by rewrite replace_first_unfold, prefix_app, substring_app. Qed.

Lemma validatePrivateKey_next validPrivateKey req key :
  validatePrivateKey validPrivateKey req = CallsNext key
  ↔ ∃ k, key = VStr k ∧ validPrivateKey = Some k ∧ k ≠ ""
         ∧ private_key_of req = Some (Some (VStr k)).
Proof.
  unfold validatePrivateKey. split.
  - destruct (private_key_of req) as [[v|]|]; [|done..].
    destruct (truthy_value v) eqn:Hv; [|done]. cbn [negb].
    unfold isValidPrivateKey. destruct validPrivateKey as [valid|]; [|done].
    destruct (truthy valid) eqn:Ht; [|done].
    destruct v as [| | |s| | | |]; try done.
    destruct (String.eqb_spec s valid) as [->|]; [|done].
    intros [= <-]. exists valid. repeat split; try done.
    intros ->. done.
  - intros (k & -> & -> & Hk & ->).
    assert (Ht : truthy k = true).
    { unfold truthy. by destruct (String.eqb_spec k ""). }
    cbn [truthy_value isValidPrivateKey]. by rewrite Ht, String.eqb_refl.
Qed.

(** X15. [validatePrivateKey] hands a request on only with the configured
    key: the key it attaches is the text of [PRIVATE_KEY], which is set
    and not empty.  When [PRIVATE_KEY] is unset or empty every request is
    answered with 401 or 500.  The first place that supplies a key decides:
    a non-empty [x-private-key] header is the key whatever else the request
    carries, and without one an [Authorization] header [Bearer k] supplies
    [k]; the request is handed on when that key is the configured one and
    answered with 401 otherwise. *)
Theorem validatePrivateKey_admits_configured_key_only validPrivateKey req :
  (∀ key, validatePrivateKey validPrivateKey req = CallsNext key →
     ∃ k, key = VStr k ∧ validPrivateKey = Some k ∧ k ≠ "")
  ∧ (validPrivateKey = None ∨ validPrivateKey = Some "" →
     ∃ status error message,
       validatePrivateKey validPrivateKey req = Answers status error message
       ∧ (status = 401 ∨ status = 500)%Z)
  ∧ (∀ k, k ≠ "" → header_x_private_key req = Some k →
       validatePrivateKey validPrivateKey req
       = if bool_decide (validPrivateKey = Some k) then CallsNext (VStr k)
         else Answers 401 "Invalid private key format"
                (Some "The provided private key is not in a valid format"))
  ∧ (∀ k, k ≠ "" →
       header_x_private_key req = None ∨ header_x_private_key req = Some "" →
       header_authorization req = Some ("Bearer " +:+ k) →
       validatePrivateKey validPrivateKey req
       = if bool_decide (validPrivateKey = Some k) then CallsNext (VStr k)
         else Answers 401 "Invalid private key format"
                (Some "The provided private key is not in a valid format")).
Proof.
  assert (Hdecide : ∀ k, k ≠ "" →
            private_key_of req = Some (Some (VStr k)) →
            validatePrivateKey validPrivateKey req
            = if bool_decide (validPrivateKey = Some k) then CallsNext (VStr k)
              else Answers 401 "Invalid private key format"
                     (Some "The provided private key is not in a valid format")).
  { intros k Hk Hreq.
    assert (Ht : truthy k = true).
    { unfold truthy. by destruct (String.eqb_spec k ""). }
    unfold validatePrivateKey. rewrite Hreq. cbn [truthy_value]. rewrite Ht.
    cbn [negb]. unfold isValidPrivateKey.
    destruct validPrivateKey as [valid|].
    2:{ by rewrite bool_decide_eq_false_2. }
    destruct (truthy valid) eqn:Hvalid.
    - destruct (String.eqb_spec k valid) as [->|Hne].
      + by rewrite bool_decide_eq_true_2.
      + rewrite bool_decide_eq_false_2; [done|congruence].
    - rewrite bool_decide_eq_false_2; [done|]. intros [= ->]. congruence. }
  split; [|split; [|split]].
  - intros key Hnext. apply validatePrivateKey_next in Hnext
      as (k & -> & -> & Hk & _). eauto.
  - intros Hunset. unfold validatePrivateKey.
    destruct (private_key_of req) as [[v|]|]; [|eauto 10..].
    destruct (truthy_value v); cbn [negb]; [|eauto 10].
    assert (isValidPrivateKey validPrivateKey v = false) as ->.
    { by destruct Hunset as [->| ->]. }
    cbn [negb]. eauto 10.
  - intros k Hk Hx. apply Hdecide; [done|]. unfold private_key_of. rewrite Hx.
    cbn [fmap option_fmap option_map is_truthy truthy_value].
    assert (Ht : truthy k = true).
    { unfold truthy. by destruct (String.eqb_spec k ""). }
    by rewrite Ht.
  - intros k Hk Hx Ha. apply Hdecide; [done|]. unfold private_key_of.
    assert (is_truthy (VStr <$> header_x_private_key req) = false) as ->.
    { by destruct Hx as [->| ->]. }
    rewrite Ha. cbn [fmap option_fmap option_map is_truthy truthy_value].
    rewrite (replace_first_prefix "Bearer " k).
    assert (Ht : truthy k = true).
    { unfold truthy. by destruct (String.eqb_spec k ""). }
    by rewrite Ht.
Qed.

Lemma validatePrivateKey_admits_configured_key_only_witness :
  validatePrivateKey (Some "s3cret") Cases.bearer_request
  = CallsNext (VStr "s3cret")
  ∧ validatePrivateKey (Some "other") Cases.bearer_request
    = Answers 401 "Invalid private key format"
        (Some "The provided private key is not in a valid format").
Proof.
  assert (Hk : "s3cret" ≠ "") by discriminate.
  assert (Hx : header_x_private_key Cases.bearer_request = None
               ∨ header_x_private_key Cases.bearer_request = Some "")
    by (left; reflexivity).
  assert (Ha : header_authorization Cases.bearer_request
               = Some ("Bearer " +:+ "s3cret")) by reflexivity.
  split.
  - exact (proj2 (proj2 (proj2
             (validatePrivateKey_admits_configured_key_only (Some "s3cret")
                Cases.bearer_request))) "s3cret" Hk Hx Ha).
  - exact (proj2 (proj2 (proj2
             (validatePrivateKey_admits_configured_key_only (Some "other")
                Cases.bearer_request))) "s3cret" Hk Hx Ha).
Defined.

(** X16. [validatePrivateKeyWithDB] checks no key: it hands on every
    request [validatePrivateKey] hands on, with the same key, and also
    every request [validatePrivateKey] answers with "Invalid private key
    format", with a key that is not the configured one; the key it
    attaches is the first truthy value the request supplies. *)
Theorem validatePrivateKeyWithDB_admits_any_key validPrivateKey req :
  (∀ key, validatePrivateKey validPrivateKey req = CallsNext key →
     validatePrivateKeyWithDB req = CallsNext key)
  ∧ (∀ message,
       validatePrivateKey validPrivateKey req
       = Answers 401 "Invalid private key format" message →
       ∃ key, validatePrivateKeyWithDB req = CallsNext key
              ∧ key ≠ VStr (default "" validPrivateKey))
  ∧ (∀ key, validatePrivateKeyWithDB req = CallsNext key →
       private_key_of req = Some (Some key) ∧ truthy_value key = true).
Proof.
  unfold validatePrivateKey, validatePrivateKeyWithDB.
  destruct (private_key_of req) as [[v|]|]; [|by repeat split..].
  destruct (truthy_value v) eqn:Hv; cbn [negb]; [|by repeat split].
  split; [|split].
  - destruct (isValidPrivateKey validPrivateKey v); [|done]. cbn [negb]. done.
  - intros message Hinvalid. exists v. split; [done|].
    destruct (isValidPrivateKey validPrivateKey v) eqn:Hvalid; [done|].
    intros ->. unfold isValidPrivateKey in Hvalid.
    destruct validPrivateKey as [valid|]; simpl in *.
    + destruct (truthy valid) eqn:Ht; [by rewrite String.eqb_refl in Hvalid|].
      congruence.
    + done.
  - intros key [= <-]. done.
Qed.

Lemma validatePrivateKeyWithDB_admits_any_key_witness :
  validatePrivateKey (Some "other") Cases.bearer_request
  = Answers 401 "Invalid private key format"
      (Some "The provided private key is not in a valid format")
  ∧ validatePrivateKeyWithDB Cases.bearer_request = CallsNext (VStr "s3cret")
  ∧ ∃ key, validatePrivateKeyWithDB Cases.bearer_request = CallsNext key
           ∧ key ≠ VStr "other".
Proof.
  assert (H : validatePrivateKey (Some "other") Cases.bearer_request
              = Answers 401 "Invalid private key format"
                  (Some "The provided private key is not in a valid format"))
    by reflexivity.
  split; [exact H|]. split; [reflexivity|].
  exact (proj1 (proj2 (validatePrivateKeyWithDB_admits_any_key (Some "other")
                         Cases.bearer_request)) _ H).
Defined.
